(** * Inventory management system: a shallow embedding of [inventory_system.py]

    The module keeps one object, an [InventoryManager], whose only attribute
    [stock_data] is a Python dict from item names to quantities.  The methods
    are embedded as computations in a small state-and-exception monad; the
    Python runtime pieces they call (dict operations, string formatting,
    [json.dumps], [json.loads], [open]) are embedded next to them. *)

From Stdlib Require Import Ascii String List ZArith NArith Lia Bool.
Import ListNotations.

Set Implicit Arguments.

(** ** Python strings

    A Python [str] is a sequence of Unicode code points.  Any code point up
    to U+10FFFF may occur, surrogates (U+D800..U+DFFF) included. *)

Definition codepoint := N.
Definition str := list codepoint.

Definition ord (a : ascii) : codepoint := N_of_ascii a.

(** [lit] turns a literal of the development into a Python string. *)
Fixpoint lit (s : string) : str :=
  match s with
  | EmptyString => []
  | String a r => ord a :: lit r
  end.

Fixpoint str_eqb (a b : str) : bool :=
  match a, b with
  | [], [] => true
  | x :: a', y :: b' => N.eqb x y && str_eqb a' b'
  | _, _ => false
  end.

Definition valid_codepoint (c : codepoint) : bool := N.ltb c 1114112.
Definition valid_str (s : str) : bool := forallb valid_codepoint s.

(** Truth value of a string: only the empty string is falsy. *)
Definition truthy (s : str) : bool :=
  match s with
  | [] => false
  | _ :: _ => true
  end.

(** ** Exceptions and the method monad

    The exceptions that the module and the runtime pieces it calls raise.
    [OSError] stands for the class and its subclasses ([FileNotFoundError],
    [PermissionError], ...).  [JSONDecodeError], which the [json] module
    raises on a malformed text, and the two Unicode errors are subclasses of
    [ValueError]; [ValueError] stands here for a [ValueError] that is none
    of them. *)

Inductive exn : Type :=
  | KeyError (key : str)
  | OSError
  | JSONDecodeError
  | ValueError
  | RecursionError
  | UnicodeDecodeError
  | UnicodeEncodeError.

Inductive outcome (A : Type) : Type :=
  | Return (a : A)
  | Raise (e : exn).
Arguments Return {A} a.
Arguments Raise {A} e.

(** A method runs on a state [S] (the attribute it mutates), always leaves
    a state behind and either returns or raises. *)
Definition M (S A : Type) : Type := S -> S * outcome A.

Definition ret {S A} (a : A) : M S A := fun s => (s, Return a).
Definition raise {S A} (e : exn) : M S A := fun s => (s, Raise e).
Definition bind {S A B} (c : M S A) (k : A -> M S B) : M S B :=
  fun s =>
    match c s with
    | (s', Return a) => k a s'
    | (s', Raise e) => (s', Raise e)
    end.
Definition get_state {S} : M S S := fun s => (s, Return s).
Definition put_state {S} (s' : S) : M S unit := fun _ => (s', Return tt).
Definition lift {S A} (o : outcome A) : M S A := fun s => (s, o).

(** Sequencing of computations that touch no state. *)
Definition and_then {A B} (o : outcome A) (k : A -> outcome B) : outcome B :=
  match o with
  | Return a => k a
  | Raise e => Raise e
  end.

Declare Scope py_scope.
Delimit Scope py_scope with py.
Notation "x <- c ;; k" := (bind c (fun x => k))
  (at level 61, c at next level, right associativity) : py_scope.
Notation "c ;;; k" := (bind c (fun _ => k))
  (at level 61, right associativity) : py_scope.

Definition is_KeyError (e : exn) : bool :=
  match e with
  | KeyError _ => true
  | _ => false
  end.

(** [try: body except KeyError: handler].  Mutations made by [body] before
    the exception stay. *)
Definition try_except_KeyError {S A} (body handler : M S A) : M S A :=
  fun s =>
    match body s with
    | (s', Return a) => (s', Return a)
    | (s', Raise e) => if is_KeyError e then handler s' else (s', Raise e)
    end.

(** ** The interpreter

    What the module takes from the interpreter that runs it: how many
    arrays and objects, one inside the other, the JSON scanner may still
    enter before the interpreter raises [RecursionError] (the module's own
    calls need frames too: the embedding takes an interpreter that lets the
    scanner enter one at least); the line separator of the platform,
    [os.linesep]; the characters that the codec of [sys.stdout] encodes; and
    the characters that the encoding of file names, [os.fsencode], accepts
    in a path. *)

Class Interpreter : Type := {
  recursion_room : nat;
  recursion_room_pos : 1 <= recursion_room;
  linesep : str;
  stdout_encodable : codepoint -> bool;
  path_encodable : codepoint -> bool
}.

(** ** Python dicts

    A dict keeps its items in insertion order and never holds a key twice.
    It is embedded as the list of its items; [unique_keys] is the invariant
    every real dict satisfies. *)

Section Dict.
Variable V : Type.

Definition dict := list (str * V).

Fixpoint dict_mem (d : dict) (k : str) : bool :=
  match d with
  | [] => false
  | (k', _) :: r => str_eqb k k' || dict_mem r k
  end.

Fixpoint unique_keys (d : dict) : bool :=
  match d with
  | [] => true
  | (k, _) :: r => negb (dict_mem r k) && unique_keys r
  end.

(** [d.get(k)] *)
Fixpoint dict_lookup (d : dict) (k : str) : option V :=
  match d with
  | [] => None
  | (k', v) :: r => if str_eqb k k' then Some v else dict_lookup r k
  end.

(** [d.get(k, default)] *)
Definition dict_get (d : dict) (k : str) (default : V) : V :=
  match dict_lookup d k with
  | Some v => v
  | None => default
  end.

(** [d[k]] *)
Definition dict_getitem (d : dict) (k : str) : outcome V :=
  match dict_lookup d k with
  | Some v => Return v
  | None => Raise (KeyError k)
  end.

(** [d[k] = v]: a present key keeps its place, a new key goes last. *)
Fixpoint dict_setitem (d : dict) (k : str) (v : V) : dict :=
  match d with
  | [] => [(k, v)]
  | (k', v') :: r =>
      if str_eqb k k' then (k', v) :: r else (k', v') :: dict_setitem r k v
  end.

Fixpoint dict_remove (d : dict) (k : str) : dict :=
  match d with
  | [] => []
  | (k', v') :: r => if str_eqb k k' then r else (k', v') :: dict_remove r k
  end.

(** [del d[k]] *)
Definition dict_delitem (d : dict) (k : str) : outcome dict :=
  if dict_mem d k then Return (dict_remove d k) else Raise (KeyError k).

(** [d.items()] and the keys, in iteration order. *)
Definition dict_items (d : dict) : list (str * V) := d.
Definition dict_keys (d : dict) : list str := map fst d.

(** [dict(pairs)] *)
Definition dict_of_pairs (pairs : list (str * V)) : dict :=
  fold_left (fun d kv => dict_setitem d (fst kv) (snd kv)) pairs [].
End Dict.

Arguments dict_mem {V} d k.
Arguments unique_keys {V} d.
Arguments dict_lookup {V} d k.
Arguments dict_get {V} d k default.
Arguments dict_getitem {V} d k.
Arguments dict_setitem {V} d k v.
Arguments dict_remove {V} d k.
Arguments dict_delitem {V} d k.
Arguments dict_items {V} d.
Arguments dict_keys {V} d.
Arguments dict_of_pairs {V} pairs.

(** ** Formatting integers: [str(n)], [repr(n)], [f"{n}"]

    Decimal digits, most significant first, with a leading minus sign for a
    negative number: [int_repr] is the text.  The interpreter converts
    between integers and decimal text only up to
    [sys.get_int_max_str_digits()] digits, 4300 unless it is configured
    otherwise (0 stands for no limit), and raises [ValueError] beyond:
    [str_of_int] is the conversion. *)

Fixpoint digits_loop (fuel : nat) (n : N) (acc : str) : str :=
  match fuel with
  | O => acc
  | S f =>
      let acc' := (48 + n mod 10)%N :: acc in
      if (n / 10 =? 0)%N then acc' else digits_loop f (n / 10)%N acc'
  end.

Definition nat_digits (n : N) : str := digits_loop (S (N.to_nat (N.log2 n))) n [].

Definition int_repr (z : Z) : str :=
  if (z <? 0)%Z then ord "-" :: nat_digits (Z.abs_N z) else nat_digits (Z.abs_N z).

Definition int_max_str_digits : nat := 4300.

Definition too_many_digits (limit digits : nat) : bool :=
  negb (Nat.eqb limit 0) && Nat.ltb limit digits.

(** The number of decimal digits of an integer, sign apart. *)
Definition digits_of (z : Z) : nat := length (nat_digits (Z.abs_N z)).

(** An integer that the interpreter converts to text. *)
Definition convertible (z : Z) : bool :=
  negb (too_many_digits int_max_str_digits (digits_of z)).

Definition str_of_int (z : Z) : outcome str :=
  if convertible z then Return (int_repr z) else Raise ValueError.

(** ** The inventory methods

    The embedding follows the data model of the module: item names are
    strings and quantities are integers, so [stock_data] is a dict from
    [str] to [Z].  The state of a manager is the value of its only
    attribute. *)

Definition stock := dict Z.

Local Open Scope py_scope.

(** [InventoryManager.__init__] *)
Definition init : stock := [].

(** The log line [f"{datetime.now()}: Added {qty} of {item}"]; the clock
    reading, already formatted, is an input.  [log_line] is the line,
    [format_log_line] the evaluation of the f-string, which converts the
    quantity. *)
Definition log_line (now : str) (qty : Z) (item : str) : str :=
  now ++ lit ": Added " ++ int_repr qty ++ lit " of " ++ item.

Definition format_log_line (now : str) (qty : Z) (item : str) : outcome str :=
  and_then (str_of_int qty)
           (fun qty_text => Return (now ++ lit ": Added " ++ qty_text ++ lit " of " ++ item)).

(** [add_item(item, qty, logs=None)]; the caller supplies [item] and [qty],
    whose defaults are not embedded.  [logs] is the caller's list when one is
    passed, and a fresh list that nobody else sees otherwise; the method
    returns nothing, the embedding returns the caller's list as the call
    leaves it.  The store is updated before the log line is formatted, so an
    exception of the formatting leaves the new quantity in the store and the
    list as it was. *)
Definition add_item (item : str) (qty : Z) (logs : option (list str)) (now : str)
  : M stock (option (list str)) :=
  if negb (truthy item) then ret logs
  else
    let local := match logs with None => [] | Some l => l end in
    stock_data <- get_state ;;
    put_state (dict_setitem stock_data item (dict_get stock_data item 0 + qty)%Z) ;;;
    line <- lift (format_log_line now qty item) ;;
    let local := local ++ [line] in
    ret (match logs with None => None | Some _ => Some local end).

(** [remove_item(item, qty)] *)
Definition remove_item (item : str) (qty : Z) : M stock unit :=
  try_except_KeyError
    (stock_data <- get_state ;;
     v <- lift (dict_getitem stock_data item) ;;
     put_state (dict_setitem stock_data item (v - qty)%Z) ;;;
     stock_data <- get_state ;;
     v <- lift (dict_getitem stock_data item) ;;
     if (v <=? 0)%Z
     then (stock_data <- lift (dict_delitem stock_data item) ;;
           put_state stock_data)
     else ret tt)
    (ret tt).

(** [get_qty(item)] *)
Definition get_qty (item : str) : M stock Z :=
  stock_data <- get_state ;;
  lift (dict_getitem stock_data item).

(** The comprehension [[item for item, qty in items if qty < threshold]]. *)
Fixpoint low_items (items : list (str * Z)) (threshold : Z) : list str :=
  match items with
  | [] => []
  | (item, qty) :: rest =>
      if (qty <? threshold)%Z
      then item :: low_items rest threshold
      else low_items rest threshold
  end.

(** [check_low_items(threshold=5)] *)
Definition check_low_items (threshold : option Z) : M stock (list str) :=
  let threshold := match threshold with Some t => t | None => 5%Z end in
  stock_data <- get_state ;;
  ret (low_items (dict_items stock_data) threshold).

(** A call to [add_item] or [remove_item], for sequences of calls. *)
Inductive call : Type :=
  | AddItem (item : str) (qty : Z) (logs : option (list str)) (now : str)
  | RemoveItem (item : str) (qty : Z).

Definition run_call (c : call) (s : stock) : stock :=
  match c with
  | AddItem item qty logs now => fst (add_item item qty logs now s)
  | RemoveItem item qty => fst (remove_item item qty s)
  end.

Definition run_calls (cs : list call) (s : stock) : stock :=
  fold_left (fun s c => run_call c s) cs s.

Definition call_adds (item : str) (c : call) : bool :=
  match c with
  | AddItem item' _ _ _ => str_eqb item item'
  | RemoveItem _ _ => false
  end.

(** ** Values that [json.loads] builds *)

#[warnings="-register-all"] Inductive pyval : Type :=
  | PNone
  | PBool (b : bool)
  | PInt (z : Z)
  | PFloat (literal : str)   (* the float that this literal denotes *)
  | PStr (s : str)
  | PList (l : list pyval)
  | PDict (d : list (str * pyval)).

(** The store seen as a Python value. *)
Definition py_item (kv : str * Z) : str * pyval := (fst kv, PInt (snd kv)).
Definition of_stock (s : stock) : pyval := PDict (map py_item s).

(** ** [json.dumps] on the store

    The encoder of CPython's [json] module with its defaults
    ([ensure_ascii], separators [", "] and [": "]), at the type of the store:
    a dict with string keys and integer values. *)

Definition is_char (c : codepoint) (a : ascii) : bool := N.eqb c (ord a).

Definition QUOTE : codepoint := ord "034".
Definition BACKSLASH : codepoint := ord "\".

Definition hex_digit (n : N) : codepoint :=
  if (n <? 10)%N then (48 + n)%N else (87 + n)%N.

(** ['{0:04x}'.format(n)] for [n < 0x10000]. *)
Definition hex4 (n : N) : str :=
  [hex_digit (n / 4096 mod 16); hex_digit (n / 256 mod 16);
   hex_digit (n / 16 mod 16); hex_digit (n mod 16)]%N.

Definition u_escape (n : N) : str := BACKSLASH :: ord "u" :: hex4 n.

(** The replacement of one character in [encode_basestring_ascii]. *)
Definition escape_char (c : codepoint) : str :=
  if N.eqb c BACKSLASH then [BACKSLASH; BACKSLASH]
  else if N.eqb c QUOTE then [BACKSLASH; QUOTE]
  else if N.eqb c 8 then [BACKSLASH; ord "b"]
  else if N.eqb c 12 then [BACKSLASH; ord "f"]
  else if N.eqb c 10 then [BACKSLASH; ord "n"]
  else if N.eqb c 13 then [BACKSLASH; ord "r"]
  else if N.eqb c 9 then [BACKSLASH; ord "t"]
  else if (32 <=? c)%N && (c <=? 126)%N then [c]
  else if (c <? 65536)%N then u_escape c
  else
    let n := (c - 65536)%N in
    u_escape (N.lor 55296 (N.land (N.shiftr n 10) 1023))
    ++ u_escape (N.lor 56320 (N.land n 1023)).

Definition encode_basestring_ascii (s : str) : str :=
  QUOTE :: flat_map escape_char s ++ [QUOTE].

(** The loop of [_iterencode_dict]: a separator before every item but the
    first. *)
Fixpoint iterencode_items (first : bool) (items : list (str * Z)) : str :=
  match items with
  | [] => []
  | (key, value) :: rest =>
      (if first then [] else lit ", ")
      ++ encode_basestring_ascii key ++ lit ": " ++ int_repr value
      ++ iterencode_items false rest
  end.

Definition json_dumps (d : stock) : str :=
  match d with
  | [] => lit "{}"
  | _ => lit "{" ++ iterencode_items true (dict_items d) ++ lit "}"
  end.

(** Every quantity is one that the interpreter converts to text. *)
Definition all_convertible (d : stock) : bool :=
  forallb (fun kv => convertible (snd kv)) (dict_items d).

(** [json.dumps(d)]: the encoder converts every quantity with the
    interpreter's conversion and raises [ValueError] when one has too many
    digits; [json_dumps d] is the text it returns otherwise. *)
Definition json_dumps_call (d : stock) : outcome str :=
  if all_convertible d then Return (json_dumps d) else Raise ValueError.

(** ** [json.loads]

    The decoder of CPython's [json] module with its defaults (strict
    strings, no hooks), following its C scanner.  A literal with a fraction
    or an exponent yields a float, kept as its literal; a literal without
    them goes through [int], which raises [ValueError] when it has too many
    digits.  The scanner recurses on nested arrays and objects and raises
    [RecursionError] when they nest deeper than the interpreter has room
    for.  The loops of the embedding run on fuel, enough for every text (see
    [scan_fuel]). *)

Definition is_ws (c : codepoint) : bool :=
  is_char c " " || N.eqb c 9 || N.eqb c 10 || N.eqb c 13.

Fixpoint skip_ws (s : str) : str :=
  match s with
  | c :: r => if is_ws c then skip_ws r else s
  | [] => []
  end.

Definition is_digit (c : codepoint) : bool := (48 <=? c)%N && (c <=? 57)%N.

Definition hex_val (c : codepoint) : option N :=
  if (48 <=? c)%N && (c <=? 57)%N then Some (c - 48)%N
  else if (97 <=? c)%N && (c <=? 102)%N then Some (c - 87)%N
  else if (65 <=? c)%N && (c <=? 70)%N then Some (c - 55)%N
  else None.

Definition hex4_val (a b c d : codepoint) : option N :=
  match hex_val a, hex_val b, hex_val c, hex_val d with
  | Some x, Some y, Some z, Some w => Some (((x * 16 + y) * 16 + z) * 16 + w)%N
  | _, _, _, _ => None
  end.

Definition is_high_surrogate (c : N) : bool := (55296 <=? c)%N && (c <=? 56319)%N.
Definition is_low_surrogate (c : N) : bool := (56320 <=? c)%N && (c <=? 57343)%N.

Definition join_surrogates (hi lo : N) : N :=
  (65536 + N.lor (N.shiftl (hi - 55296) 10) (lo - 56320))%N.

(** The characters that may follow a backslash, [u] apart. *)
Definition backslash (e : codepoint) : option codepoint :=
  if N.eqb e QUOTE then Some QUOTE
  else if N.eqb e BACKSLASH then Some BACKSLASH
  else if is_char e "/" then Some (ord "/")
  else if is_char e "b" then Some 8%N
  else if is_char e "f" then Some 12%N
  else if is_char e "n" then Some 10%N
  else if is_char e "r" then Some 13%N
  else if is_char e "t" then Some 9%N
  else None.

Definition cons_char (c : codepoint) (o : outcome (str * str)) : outcome (str * str) :=
  match o with
  | Return (s, rest) => Return (c :: s, rest)
  | Raise e => Raise e
  end.

(** [scanstring]: the text after an opening quote, up to the closing one. *)
Fixpoint scanstring (s : str) : outcome (str * str) :=
  match s with
  | [] => Raise JSONDecodeError
  | c :: r =>
      if N.eqb c QUOTE then Return ([], r)
      else if N.eqb c BACKSLASH then
        match r with
        | [] => Raise JSONDecodeError
        | e :: r1 =>
            if is_char e "u" then
              match r1 with
              | h1 :: h2 :: h3 :: h4 :: r2 =>
                  match hex4_val h1 h2 h3 h4 with
                  | None => Raise JSONDecodeError
                  | Some uni =>
                      if is_high_surrogate uni then
                        match r2 with
                        | b :: u :: g1 :: g2 :: g3 :: g4 :: r3 =>
                            if N.eqb b BACKSLASH && is_char u "u" then
                              match hex4_val g1 g2 g3 g4 with
                              | None => Raise JSONDecodeError
                              | Some uni2 =>
                                  if is_low_surrogate uni2
                                  then cons_char (join_surrogates uni uni2) (scanstring r3)
                                  else cons_char uni (scanstring r2)
                              end
                            else cons_char uni (scanstring r2)
                        | _ => cons_char uni (scanstring r2)
                        end
                      else cons_char uni (scanstring r2)
                  end
              | _ => Raise JSONDecodeError
              end
            else
              match backslash e with
              | Some ch => cons_char ch (scanstring r1)
              | None => Raise JSONDecodeError
              end
        end
      else if (c <? 32)%N then Raise JSONDecodeError
      else cons_char c (scanstring r)
  end.

(** Numbers, group by group of the scanner's pattern: an integer part (an
    optional minus sign, then a single zero or a non-zero digit followed by
    digits), an optional fraction (a dot and at least one digit) and an
    optional exponent (e or E, an optional sign and at least one digit). *)

Fixpoint take_digits (s : str) : str * str :=
  match s with
  | c :: r =>
      if is_digit c
      then let (ds, rest) := take_digits r in (c :: ds, rest)
      else ([], s)
  | [] => ([], [])
  end.

Definition match_sign (s : str) : str * str :=
  match s with
  | c :: r => if is_char c "-" then ([c], r) else ([], s)
  | [] => ([], s)
  end.

Definition match_integer (s : str) : option (str * str) :=
  let (sign, s1) := match_sign s in
  match s1 with
  | c :: r =>
      if is_char c "0" then Some (sign ++ [c], r)
      else if is_digit c
      then let (ds, rest) := take_digits r in Some (sign ++ c :: ds, rest)
      else None
  | [] => None
  end.

Definition match_frac (s : str) : str * str :=
  match s with
  | c :: r =>
      if is_char c "." then
        match take_digits r with
        | ([], _) => ([], s)
        | (ds, rest) => (c :: ds, rest)
        end
      else ([], s)
  | [] => ([], s)
  end.

Definition match_exp (s : str) : str * str :=
  match s with
  | c :: r =>
      if is_char c "e" || is_char c "E" then
        let (sign, r1) :=
          match r with
          | g :: r' => if is_char g "-" || is_char g "+" then ([g], r') else ([], r)
          | [] => ([], r)
          end in
        match take_digits r1 with
        | ([], _) => ([], s)
        | (ds, rest) => (c :: sign ++ ds, rest)
        end
      else ([], s)
  | [] => ([], s)
  end.

(** [int(literal)] on a literal matched by the first group. *)
Definition digits_value (ds : str) : N :=
  fold_left (fun a d => (10 * a + (d - 48))%N) ds 0%N.

Definition int_of_literal (l : str) : Z :=
  match l with
  | c :: r => if is_char c "-" then (- Z.of_N (digits_value r))%Z
              else Z.of_N (digits_value l)
  | [] => 0%Z
  end.

(** The digits of such a literal, sign apart. *)
Definition literal_digits (l : str) : nat :=
  match l with
  | c :: r => if is_char c "-" then length r else length l
  | [] => 0
  end.

(** [int(literal)], with the limit on the number of digits. *)
Definition int_of_str (limit : nat) (l : str) : outcome pyval :=
  if too_many_digits limit (literal_digits l) then Raise ValueError
  else Return (PInt (int_of_literal l)).

Definition match_number (limit : nat) (s : str) : option (outcome pyval * str) :=
  match match_integer s with
  | None => None
  | Some (integer, s1) =>
      let (frac, s2) := match_frac s1 in
      let (exp, s3) := match_exp s2 in
      match frac, exp with
      | [], [] => Some (int_of_str limit integer, s3)
      | _, _ => Some (Return (PFloat (integer ++ frac ++ exp)), s3)
      end
  end.

(** [s[idx:idx + len(p)] == p] *)
Fixpoint strip_prefix (p s : str) : option str :=
  match p, s with
  | [], _ => Some s
  | a :: p', b :: s' => if N.eqb a b then strip_prefix p' s' else None
  | _ :: _, [] => None
  end.

(** What the scanner is reading: a value ([scan_once]), the elements of an
    array after the first look-ahead ([JSONArray]), or the members of an
    object from the text after the opening quote of a key ([JSONObject]). *)
Inductive mode : Type :=
  | Value
  | Elements (values : list pyval)
  | Members (pairs : list (str * pyval)).

Inductive scanned : Type :=
  | Scanned (v : pyval) (rest : str)
  | Failed                        (* a [JSONDecodeError] *)
  | TooLong                       (* the [ValueError] of [int] *)
  | TooDeep                       (* a [RecursionError] *)
  | OutOfFuel.

Definition scan_atom (limit : nat) (s : str) : scanned :=
  match strip_prefix (lit "null") s with
  | Some r => Scanned PNone r
  | None =>
  match strip_prefix (lit "true") s with
  | Some r => Scanned (PBool true) r
  | None =>
  match strip_prefix (lit "false") s with
  | Some r => Scanned (PBool false) r
  | None =>
  match match_number limit s with
  | Some (Return v, r) => Scanned v r
  | Some (Raise _, _) => TooLong
  | None =>
  match strip_prefix (lit "NaN") s with
  | Some r => Scanned (PFloat (lit "NaN")) r
  | None =>
  match strip_prefix (lit "Infinity") s with
  | Some r => Scanned (PFloat (lit "Infinity")) r
  | None =>
  match strip_prefix (lit "-Infinity") s with
  | Some r => Scanned (PFloat (lit "-Infinity")) r
  | None => Failed
  end end end end end end end.

(** [scan_once]: one value.  [self] is the scanner to use on what is
    nested, [limit] the interpreter's limit on the digits of an integer,
    [room] the number of arrays and objects that may still be entered:
    entering one takes one unit, whatever it holds. *)
Definition scan_once (self : nat -> mode -> str -> scanned) (limit room : nat)
    (s : str) : scanned :=
  match s with
  | [] => Failed
  | c :: r =>
      if N.eqb c QUOTE then
        match scanstring r with
        | Return (k, rest) => Scanned (PStr k) rest
        | Raise _ => Failed
        end
      else if is_char c "{" then
        match room with
        | O => TooDeep
        | S room =>
            match skip_ws r with
            | c1 :: r1 =>
                if is_char c1 "}" then Scanned (PDict []) r1
                else if N.eqb c1 QUOTE then self room (Members []) r1
                else Failed
            | [] => Failed
            end
        end
      else if is_char c "[" then
        match room with
        | O => TooDeep
        | S room =>
            match skip_ws r with
            | c1 :: r1 =>
                if is_char c1 "]" then Scanned (PList []) r1
                else self room (Elements []) (c1 :: r1)
            | [] => Failed
            end
        end
      else scan_atom limit s
  end.

(** One turn of the loop of [JSONArray]: a value, then a comma or the
    closing bracket. *)
Definition scan_elements (self : nat -> mode -> str -> scanned) (room : nat)
    (values : list pyval) (s : str) : scanned :=
  match self room Value s with
  | Scanned value r =>
      let values := values ++ [value] in
      match skip_ws r with
      | c :: r1 =>
          if is_char c "]" then Scanned (PList values) r1
          else if is_char c "," then self room (Elements values) (skip_ws r1)
          else Failed
      | [] => Failed
      end
  | other => other
  end.

(** One turn of the loop of [JSONObject]: a key, a colon, a value, then a
    comma and the quote of the next key, or the closing brace. *)
Definition scan_members (self : nat -> mode -> str -> scanned) (room : nat)
    (pairs : list (str * pyval)) (s : str) : scanned :=
  match scanstring s with
  | Raise _ => Failed
  | Return (key, r) =>
      match skip_ws r with
      | c :: r1 =>
          if is_char c ":" then
            match self room Value (skip_ws r1) with
            | Scanned value r2 =>
                let pairs := pairs ++ [(key, value)] in
                match skip_ws r2 with
                | c2 :: r3 =>
                    if is_char c2 "}" then Scanned (PDict (dict_of_pairs pairs)) r3
                    else if is_char c2 "," then
                      match skip_ws r3 with
                      | c3 :: r4 =>
                          if N.eqb c3 QUOTE then self room (Members pairs) r4
                          else Failed
                      | [] => Failed
                      end
                    else Failed
                | [] => Failed
                end
            | other => other
            end
          else Failed
      | [] => Failed
      end
  end.

Fixpoint scan (limit fuel room : nat) (m : mode) (s : str) : scanned :=
  match fuel with
  | O => OutOfFuel
  | S fuel =>
      match m with
      | Value => scan_once (scan limit fuel) limit room s
      | Elements values => scan_elements (scan limit fuel) room values s
      | Members pairs => scan_members (scan limit fuel) room pairs s
      end
  end.

Definition scan_fuel (s : str) : nat := 2 * List.length s + 1.

(** [json.loads(s)]: leading white space, one value, trailing white space. *)
Definition json_loads `{Interpreter} (s : str) : outcome pyval :=
  let s := skip_ws s in
  match scan int_max_str_digits (scan_fuel s) recursion_room Value s with
  | Scanned obj rest =>
      match skip_ws rest with
      | [] => Return obj
      | _ :: _ => Raise JSONDecodeError
      end
  | Failed => Raise JSONDecodeError
  | TooLong => Raise ValueError
  | TooDeep => Raise RecursionError
  | OutOfFuel => Raise JSONDecodeError
  end.

(** ** The JSON grammar

    The grammar of RFC 8259, to which the decoder is compared: white space,
    the three literals, numbers, strings, arrays and objects, and with them
    the three constants [NaN], [Infinity] and [-Infinity], which are not JSON
    but which [json.loads] accepts with its defaults.  These definitions
    follow the grammar, not the code. *)

Definition json_ws (t : str) : Prop :=
  Forall (fun c => c = 32 \/ c = 9 \/ c = 10 \/ c = 13)%N t.

Definition json_digits (t : str) : Prop :=
  Forall (fun c => 48 <= c <= 57)%N t.

Definition json_hex (c : codepoint) : Prop :=
  (48 <= c <= 57 \/ 65 <= c <= 70 \/ 97 <= c <= 102)%N.

(** The characters of a string, between its quotes. *)
Inductive json_chars : str -> Prop :=
  | chars_end : json_chars []
  | chars_unescaped c t :
      (32 <= c)%N -> c <> QUOTE -> c <> BACKSLASH ->
      json_chars t -> json_chars (c :: t)
  | chars_escape e t :
      In e [QUOTE; BACKSLASH; ord "/"; ord "b"; ord "f"; ord "n"; ord "r"; ord "t"] ->
      json_chars t -> json_chars (BACKSLASH :: e :: t)
  | chars_unicode h1 h2 h3 h4 t :
      json_hex h1 -> json_hex h2 -> json_hex h3 -> json_hex h4 ->
      json_chars t -> json_chars (BACKSLASH :: ord "u" :: h1 :: h2 :: h3 :: h4 :: t).

Inductive json_int : str -> Prop :=
  | int_zero : json_int (lit "0")
  | int_nonzero d ds : (49 <= d <= 57)%N -> json_digits ds -> json_int (d :: ds).

Inductive json_frac : str -> Prop :=
  | frac_none : json_frac []
  | frac_some d ds : json_digits (d :: ds) -> json_frac (ord "." :: d :: ds).

Inductive json_exp : str -> Prop :=
  | exp_none : json_exp []
  | exp_some e sign d ds :
      e = ord "e" \/ e = ord "E" ->
      sign = [] \/ sign = lit "-" \/ sign = lit "+" ->
      json_digits (d :: ds) -> json_exp (e :: sign ++ d :: ds).

Inductive json_number : str -> Prop :=
  | number_of sign int frac exp :
      sign = [] \/ sign = lit "-" ->
      json_int int -> json_frac frac -> json_exp exp ->
      json_number (sign ++ int ++ frac ++ exp).

Inductive json_value : str -> Prop :=
  | value_null : json_value (lit "null")
  | value_true : json_value (lit "true")
  | value_false : json_value (lit "false")
  | value_number t : json_number t -> json_value t
  | value_string t : json_chars t -> json_value (QUOTE :: t ++ [QUOTE])
  | value_empty_array w : json_ws w -> json_value (ord "[" :: w ++ lit "]")
  | value_array t : json_elements t -> json_value (ord "[" :: t ++ lit "]")
  | value_empty_object w : json_ws w -> json_value (ord "{" :: w ++ lit "}")
  | value_object t : json_members t -> json_value (ord "{" :: t ++ lit "}")
  | value_constant t :
      t = lit "NaN" \/ t = lit "Infinity" \/ t = lit "-Infinity" -> json_value t
with json_elements : str -> Prop :=
  | elements_last w1 v w2 :
      json_ws w1 -> json_value v -> json_ws w2 -> json_elements (w1 ++ v ++ w2)
  | elements_more w1 v w2 t :
      json_ws w1 -> json_value v -> json_ws w2 -> json_elements t ->
      json_elements (w1 ++ v ++ w2 ++ ord "," :: t)
with json_members : str -> Prop :=
  | members_last w1 k w2 w3 v w4 :
      json_ws w1 -> json_chars k -> json_ws w2 ->
      json_ws w3 -> json_value v -> json_ws w4 ->
      json_members (w1 ++ QUOTE :: k ++ QUOTE :: w2 ++ ord ":" :: w3 ++ v ++ w4)
  | members_more w1 k w2 w3 v w4 t :
      json_ws w1 -> json_chars k -> json_ws w2 ->
      json_ws w3 -> json_value v -> json_ws w4 -> json_members t ->
      json_members (w1 ++ QUOTE :: k ++ QUOTE :: w2 ++ ord ":" :: w3 ++ v ++ w4
                    ++ ord "," :: t).

(** A JSON text: one value, with white space around it. *)
Definition json_text (t : str) : Prop :=
  exists w1 v w2, json_ws w1 /\ json_value v /\ json_ws w2 /\ t = w1 ++ v ++ w2.

(** ** The UTF-8 codec and the newline translation of text files

    [open(file, mode, encoding="utf-8")] gives a text file: reading decodes
    the bytes and then turns every line ending ([\r\n], [\r]) into [\n];
    writing turns every [\n] into the line separator of the platform and then
    encodes.  Both codecs are strict: the decoder raises [UnicodeDecodeError]
    on bytes that are not well-formed UTF-8, the encoder raises
    [UnicodeEncodeError] on a surrogate. *)

Definition bytes := list N.

Definition map_return {A B} (f : A -> B) (o : outcome A) : outcome B :=
  match o with
  | Return a => Return (f a)
  | Raise e => Raise e
  end.

Definition in_range (lo hi b : N) : bool := (lo <=? b)%N && (b <=? hi)%N.

(** The range of the second byte, which depends on the first. *)
Definition second_byte_ok (b b1 : N) : bool :=
  if N.eqb b 224 then in_range 160 191 b1
  else if N.eqb b 237 then in_range 128 159 b1
  else if N.eqb b 240 then in_range 144 191 b1
  else if N.eqb b 244 then in_range 128 143 b1
  else in_range 128 191 b1.

Fixpoint utf8_decode (bs : bytes) : outcome str :=
  match bs with
  | [] => Return []
  | b :: r =>
      if (b <? 128)%N then map_return (cons b) (utf8_decode r)
      else if in_range 194 223 b then
        match r with
        | b1 :: r1 =>
            if in_range 128 191 b1
            then map_return (cons ((b - 192) * 64 + (b1 - 128))%N) (utf8_decode r1)
            else Raise UnicodeDecodeError
        | _ => Raise UnicodeDecodeError
        end
      else if in_range 224 239 b then
        match r with
        | b1 :: b2 :: r2 =>
            if second_byte_ok b b1 && in_range 128 191 b2
            then map_return
                   (cons ((b - 224) * 4096 + (b1 - 128) * 64 + (b2 - 128))%N)
                   (utf8_decode r2)
            else Raise UnicodeDecodeError
        | _ => Raise UnicodeDecodeError
        end
      else if in_range 240 244 b then
        match r with
        | b1 :: b2 :: b3 :: r3 =>
            if second_byte_ok b b1 && in_range 128 191 b2 && in_range 128 191 b3
            then map_return
                   (cons ((b - 240) * 262144 + (b1 - 128) * 4096
                          + (b2 - 128) * 64 + (b3 - 128))%N)
                   (utf8_decode r3)
            else Raise UnicodeDecodeError
        | _ => Raise UnicodeDecodeError
        end
      else Raise UnicodeDecodeError
  end.

Definition utf8_encode_char (c : codepoint) : outcome bytes :=
  if (c <? 128)%N then Return [c]
  else if (c <? 2048)%N then Return [192 + c / 64; 128 + c mod 64]%N
  else if in_range 55296 57343 c then Raise UnicodeEncodeError
  else if (c <? 65536)%N
  then Return [224 + c / 4096; 128 + c / 64 mod 64; 128 + c mod 64]%N
  else if (c <? 1114112)%N
  then Return [240 + c / 262144; 128 + c / 4096 mod 64;
               128 + c / 64 mod 64; 128 + c mod 64]%N
  else Raise UnicodeEncodeError.

Fixpoint utf8_encode (text : str) : outcome bytes :=
  match text with
  | [] => Return []
  | c :: r =>
      and_then (utf8_encode_char c)
               (fun bs => map_return (app bs) (utf8_encode r))
  end.

(** Reading with [newline=None]. *)
Fixpoint universal_newlines (text : str) : str :=
  match text with
  | [] => []
  | c :: r =>
      if N.eqb c 13 then
        match r with
        | d :: r' =>
            if N.eqb d 10 then 10%N :: universal_newlines r'
            else 10%N :: universal_newlines r
        | [] => [10%N]
        end
      else c :: universal_newlines r
  end.

(** Writing with [newline=None]. *)
Definition platform_newlines `{Interpreter} (text : str) : str :=
  flat_map (fun c => if N.eqb c 10 then linesep else [c]) text.

(** ** Files

    A path names a place, and different paths may name the same one
    ([inventory.json] and [./inventory.json], a link and its target).  At a
    place there is nothing, and then a file may or may not be created there,
    readable or not once created (the mask of the process decides); or there
    is a file with its permissions and its bytes.  The device has room for
    what is written. *)

Inductive node : Type :=
  | Missing (creatable : bool) (readable_once_created : bool)
  | File (readable writable : bool) (data : bytes).

Record filesystem : Type := {
  place_of : str -> N;
  node_at : N -> node
}.

Definition fs_node (fs : filesystem) (path : str) : node :=
  node_at fs (place_of fs path).

Definition fs_update (fs : filesystem) (path : str) (n : node) : filesystem :=
  {| place_of := place_of fs;
     node_at := fun place =>
                  if N.eqb place (place_of fs path) then n else node_at fs place |}.

(** What [open] does with its path before it asks the system: the path is
    encoded, which raises [UnicodeEncodeError] on a character that the
    encoding of file names refuses, and must hold no null character, or
    [ValueError] is raised. *)
Definition check_path `{Interpreter} (file : str) : outcome unit :=
  if negb (forallb path_encodable file) then Raise UnicodeEncodeError
  else if existsb (N.eqb 0) file then Raise ValueError
  else Return tt.

(** [open(file, "r", encoding="utf-8").read()] *)
Definition read_file `{Interpreter} (fs : filesystem) (file : str) : outcome str :=
  and_then (check_path file) (fun _ =>
    match fs_node fs file with
    | File true _ data => map_return universal_newlines (utf8_decode data)
    | _ => Raise OSError
    end).

(** [open(file, "w", encoding="utf-8")]: creates the file or empties it. *)
Definition open_w `{Interpreter} (file : str) : M filesystem unit :=
  lift (check_path file) ;;;
  fun fs =>
    match fs_node fs file with
    | File r true _ => (fs_update fs file (File r true []), Return tt)
    | Missing true r => (fs_update fs file (File r true []), Return tt)
    | _ => (fs, Raise OSError)
    end.

(** [f.write(text)] on a file just opened for writing. *)
Definition write `{Interpreter} (file : str) (text : str) : M filesystem unit :=
  fun fs =>
    match fs_node fs file with
    | File r w data =>
        match utf8_encode (platform_newlines text) with
        | Return bs => (fs_update fs file (File r w (data ++ bs)), Return tt)
        | Raise e => (fs, Raise e)
        end
    | Missing _ _ => (fs, Raise OSError)
    end.

Definition default_file : str := lit "inventory.json".

(** [load_data(file="inventory.json")].  The state is the attribute
    [stock_data], which may hold any value afterwards; the file system is
    only read. *)
Definition load_data `{Interpreter} (fs : filesystem) (file : option str)
  : M pyval unit :=
  let file := match file with Some f => f | None => default_file end in
  text <- lift (read_file fs file) ;;
  obj <- lift (json_loads text) ;;
  put_state obj.

(** [save_data(file="inventory.json")].  The state is the file system;
    [stock_data] is only read.  The file is opened, and so emptied, before
    the mapping is encoded. *)
Definition save_data `{Interpreter} (stock_data : stock) (file : option str)
  : M filesystem unit :=
  let file := match file with Some f => f | None => default_file end in
  open_w file ;;;
  text <- lift (json_dumps_call stock_data) ;;
  write file text.

Definition path_of (file : option str) : str :=
  match file with Some f => f | None => default_file end.

(** A path that [open] accepts. *)
Definition valid_path `{Interpreter} (path : str) : bool :=
  forallb path_encodable path && negb (existsb (N.eqb 0) path).

Definition readable (fs : filesystem) (path : str) : bool :=
  match fs_node fs path with
  | File true _ _ => true
  | _ => false
  end.

(** The interpreter of the examples: a POSIX platform, standard output and
    file names in UTF-8 (file names with the [surrogateescape] handler, which
    accepts the surrogates U+DC80 to U+DCFF), and room for 900 nested arrays
    and objects. *)
Definition example_room : nat := 900.

Definition example_room_pos : 1 <= example_room := le_n_S 0 899 (Nat.le_0_l 899).

#[export] Instance cpython : Interpreter := {|
  recursion_room := example_room;
  recursion_room_pos := example_room_pos;
  linesep := [10%N];
  stdout_encodable := fun c => negb (in_range 55296 57343 c) && (c <? 1114112)%N;
  path_encodable := fun c => (negb (in_range 55296 57343 c) || in_range 56448 56575 c)
                             && (c <? 1114112)%N
|}.

(** ** The scenario of [main], without its ill-typed call *)

Definition apple : str := lit "apple".
Definition banana : str := lit "banana".
Definition orange : str := lit "orange".

Definition scenario (now : str) : list call :=
  [AddItem apple 10 None now; AddItem banana (-2) None now;
   RemoveItem apple 3; RemoveItem orange 1].

(** ** Keys that survive the escapes of the encoder

    The encoder writes a surrogate code point as one [\uXXXX] escape and a
    code point above U+FFFF as two, a high and a low surrogate; the decoder
    reads a high surrogate escape followed by a low one as a single code
    point.  A string keeps its code points through both when no high
    surrogate of its own is directly followed by a low one. *)

Fixpoint no_surrogate_pair (s : str) : bool :=
  match s with
  | c :: r =>
      match r with
      | d :: _ => negb (is_high_surrogate c && is_low_surrogate d)
      | [] => true
      end && no_surrogate_pair r
  | [] => true
  end.

Definition plain_key (k : str) : bool := valid_str k && no_surrogate_pair k.

(** The low-stock test of the specification, on a key of the mapping. *)
Definition below (s : stock) (threshold : Z) (item : str) : bool :=
  match dict_lookup s item with
  | Some q => (q <? threshold)%Z
  | None => false
  end.

(** ** Auxiliary notions for the proofs *)

(** The characters that follow a value in the output of the encoder. *)
Definition closes_value (c : codepoint) : Prop := c = ord "," \/ c = ord "}".

(** No escape of a low surrogate starts the text. *)
Definition no_low_follows (r : str) : Prop :=
  forall g1 g2 g3 g4 r3,
    r = BACKSLASH :: ord "u" :: g1 :: g2 :: g3 :: g4 :: r3 ->
    exists uni2, hex4_val g1 g2 g3 g4 = Some uni2 /\ is_low_surrogate uni2 = false.

(** The four ways in which the encoder writes a character: a short escape,
    the character itself, one [\uXXXX] escape, or two. *)
Inductive escape_kind (c : codepoint) : Prop :=
  | Short (e : codepoint) (He : escape_char c = [BACKSLASH; e])
          (Hu : is_char e "u" = false) (Hb : backslash e = Some c)
  | Plain (He : escape_char c = [c]) (Hq : N.eqb c QUOTE = false)
          (Hb : N.eqb c BACKSLASH = false) (Hc : (32 <= c)%N)
  | Unicode (He : escape_char c = u_escape c) (Hc : (c < 65536)%N)
  | Astral (He : escape_char c =
                 u_escape (N.lor 55296 (N.land (N.shiftr (c - 65536) 10) 1023))
                 ++ u_escape (N.lor 56320 (N.land (c - 65536) 1023)))
           (Hc : (65536 <= c)%N).

(** The fuel a call of the scanner needs. *)
Definition fuel_needed (m : mode) (s : str) : nat :=
  match m with
  | Elements _ => 2 * length s + 2
  | _ => 2 * length s + 1
  end.

(** A scanner that, given [n] units of fuel or less to spend, never runs out
    and always consumes some text. *)
Definition sound_upto (self : nat -> mode -> str -> scanned) (n : nat) : Prop :=
  forall room m s, fuel_needed m s <= n ->
    self room m s <> OutOfFuel /\
    forall v r, self room m s = Scanned v r -> length r < length s.

(** What a successful call of the scanner has read, in the grammar. *)
Definition accepted (m : mode) (s r : str) : Prop :=
  match m with
  | Value => exists t, json_value t /\ s = t ++ r
  | Elements _ => exists t, json_elements t /\ s = t ++ ord "]" :: r
  | Members _ => exists t, json_members t /\ QUOTE :: s = t ++ ord "}" :: r
  end.

Definition grammatical (self : nat -> mode -> str -> scanned) : Prop :=
  forall room m s v r, self room m s = Scanned v r -> accepted m s r.

(** A text with a run of more than [limit] digits. *)
Definition has_long_number (limit : nat) (s : str) : Prop :=
  exists a ds b, s = a ++ ds ++ b /\ json_digits ds /\ limit < length ds.

(** The opening brackets and braces of a text. *)
Definition is_opening (c : codepoint) : bool := is_char c "[" || is_char c "{".

Definition brackets (s : str) : nat := length (filter is_opening s).

(** What the text must hold for the scanner to stop on a number too long or
    on nesting too deep. *)
Definition blamed (limit room : nat) (s : str) (x : scanned) : Prop :=
  match x with
  | TooLong => has_long_number limit s
  | TooDeep => room < brackets s
  | _ => True
  end.

Definition limited (limit : nat) (self : nat -> mode -> str -> scanned) : Prop :=
  forall room m s, blamed limit room s (self room m s).

Ltac break_match H :=
  repeat match type of H with
         | context [if ?b then _ else _] => destruct b eqn:?
         | context [match ?x with _ => _ end] => destruct x eqn:?
         end.

(** Closes a case in which the scanner stops without a value. *)
Ltac stopped := split; [discriminate | intros; discriminate].

(** Compares two texts built with [++] and [::]. *)
Ltac same_text :=
  repeat first [rewrite <- app_assoc | progress cbn [app lit]]; reflexivity.

(** Evaluates the tests of the scanner on the punctuation of the encoder. *)
Ltac punct :=
  repeat first
    [ progress cbn [skip_ws app lit iterencode_items]
    | progress change (is_ws (ord ":")) with false
    | progress change (is_ws (ord " ")) with true
    | progress change (is_ws (ord ",")) with false
    | progress change (is_ws (ord "}")) with false
    | progress change (is_ws QUOTE) with false
    | progress change (is_char (ord ":") ":") with true
    | progress change (is_char (ord "}") "}") with true
    | progress change (is_char (ord ",") "}") with false
    | progress change (is_char (ord ",") ",") with true
    | progress change (N.eqb QUOTE QUOTE) with true
    | progress cbv beta iota ].


(** ** Inputs of the examples *)

(** A key made of two surrogate code points, U+D83D and U+DE00. *)
Definition surrogate_stock : stock := [([55357; 56832]%N, 1%Z)].

(** A disk where any file may be created, and one where every path holds
    the text of a JSON array. *)
Definition empty_disk : filesystem :=
  {| place_of := fun _ => 0%N; node_at := fun _ => Missing true true |}.
Definition array_disk : filesystem :=
  {| place_of := fun _ => 0%N; node_at := fun _ => File true true (lit "[]") |}.

(** A disk whose every path holds an empty file, one whose every path holds
    the saved text of a mapping with one item, and one whose every path
    holds some stale text. *)
Definition blank_disk : filesystem :=
  {| place_of := fun _ => 0%N; node_at := fun _ => File true true [] |}.
Definition apple_disk : filesystem :=
  {| place_of := fun _ => 0%N;
     node_at := fun _ => File true true (json_dumps [(apple, 7%Z)]) |}.
Definition stale_disk : filesystem :=
  {| place_of := fun _ => 0%N;
     node_at := fun _ => File true true (lit "stale text") |}.

(** Arrays one inside the other, and two disks whose every path holds a
    text that the decoder refuses for its size: an integer literal of 4301
    digits, and 2000 arrays one inside the other. *)
Fixpoint nested (n : nat) : str :=
  match n with
  | O => lit "[]"
  | S n => ord "[" :: nested n ++ lit "]"
  end.

Definition long_number_disk : filesystem :=
  {| place_of := fun _ => 0%N;
     node_at := fun _ => File true true (repeat (ord "1") 4301) |}.
Definition deep_disk : filesystem :=
  {| place_of := fun _ => 0%N; node_at := fun _ => File true true (nested 1999) |}.

(** A disk with two places: the default path names the first, where a file
    may be created, and every other path the second, which holds the text of
    a JSON array. *)
Definition two_files : filesystem :=
  {| place_of := fun path => if str_eqb path default_file then 0%N else 1%N;
     node_at := fun place =>
                  if N.eqb place 0 then Missing true true
                  else File true true (lit "[]") |}.

(** ** The report *)

(** Standard output is an open text stream; the state of the printing
    functions is the text written to it so far.  A write passes its text to
    the codec of the stream as a whole: it is written in full, or the codec
    raises [UnicodeEncodeError] and nothing of it is written. *)
Definition write_stdout `{Interpreter} (text : str) : M str unit :=
  fun out =>
    if forallb stdout_encodable text then (out ++ text, Return tt)
    else (out, Raise UnicodeEncodeError).

(** [print(text)]: the text, then the line feed. *)
Definition print `{Interpreter} (text : str) : M str unit :=
  write_stdout text ;;;
  write_stdout [10%N].

(** The f-string [f"{item} -> {qty}"]. *)
Definition format_report_line (item : str) (qty : Z) : outcome str :=
  and_then (str_of_int qty) (fun qty_text => Return (item ++ lit " -> " ++ qty_text)).

(** The loop of [print_data]. *)
Fixpoint print_items `{Interpreter} (items : list (str * Z)) : M str unit :=
  match items with
  | [] => ret tt
  | (item, qty) :: rest =>
      line <- lift (format_report_line item qty) ;;
      print line ;;;
      print_items rest
  end.

(** [print_data()]; [stock_data] is only read. *)
Definition print_data `{Interpreter} (stock_data : stock) : M str unit :=
  print (lit "Items Report") ;;;
  print_items (dict_items stock_data).

(** What [print_data] writes when nothing fails: the header, then a line
    for each item. *)
Definition items_text (items : list (str * Z)) : str :=
  flat_map (fun kv => fst kv ++ lit " -> " ++ int_repr (snd kv) ++ [10%N]) items.

Definition report_text (s : stock) : str :=
  lit "Items Report" ++ [10%N] ++ items_text (dict_items s).

(** ** Notions for the further properties *)

(** Every stored quantity is positive. *)
Definition all_positive (s : stock) : bool :=
  forallb (fun kv => (0 <? snd kv)%Z) s.

(** A call that is a removal, or an addition of a positive quantity. *)
Definition adds_positive (c : call) : bool :=
  match c with
  | AddItem _ qty _ _ => (0 <? qty)%Z
  | RemoveItem _ _ => true
  end.

Definition is_add (c : call) : bool :=
  match c with
  | AddItem _ _ _ _ => true
  | RemoveItem _ _ => false
  end.

Definition printable_ascii (c : codepoint) : bool := (32 <=? c)%N && (c <=? 126)%N.

(** A path at whose place a file can be written, or created. *)
Definition writable (fs : filesystem) (path : str) : bool :=
  match fs_node fs path with
  | File _ w _ => w
  | Missing creatable _ => creatable
  end.

(** What the decoder makes of the escapes of a string: a high surrogate
    directly followed by a low one becomes the code point that the pair
    stands for. *)
Fixpoint join_pairs (k : str) : str :=
  match k with
  | [] => []
  | c :: r =>
      match r with
      | d :: r' =>
          if is_high_surrogate c && is_low_surrogate d
          then join_surrogates c d :: join_pairs r'
          else c :: join_pairs r
      | [] => [c]
      end
  end.

Definition reloaded_item (kv : str * Z) : str * pyval :=
  (join_pairs (fst kv), PInt (snd kv)).


(** * Properties *)

(** ** Strings and dicts *)

Lemma str_eqb_refl (a : str) : str_eqb a a = true.
Proof.
  induction a as [|x a IH]; simpl; [reflexivity|].
  now rewrite N.eqb_refl, IH.
Qed.

Lemma str_eqb_eq (a b : str) : str_eqb a b = true <-> a = b.
Proof.
  split.
  - revert b; induction a as [|x a IH]; destruct b as [|y b]; simpl;
      try discriminate; [reflexivity|].
    intros H. apply andb_true_iff in H as [Hx Hr].
    apply N.eqb_eq in Hx. f_equal; auto.
  - intros ->. apply str_eqb_refl.
Qed.

Lemma str_eqb_neq (a b : str) : str_eqb a b = false <-> a <> b.
Proof.
  rewrite <- str_eqb_eq. destruct (str_eqb a b); split; congruence.
Qed.

Lemma str_eqb_sym (a b : str) : str_eqb a b = str_eqb b a.
Proof.
  destruct (str_eqb a b) eqn:E.
  - apply str_eqb_eq in E. subst. symmetry. apply str_eqb_refl.
  - apply str_eqb_neq in E. symmetry. apply str_eqb_neq. congruence.
Qed.

Section DictFacts.
Variable V : Type.
Implicit Types (d : dict V) (k : str) (v : V).

Lemma dict_mem_lookup d k :
  dict_mem d k = match dict_lookup d k with Some _ => true | None => false end.
Proof.
  induction d as [|[k' v'] r IH]; simpl; [reflexivity|].
  destruct (str_eqb k k'); simpl; auto.
Qed.

Lemma lookup_setitem_same d k v : dict_lookup (dict_setitem d k v) k = Some v.
Proof.
  induction d as [|[k' v'] r IH]; simpl.
  - now rewrite str_eqb_refl.
  - destruct (str_eqb k k') eqn:E; simpl; rewrite E; auto.
Qed.

Lemma lookup_setitem_other d k k' v :
  k' <> k -> dict_lookup (dict_setitem d k v) k' = dict_lookup d k'.
Proof.
  intros Hne. induction d as [|[k0 v0] r IH]; simpl.
  - apply str_eqb_neq in Hne. now rewrite Hne.
  - destruct (str_eqb k k0) eqn:E; simpl.
    + apply str_eqb_eq in E. subst k0.
      apply str_eqb_neq in Hne. now rewrite Hne.
    + destruct (str_eqb k' k0); auto.
Qed.

Lemma lookup_remove_other d k k' :
  k' <> k -> dict_lookup (dict_remove d k) k' = dict_lookup d k'.
Proof.
  intros Hne. induction d as [|[k0 v0] r IH]; simpl; [reflexivity|].
  destruct (str_eqb k k0) eqn:E; simpl.
  - apply str_eqb_eq in E. subst k0.
    apply str_eqb_neq in Hne. now rewrite Hne.
  - destruct (str_eqb k' k0); auto.
Qed.

Lemma lookup_remove_same d k :
  unique_keys d = true -> dict_lookup (dict_remove d k) k = None.
Proof.
  induction d as [|[k0 v0] r IH]; simpl; [reflexivity|].
  intros H. apply andb_true_iff in H as [Hk Hr].
  destruct (str_eqb k k0) eqn:E; simpl.
  - apply str_eqb_eq in E. subst k0.
    rewrite dict_mem_lookup in Hk.
    destruct (dict_lookup r k); [discriminate|reflexivity].
  - rewrite E. auto.
Qed.

Lemma remove_setitem d k v v0 :
  dict_lookup d k = Some v0 -> dict_remove (dict_setitem d k v) k = dict_remove d k.
Proof.
  induction d as [|[k0 v1] r IH]; simpl; [discriminate|].
  destruct (str_eqb k k0) eqn:E; simpl; rewrite E; [reflexivity|].
  intros H. now rewrite IH.
Qed.

Lemma mem_setitem d k k' v :
  dict_mem (dict_setitem d k v) k' = str_eqb k' k || dict_mem d k'.
Proof.
  rewrite !dict_mem_lookup.
  destruct (str_eqb k' k) eqn:E.
  - apply str_eqb_eq in E. subst. now rewrite lookup_setitem_same.
  - apply str_eqb_neq in E. now rewrite lookup_setitem_other.
Qed.

Lemma mem_remove_other d k k' :
  k' <> k -> dict_mem (dict_remove d k) k' = dict_mem d k'.
Proof.
  intros. rewrite !dict_mem_lookup. now rewrite lookup_remove_other.
Qed.

Lemma unique_keys_setitem d k v :
  unique_keys d = true -> unique_keys (dict_setitem d k v) = true.
Proof.
  induction d as [|[k0 v0] r IH]; simpl; [reflexivity|].
  intros H. apply andb_true_iff in H as [Hk Hr].
  destruct (str_eqb k k0) eqn:E; simpl.
  - now rewrite Hk, Hr.
  - rewrite mem_setitem, (str_eqb_sym k0 k), E, IH by assumption.
    simpl. now rewrite Hk.
Qed.

Lemma mem_remove_false d k k' :
  dict_mem d k' = false -> dict_mem (dict_remove d k) k' = false.
Proof.
  induction d as [|[k0 v0] r IH]; simpl; [reflexivity|].
  intros H. apply orb_false_iff in H as [H0 Hr].
  destruct (str_eqb k k0); simpl; [assumption|].
  now rewrite H0, IH.
Qed.

Lemma unique_keys_remove d k :
  unique_keys d = true -> unique_keys (dict_remove d k) = true.
Proof.
  induction d as [|[k0 v0] r IH]; simpl; [reflexivity|].
  intros H. apply andb_true_iff in H as [Hk Hr].
  destruct (str_eqb k k0); simpl; [assumption|].
  rewrite IH by assumption.
  apply negb_true_iff in Hk. now rewrite mem_remove_false.
Qed.

Lemma setitem_absent d k v :
  dict_mem d k = false -> dict_setitem d k v = d ++ [(k, v)].
Proof.
  induction d as [|[k0 v0] r IH]; simpl; [reflexivity|].
  intros H. apply orb_false_iff in H as [H0 Hr].
  rewrite H0. now rewrite IH.
Qed.

Lemma length_setitem d k v : length d <= length (dict_setitem d k v).
Proof.
  induction d as [|[k0 v0] r IH]; simpl; [lia|].
  destruct (str_eqb k k0); simpl; lia.
Qed.
End DictFacts.

(** ** The methods as equations on the store *)

Lemma add_item_truthy (item : str) (qty : Z) logs now (s : stock) :
  truthy item = true ->
  add_item item qty logs now s =
    (dict_setitem s item (dict_get s item 0 + qty)%Z,
     if convertible qty
     then Return (match logs with
                  | None => None
                  | Some l => Some (l ++ [log_line now qty item])
                  end)
     else Raise ValueError).
Proof.
  intros Ht. unfold add_item. rewrite Ht. cbn [negb].
  unfold bind, get_state, put_state, lift, ret, format_log_line, str_of_int,
    and_then.
  destruct (convertible qty); [|reflexivity].
  destruct logs; reflexivity.
Qed.

Lemma remove_item_found (item : str) (qty v : Z) (s : stock) :
  dict_lookup s item = Some v ->
  remove_item item qty s =
    (if (v - qty <=? 0)%Z then dict_remove s item
     else dict_setitem s item (v - qty)%Z,
     Return tt).
Proof.
  intros Hl.
  unfold remove_item, try_except_KeyError, bind, get_state, put_state, lift, ret.
  unfold dict_getitem. rewrite Hl, lookup_setitem_same.
  destruct (v - qty <=? 0)%Z; [|reflexivity].
  unfold dict_delitem.
  rewrite mem_setitem, str_eqb_refl. simpl.
  now rewrite (remove_setitem _ _ _ Hl).
Qed.

Lemma remove_item_missing (item : str) (qty : Z) (s : stock) :
  dict_lookup s item = None -> remove_item item qty s = (s, Return tt).
Proof.
  intros Hl.
  unfold remove_item, try_except_KeyError, bind, get_state, lift, ret.
  unfold dict_getitem. now rewrite Hl.
Qed.

Lemma get_qty_eq (item : str) (s : stock) :
  get_qty item s =
    (s, match dict_lookup s item with
        | Some v => Return v
        | None => Raise (KeyError item)
        end).
Proof. reflexivity. Qed.

Lemma run_call_keeps_absent (c : call) (item : str) (s : stock) :
  call_adds item c = false ->
  dict_lookup s item = None ->
  dict_lookup (run_call c s) item = None.
Proof.
  destruct c as [item' qty logs now | item' qty]; simpl; intros Hc Hl.
  - apply str_eqb_neq in Hc.
    destruct (truthy item') eqn:Ht.
    + rewrite add_item_truthy by assumption. simpl.
      now rewrite lookup_setitem_other.
    + unfold add_item. now rewrite Ht.
  - destruct (dict_lookup s item') as [v|] eqn:Hl'.
    + rewrite (remove_item_found _ _ _ Hl'). simpl.
      assert (item <> item') by congruence.
      destruct (v - qty <=? 0)%Z.
      * now rewrite lookup_remove_other.
      * now rewrite lookup_setitem_other.
    + now rewrite remove_item_missing.
Qed.

Lemma run_calls_keep_absent (cs : list call) (item : str) (s : stock) :
  forallb (fun c => negb (call_adds item c)) cs = true ->
  dict_lookup s item = None ->
  dict_lookup (run_calls cs s) item = None.
Proof.
  revert s. induction cs as [|c cs IH]; simpl; intros s Hcs Hl; [assumption|].
  apply andb_true_iff in Hcs as [Hc Hcs].
  apply negb_true_iff in Hc.
  apply IH; [assumption|]. now apply run_call_keeps_absent.
Qed.

Lemma low_items_filter (s : stock) (t : Z) :
  unique_keys s = true ->
  low_items s t = filter (below s t) (dict_keys s).
Proof.
  unfold below.
  induction s as [|[k q] r IH]; simpl; [reflexivity|].
  intros H. apply andb_true_iff in H as [Hk Hr].
  apply negb_true_iff in Hk.
  rewrite str_eqb_refl.
  assert (E : filter (fun item => match (if str_eqb item k then Some q
                                         else dict_lookup r item) with
                                  | Some q0 => (q0 <? t)%Z
                                  | None => false
                                  end) (dict_keys r)
              = filter (fun item => match dict_lookup r item with
                                    | Some q0 => (q0 <? t)%Z
                                    | None => false
                                    end) (dict_keys r)).
  { apply filter_ext_in. intros a Ha.
    destruct (str_eqb a k) eqn:E; [|reflexivity].
    apply str_eqb_eq in E. subst a.
    exfalso. clear - Hk Ha.
    induction r as [|[k0 v0] r IH]; simpl in *; [assumption|].
    apply orb_false_iff in Hk as [H0 Hk].
    destruct Ha as [->|Ha]; [now rewrite str_eqb_refl in H0 | auto]. }
  rewrite E, <- IH by assumption.
  destruct (q <? t)%Z; reflexivity.
Qed.

Lemma In_keys_lookup (s : stock) (item : str) :
  In item (dict_keys s) <-> exists q, dict_lookup s item = Some q.
Proof.
  induction s as [|[k q] r IH]; simpl.
  - split; [tauto | intros [q H]; discriminate].
  - destruct (str_eqb item k) eqn:E.
    + apply str_eqb_eq in E. subst. split; [eauto | auto].
    + apply str_eqb_neq in E. rewrite <- IH. split; [intros [H|H]|]; auto.
      congruence.
Qed.

(** ** Integers in decimal *)

Lemma divmod_facts (n k : N) :
  k <> 0%N ->
  exists q m, (n / k = q /\ n mod k = m /\ n = k * q + m /\ m < k)%N.
Proof.
  intros Hk. exists (n / k)%N, (n mod k)%N. repeat split.
  - now apply N.div_mod.
  - now apply N.mod_upper_bound.
Qed.

Lemma pow2_succ (f : nat) : (2 ^ N.of_nat (S f) = 2 * 2 ^ N.of_nat f)%N.
Proof. rewrite Nat2N.inj_succ, N.pow_succ_r'. reflexivity. Qed.

Lemma digits_loop_value (fuel : nat) : forall (n : N) (acc : str),
  (n < 2 ^ N.of_nat fuel)%N ->
  fold_left (fun a d => (10 * a + (d - 48))%N) (digits_loop fuel n acc) 0%N
  = fold_left (fun a d => (10 * a + (d - 48))%N) acc n.
Proof.
  induction fuel as [|f IH]; intros n acc Hn.
  - simpl in *. assert (n = 0%N) by lia. now subst.
  - cbn [digits_loop]. rewrite pow2_succ in Hn.
    destruct (@divmod_facts n 10) as (q & m & -> & -> & Hq & Hm); [discriminate|].
    destruct (N.eqb_spec q 0) as [E|E].
    + cbn [fold_left]. f_equal. lia.
    + rewrite IH by lia. cbn [fold_left]. f_equal. lia.
Qed.

Lemma digits_loop_shape (fuel : nat) : forall (n : N) (acc : str),
  (0 < n < 2 ^ N.of_nat fuel)%N ->
  exists d ds, digits_loop fuel n acc = d :: ds ++ acc /\
               (49 <= d <= 57)%N /\ forallb is_digit ds = true.
Proof.
  induction fuel as [|f IH]; intros n acc Hn.
  - simpl in Hn. lia.
  - cbn [digits_loop]. rewrite pow2_succ in Hn.
    destruct (@divmod_facts n 10) as (q & m & -> & -> & Hq & Hm); [discriminate|].
    destruct (N.eqb_spec q 0) as [E|E].
    + exists (48 + m)%N, []. split; [reflexivity|]. split; [lia | reflexivity].
    + destruct (IH q ((48 + m)%N :: acc)) as (d & ds & Hd & Hr & Hds); [lia|].
      exists d, (ds ++ [(48 + m)%N]). split; [|split; [assumption|]].
      * rewrite Hd, <- app_assoc. reflexivity.
      * assert (Hm' : is_digit (48 + m)%N = true).
        { unfold is_digit. apply andb_true_iff. split; apply N.leb_le; lia. }
        rewrite forallb_app, Hds. cbn [forallb]. now rewrite Hm'.
Qed.

Lemma log2_fuel (n : N) : (n < 2 ^ N.of_nat (S (N.to_nat (N.log2 n))))%N.
Proof.
  rewrite Nat2N.inj_succ, N2Nat.id.
  destruct n as [|p]; [reflexivity|].
  apply N.log2_spec. reflexivity.
Qed.

Lemma nat_digits_value (n : N) : digits_value (nat_digits n) = n.
Proof.
  unfold digits_value, nat_digits.
  rewrite digits_loop_value by apply log2_fuel. reflexivity.
Qed.

Lemma nat_digits_shape (n : N) :
  nat_digits n = [48%N] /\ n = 0%N \/
  exists d ds, nat_digits n = d :: ds /\ (49 <= d <= 57)%N /\
               forallb is_digit ds = true.
Proof.
  destruct (N.eq_dec n 0) as [->|Hn]; [left; split; reflexivity|].
  right. unfold nat_digits.
  destruct (@digits_loop_shape (S (N.to_nat (N.log2 n))) n [])
    as (d & ds & H & Hd & Hds).
  { split; [lia | apply log2_fuel]. }
  exists d, ds. rewrite app_nil_r in H. auto.
Qed.

Lemma take_digits_app (ds : str) (c : codepoint) (rest : str) :
  forallb is_digit ds = true -> is_digit c = false ->
  take_digits (ds ++ c :: rest) = (ds, c :: rest).
Proof.
  intros Hds Hc. induction ds as [|d ds IH]; simpl.
  - now rewrite Hc.
  - simpl in Hds. apply andb_true_iff in Hds as [Hd Hds].
    now rewrite Hd, IH.
Qed.

Lemma digit_tests (d : codepoint) :
  (49 <= d <= 57)%N ->
  is_char d "0" = false /\ is_char d "-" = false /\ is_digit d = true.
Proof.
  intros Hd. unfold is_char, is_digit. repeat split.
  - apply N.eqb_neq. change (ord "0") with 48%N. lia.
  - apply N.eqb_neq. change (ord "-") with 45%N. lia.
  - apply andb_true_iff. split; apply N.leb_le; lia.
Qed.

Lemma match_integer_digits (n : N) (c : codepoint) (rest : str) :
  is_digit c = false ->
  match_integer (nat_digits n ++ c :: rest) = Some (nat_digits n, c :: rest) /\
  match_integer (ord "-" :: nat_digits n ++ c :: rest)
    = Some (ord "-" :: nat_digits n, c :: rest).
Proof.
  intros Hc. unfold match_integer.
  destruct (nat_digits_shape n) as [[E _]|(d & ds & E & Hd & Hds)]; rewrite E.
  - split; reflexivity.
  - destruct (digit_tests Hd) as (H0 & Hm & Hdig).
    cbn [app match_sign]. change (is_char (ord "-") "-") with true.
    rewrite Hm. cbv beta iota. rewrite H0, Hdig.
    rewrite take_digits_app by assumption. split; reflexivity.
Qed.

Lemma int_of_literal_digits (n : N) :
  int_of_literal (nat_digits n) = Z.of_N n /\
  int_of_literal (ord "-" :: nat_digits n) = (- Z.of_N n)%Z.
Proof.
  split.
  - rewrite <- (nat_digits_value n) at 2.
    destruct (nat_digits_shape n) as [[E _]|(d & ds & E & Hd & Hds)]; rewrite E;
      [reflexivity|].
    destruct (digit_tests Hd) as (_ & Hm & _).
    cbn [int_of_literal]. now rewrite Hm.
  - cbn [int_of_literal]. change (is_char (ord "-") "-") with true.
    cbv beta iota. now rewrite nat_digits_value.
Qed.

Lemma literal_digits_digits (n : N) :
  literal_digits (nat_digits n) = length (nat_digits n) /\
  literal_digits (ord "-" :: nat_digits n) = length (nat_digits n).
Proof.
  split; [|reflexivity].
  destruct (nat_digits_shape n) as [[E _]|(d & ds & E & Hd & Hds)]; rewrite E;
    [reflexivity|].
  destruct (digit_tests Hd) as (_ & Hm & _).
  cbn [literal_digits]. now rewrite Hm.
Qed.

Lemma match_number_int_repr (limit : nat) (z : Z) (c : codepoint) (rest : str) :
  closes_value c ->
  too_many_digits limit (digits_of z) = false ->
  match_number limit (int_repr z ++ c :: rest) = Some (Return (PInt z), c :: rest).
Proof.
  intros Hc Hlim. unfold digits_of in Hlim.
  destruct (literal_digits_digits (Z.abs_N z)) as [Lpos Lneg].
  assert (Hdig : is_digit c = false) by (destruct Hc; subst; reflexivity).
  assert (Hfrac : match_frac (c :: rest) = ([], c :: rest))
    by (destruct Hc; subst; reflexivity).
  assert (Hexp : match_exp (c :: rest) = ([], c :: rest))
    by (destruct Hc; subst; reflexivity).
  destruct (@match_integer_digits (Z.abs_N z) c rest Hdig) as [Hpos Hneg].
  destruct (int_of_literal_digits (Z.abs_N z)) as [Vpos Vneg].
  unfold match_number, int_repr.
  destruct (Z.ltb_spec z 0) as [Hz|Hz].
  - cbn [app]. rewrite Hneg, Hfrac, Hexp. unfold int_of_str.
    rewrite Lneg, Hlim, Vneg. do 4 f_equal. lia.
  - rewrite Hpos, Hfrac, Hexp. unfold int_of_str.
    rewrite Lpos, Hlim, Vpos. do 4 f_equal. lia.
Qed.

(** ** Strings through the encoder and the decoder *)

Lemma hex_val_digit (x : N) : (x < 16)%N -> hex_val (hex_digit x) = Some x.
Proof.
  intros Hx. unfold hex_digit, hex_val.
  destruct (N.ltb_spec x 10).
  - replace ((48 <=? 48 + x) && (48 + x <=? 57))%N with true.
    + f_equal. lia.
    + symmetry. apply andb_true_iff. split; apply N.leb_le; lia.
  - replace ((48 <=? 87 + x) && (87 + x <=? 57))%N with false.
    + replace ((97 <=? 87 + x) && (87 + x <=? 102))%N with true.
      * f_equal. lia.
      * symmetry. apply andb_true_iff. split; apply N.leb_le; lia.
    + symmetry. apply andb_false_iff. right. apply N.leb_gt. lia.
Qed.

Lemma hex4_val_hex4 (c : N) :
  (c < 65536)%N ->
  hex4_val (hex_digit (c / 4096 mod 16)) (hex_digit (c / 256 mod 16))
           (hex_digit (c / 16 mod 16)) (hex_digit (c mod 16)) = Some c.
Proof.
  intros Hc. unfold hex4_val.
  rewrite !hex_val_digit by (apply N.mod_upper_bound; discriminate).
  f_equal.
  destruct (@divmod_facts c 4096) as (q1 & m1 & -> & _ & E1 & B1); [discriminate|].
  destruct (@divmod_facts c 256) as (q2 & m2 & -> & _ & E2 & B2); [discriminate|].
  destruct (@divmod_facts c 16) as (q3 & m3 & -> & -> & E3 & B3); [discriminate|].
  destruct (@divmod_facts q1 16) as (qa & a & _ & -> & Ea & Ba); [discriminate|].
  destruct (@divmod_facts q2 16) as (qb & b & _ & -> & Eb & Bb); [discriminate|].
  destruct (@divmod_facts q3 16) as (qc & c' & _ & -> & Ec & Bc); [discriminate|].
  lia.
Qed.

Lemma lor_add (a b : N) : (b < 1024)%N -> N.lor (a * 1024) b = (a * 1024 + b)%N.
Proof.
  intros Hb.
  assert (Hl : N.land (a * 1024) b = 0%N).
  { apply N.bits_inj. intros i. rewrite N.land_spec, N.bits_0.
    change 1024%N with (2 ^ 10)%N. rewrite <- N.shiftl_mul_pow2.
    destruct (N.ltb_spec i 10) as [Hi|Hi].
    - now rewrite N.shiftl_spec_low.
    - destruct (N.eq_dec b 0) as [->|Hb0].
      + rewrite N.bits_0. apply andb_false_r.
      + rewrite (N.bits_above_log2 b i), andb_false_r; [reflexivity|].
        apply N.lt_le_trans with 10%N; [|assumption].
        apply N.log2_lt_pow2; [lia | exact Hb]. }
  rewrite <- N.lxor_lor by assumption. symmetry. now apply N.add_nocarry_lxor.
Qed.

Lemma surrogates_of (c : N) :
  (65536 <= c < 1114112)%N ->
  let n := (c - 65536)%N in
  let hi := N.lor 55296 (N.land (N.shiftr n 10) 1023) in
  let lo := N.lor 56320 (N.land n 1023) in
  (hi < 65536)%N /\ (lo < 65536)%N /\
  is_high_surrogate hi = true /\ is_low_surrogate lo = true /\
  is_low_surrogate hi = false /\
  join_surrogates hi lo = c.
Proof.
  intros Hc n hi lo.
  destruct (@divmod_facts n 1024) as (q & m & Eq & Em & E & B); [discriminate|].
  assert (Hq : (q < 1024)%N) by (subst n; lia).
  assert (Ehi : hi = (55296 + q)%N).
  { subst hi. change 1023%N with (N.ones 10).
    rewrite N.land_ones, N.shiftr_div_pow2. change (2 ^ 10)%N with 1024%N.
    rewrite Eq, N.mod_small by assumption.
    change 55296%N with (54 * 1024)%N. now rewrite lor_add. }
  assert (Elo : lo = (56320 + m)%N).
  { subst lo. change 1023%N with (N.ones 10).
    rewrite N.land_ones. change (2 ^ 10)%N with 1024%N. rewrite Em.
    change 56320%N with (55 * 1024)%N. now rewrite lor_add. }
  rewrite Ehi, Elo. unfold is_high_surrogate, is_low_surrogate, join_surrogates.
  repeat split; try lia.
  - apply andb_true_iff. split; apply N.leb_le; lia.
  - apply andb_true_iff. split; apply N.leb_le; lia.
  - apply andb_false_iff. left. apply N.leb_gt. lia.
  - replace (55296 + q - 55296)%N with q by lia.
    replace (56320 + m - 56320)%N with m by lia.
    rewrite N.shiftl_mul_pow2. change (2 ^ 10)%N with 1024%N.
    rewrite lor_add by assumption. subst n. lia.
Qed.

Lemma scanstring_u_single (h1 h2 h3 h4 : codepoint) (uni : N) (r2 : str) :
  hex4_val h1 h2 h3 h4 = Some uni ->
  (is_high_surrogate uni = true -> no_low_follows r2) ->
  scanstring (BACKSLASH :: ord "u" :: h1 :: h2 :: h3 :: h4 :: r2)
  = cons_char uni (scanstring r2).
Proof.
  intros Hh Hnl. cbn [scanstring].
  change (N.eqb BACKSLASH QUOTE) with false.
  change (N.eqb BACKSLASH BACKSLASH) with true.
  change (is_char (ord "u") "u") with true. cbv beta iota.
  rewrite Hh.
  destruct (is_high_surrogate uni); [|reflexivity].
  specialize (Hnl eq_refl).
  destruct r2 as [|b [|u [|g1 [|g2 [|g3 [|g4 r3]]]]]]; try reflexivity.
  destruct (N.eqb_spec b BACKSLASH) as [->|]; [|reflexivity].
  unfold is_char.
  destruct (N.eqb_spec u (ord "u")) as [->|]; [|reflexivity].
  cbn [andb].
  destruct (Hnl g1 g2 g3 g4 r3 eq_refl) as (uni2 & -> & ->). reflexivity.
Qed.

Lemma scanstring_u_pair (h1 h2 h3 h4 g1 g2 g3 g4 : codepoint) (hi lo : N) (r3 : str) :
  hex4_val h1 h2 h3 h4 = Some hi -> is_high_surrogate hi = true ->
  hex4_val g1 g2 g3 g4 = Some lo -> is_low_surrogate lo = true ->
  scanstring (BACKSLASH :: ord "u" :: h1 :: h2 :: h3 :: h4 ::
              BACKSLASH :: ord "u" :: g1 :: g2 :: g3 :: g4 :: r3)
  = cons_char (join_surrogates hi lo) (scanstring r3).
Proof.
  intros Hh Hhi Hg Hlo. cbn [scanstring].
  change (N.eqb BACKSLASH QUOTE) with false.
  change (N.eqb BACKSLASH BACKSLASH) with true.
  change (is_char (ord "u") "u") with true. cbv beta iota.
  rewrite Hh, Hhi. cbn [andb]. now rewrite Hg, Hlo.
Qed.

Lemma scanstring_backslash (e ch : codepoint) (r : str) :
  is_char e "u" = false -> backslash e = Some ch ->
  scanstring (BACKSLASH :: e :: r) = cons_char ch (scanstring r).
Proof.
  intros Hu Hb. cbn [scanstring].
  change (N.eqb BACKSLASH QUOTE) with false.
  change (N.eqb BACKSLASH BACKSLASH) with true. cbv beta iota.
  now rewrite Hu, Hb.
Qed.

Lemma scanstring_plain (c : codepoint) (r : str) :
  N.eqb c QUOTE = false -> N.eqb c BACKSLASH = false -> (32 <= c)%N ->
  scanstring (c :: r) = cons_char c (scanstring r).
Proof.
  intros Hq Hb Hc. cbn [scanstring]. rewrite Hq, Hb.
  replace (c <? 32)%N with false; [reflexivity|].
  symmetry. apply N.ltb_ge. assumption.
Qed.

Lemma escape_char_kind (c : codepoint) : escape_kind c.
Proof.
  unfold escape_char.
  destruct (N.eqb_spec c BACKSLASH) as [->|H1];
    [now apply Short with BACKSLASH|].
  destruct (N.eqb_spec c QUOTE) as [->|H2]; [now apply Short with QUOTE|].
  destruct (N.eqb_spec c 8) as [->|H3]; [now apply Short with (ord "b")|].
  destruct (N.eqb_spec c 12) as [->|H4]; [now apply Short with (ord "f")|].
  destruct (N.eqb_spec c 10) as [->|H5]; [now apply Short with (ord "n")|].
  destruct (N.eqb_spec c 13) as [->|H6]; [now apply Short with (ord "r")|].
  destruct (N.eqb_spec c 9) as [->|H7]; [now apply Short with (ord "t")|].
  assert (He : escape_char c =
               if (32 <=? c)%N && (c <=? 126)%N then [c]
               else if (c <? 65536)%N then u_escape c
               else u_escape (N.lor 55296 (N.land (N.shiftr (c - 65536) 10) 1023))
                    ++ u_escape (N.lor 56320 (N.land (c - 65536) 1023))).
  { unfold escape_char.
    apply N.eqb_neq in H1, H2, H3, H4, H5, H6, H7.
    now rewrite H1, H2, H3, H4, H5, H6, H7. }
  destruct ((32 <=? c)%N && (c <=? 126)%N) eqn:Hp.
  - apply andb_true_iff in Hp as [Hlo Hhi]. apply N.leb_le in Hlo.
    apply Plain; try assumption; now apply N.eqb_neq.
  - destruct (N.ltb_spec c 65536).
    + now apply Unicode.
    + now apply Astral.
Qed.

Lemma quote_no_low (rest : str) : no_low_follows (QUOTE :: rest).
Proof. intros g1 g2 g3 g4 r3 H. discriminate. Qed.

Lemma u_escape_inj (n : N) (g1 g2 g3 g4 : codepoint) (r r3 : str) :
  u_escape n ++ r = BACKSLASH :: ord "u" :: g1 :: g2 :: g3 :: g4 :: r3 ->
  g1 = hex_digit (n / 4096 mod 16) /\ g2 = hex_digit (n / 256 mod 16) /\
  g3 = hex_digit (n / 16 mod 16) /\ g4 = hex_digit (n mod 16).
Proof.
  unfold u_escape, hex4. cbn [app]. intros E.
  injection E as <- <- <- <- _. auto.
Qed.

Lemma escape_no_low (d : codepoint) (tail : str) :
  valid_codepoint d = true -> is_low_surrogate d = false ->
  no_low_follows (escape_char d ++ tail).
Proof.
  intros Hv Hd g1 g2 g3 g4 r3 E.
  apply N.ltb_lt in Hv.
  destruct (escape_char_kind d) as [e He Hu Hb | He Hq Hb Hc | He Hc | He Hc];
    rewrite He in E.
  - injection E as E _. subst e. discriminate.
  - injection E as E _. subst d. discriminate.
  - apply u_escape_inj in E as (-> & -> & -> & ->).
    exists d. split; [now apply hex4_val_hex4 | assumption].
  - destruct (@surrogates_of d) as (Hhi & _ & _ & _ & Hnl & _); [lia|].
    cbv zeta in Hhi, Hnl.
    generalize dependent (N.lor 55296 (N.land (N.shiftr (d - 65536) 10) 1023)).
    intros hi E Hhi Hnl.
    rewrite <- app_assoc in E.
    apply u_escape_inj in E as (-> & -> & -> & ->).
    exists hi. split; [now apply hex4_val_hex4 | assumption].
Qed.

Lemma scanstring_escape_char (c : codepoint) (tail : str) :
  valid_codepoint c = true ->
  (is_high_surrogate c = true -> no_low_follows tail) ->
  scanstring (escape_char c ++ tail) = cons_char c (scanstring tail).
Proof.
  intros Hv Hnl. apply N.ltb_lt in Hv.
  destruct (escape_char_kind c) as [e He Hu Hb | He Hq Hb Hc | He Hc | He Hc];
    rewrite He.
  - now apply scanstring_backslash.
  - now apply scanstring_plain.
  - apply scanstring_u_single; [now apply hex4_val_hex4 | assumption].
  - destruct (@surrogates_of c) as (Hhi & Hlo & Hh & Hl & _ & Hj); [lia|].
    rewrite <- Hj at 3.
    unfold u_escape, hex4. cbn [app].
    apply scanstring_u_pair; try assumption; now apply hex4_val_hex4.
Qed.

Lemma scanstring_escaped (k rest : str) :
  plain_key k = true ->
  scanstring (flat_map escape_char k ++ QUOTE :: rest) = Return (k, rest).
Proof.
  unfold plain_key. intros H. apply andb_true_iff in H as [Hv Hs].
  induction k as [|c k IH].
  - cbn [flat_map app scanstring]. change (N.eqb QUOTE QUOTE) with true. reflexivity.
  - cbn [valid_str forallb] in Hv. apply andb_true_iff in Hv as [Hc Hv].
    cbn [no_surrogate_pair] in Hs. apply andb_true_iff in Hs as [Hp Hs].
    cbn [flat_map]. rewrite <- app_assoc.
    rewrite scanstring_escape_char; [now rewrite IH | assumption |].
    intros Hh. destruct k as [|d k'].
    + apply quote_no_low.
    + cbn [flat_map]. rewrite <- app_assoc.
      cbn [forallb] in Hv. apply andb_true_iff in Hv as [Hd _].
      apply escape_no_low; [assumption|].
      rewrite Hh in Hp. cbn [andb] in Hp. now apply negb_true_iff in Hp.
Qed.

(** ** Dicts through the encoder and the decoder *)

Lemma int_repr_head (z : Z) :
  exists d ds, int_repr z = d :: ds /\ (d = 45 \/ 48 <= d <= 57)%N.
Proof.
  unfold int_repr. destruct (z <? 0)%Z.
  - exists (ord "-"), (nat_digits (Z.abs_N z)). split; [reflexivity | now left].
  - destruct (nat_digits_shape (Z.abs_N z)) as [[E _]|(d & ds & E & Hd & _)];
      rewrite E.
    + exists 48%N, []. split; [reflexivity | right; lia].
    + exists d, ds. split; [reflexivity | right; lia].
Qed.

Lemma head_tests (d : codepoint) :
  (d = 45 \/ 48 <= d <= 57)%N ->
  is_ws d = false /\ N.eqb d QUOTE = false /\
  is_char d "{" = false /\ is_char d "[" = false /\
  is_char d "n" = false /\ is_char d "t" = false /\ is_char d "f" = false.
Proof.
  intros Hd. unfold is_ws, is_char.
  change QUOTE with 34%N. change (ord " ") with 32%N.
  change (ord "{") with 123%N. change (ord "[") with 91%N.
  change (ord "n") with 110%N. change (ord "t") with 116%N.
  change (ord "f") with 102%N.
  repeat split; repeat (apply orb_false_iff; split); apply N.eqb_neq; lia.
Qed.

Lemma skip_ws_int_repr (z : Z) (r : str) :
  skip_ws (int_repr z ++ r) = int_repr z ++ r.
Proof.
  destruct (int_repr_head z) as (d & ds & -> & Hd).
  destruct (head_tests Hd) as (Hw & _).
  cbn [app skip_ws]. now rewrite Hw.
Qed.

Lemma scan_value_int (limit fuel room : nat) (z : Z) (c : codepoint) (rest : str) :
  1 <= fuel -> closes_value c ->
  too_many_digits limit (digits_of z) = false ->
  scan limit fuel room Value (int_repr z ++ c :: rest) = Scanned (PInt z) (c :: rest).
Proof.
  intros Hfuel Hc Hlim. destruct fuel as [|fuel]; [lia|].
  pose proof (@match_number_int_repr limit z c rest Hc Hlim) as Hn.
  destruct (int_repr_head z) as (d & ds & E & Hd).
  rewrite E in *.
  destruct (head_tests Hd) as (_ & Hq & Hb & Hk & Hn' & Ht & Hf).
  cbn [scan app]. unfold scan_once. rewrite Hq, Hb, Hk.
  unfold scan_atom. cbn [lit strip_prefix app].
  unfold is_char in Hn', Ht, Hf.
  rewrite (N.eqb_sym (ord "n") d), Hn', (N.eqb_sym (ord "t") d), Ht,
          (N.eqb_sym (ord "f") d), Hf.
  cbn [app] in Hn. now rewrite Hn.
Qed.

Lemma scan_members_encoded (limit room : nat) (items : list (str * Z)) :
  forall (k : str) (v : Z) (pairs : list (str * pyval)) (fuel : nat) (tail : str),
    length items + 2 <= fuel ->
    plain_key k = true ->
    forallb plain_key (dict_keys items) = true ->
    too_many_digits limit (digits_of v) = false ->
    forallb (fun kv => negb (too_many_digits limit (digits_of (snd kv)))) items = true ->
    scan limit fuel room (Members pairs)
         (flat_map escape_char k ++ QUOTE :: lit ": " ++ int_repr v
          ++ iterencode_items false items ++ ord "}" :: tail)
    = Scanned (PDict (dict_of_pairs (pairs ++ map py_item ((k, v) :: items)))) tail.
Proof.
  induction items as [|[k2 v2] items IH];
    intros k v pairs fuel tail Hf Hk Hks Hv Hvs;
    cbn [length] in Hf; (destruct fuel as [|fuel]; [lia|]);
    cbn [scan]; unfold scan_members; rewrite scanstring_escaped by assumption;
    punct; rewrite skip_ws_int_repr.
  - rewrite scan_value_int by (lia || assumption || now right). punct. reflexivity.
  - rewrite scan_value_int by (lia || assumption || now left). punct.
    unfold encode_basestring_ascii.
    cbn [dict_keys map fst forallb] in Hks.
    apply andb_true_iff in Hks as [Hk2 Hks].
    cbn [forallb snd] in Hvs. apply andb_true_iff in Hvs as [Hv2 Hvs].
    apply negb_true_iff in Hv2.
    repeat first [progress punct | rewrite <- app_assoc].
    etransitivity; [apply IH; (assumption || lia)|].
    cbn [map]. now rewrite <- app_assoc.
Qed.

Lemma dict_mem_app (V : Type) (a b : dict V) (k : str) :
  dict_mem (a ++ b) k = dict_mem a k || dict_mem b k.
Proof.
  induction a as [|[k0 v0] a IH]; simpl; [reflexivity|].
  now rewrite IH, orb_assoc.
Qed.

Lemma unique_keys_middle (V : Type) (a b : dict V) (k : str) (v : V) :
  unique_keys (a ++ (k, v) :: b) = true -> dict_mem a k = false.
Proof.
  induction a as [|[k0 v0] a IH]; simpl; [reflexivity|].
  intros H. apply andb_true_iff in H as [H0 H].
  apply negb_true_iff in H0. rewrite dict_mem_app in H0.
  apply orb_false_iff in H0 as [_ H0]. simpl in H0.
  apply orb_false_iff in H0 as [H0 _].
  rewrite str_eqb_sym, H0. simpl. auto.
Qed.

Lemma fold_setitem_fresh (V : Type) (items acc : dict V) :
  unique_keys (acc ++ items) = true ->
  fold_left (fun d kv => dict_setitem d (fst kv) (snd kv)) items acc = acc ++ items.
Proof.
  revert acc. induction items as [|[k v] items IH]; intros acc Hu; simpl.
  - now rewrite app_nil_r.
  - rewrite setitem_absent by (eapply unique_keys_middle; eassumption).
    rewrite IH; rewrite <- app_assoc; [reflexivity | assumption].
Qed.

Lemma dict_of_pairs_unique (V : Type) (d : dict V) :
  unique_keys d = true -> dict_of_pairs d = d.
Proof. intros H. unfold dict_of_pairs. now rewrite fold_setitem_fresh. Qed.

Lemma dict_mem_py (s : stock) (k : str) :
  dict_mem (map py_item s) k = dict_mem s k.
Proof.
  induction s as [|[k0 v0] s IH]; simpl; [reflexivity|]. now rewrite IH.
Qed.

Lemma unique_keys_py (s : stock) :
  unique_keys (map py_item s) = unique_keys s.
Proof.
  induction s as [|[k0 v0] s IH]; simpl; [reflexivity|].
  now rewrite dict_mem_py, IH.
Qed.

Lemma length_iterencode (first : bool) (items : list (str * Z)) :
  length items <= length (iterencode_items first items).
Proof.
  revert first. induction items as [|[k v] items IH]; intros first;
    cbn [iterencode_items length]; [lia|].
  unfold encode_basestring_ascii.
  rewrite !length_app. cbn [length]. specialize (IH false). lia.
Qed.

(** [json.loads(json.dumps(d))] gives back [d], for a dict [d] whose keys are
    valid strings without a high surrogate directly before a low one. *)
Lemma scan_dumps (limit room : nat) (s : stock) :
  unique_keys s = true ->
  forallb plain_key (dict_keys s) = true ->
  forallb (fun kv => negb (too_many_digits limit (digits_of (snd kv)))) s = true ->
  scan limit (scan_fuel (json_dumps s)) (S room) Value (json_dumps s)
  = Scanned (of_stock s) [].
Proof.
  intros Hu Hk Hd. destruct s as [|[k v] items]; [reflexivity|].
  unfold json_dumps, dict_items.
  cbn [iterencode_items]. unfold encode_basestring_ascii.
  repeat first [progress punct | rewrite <- app_assoc].
  unfold scan_fuel. rewrite Nat.add_1_r. cbn [scan]. unfold scan_once.
  change (N.eqb (ord "{") QUOTE) with false.
  change (is_char (ord "{") "{") with true. punct.
  change (is_char QUOTE "}") with false. punct.
  cbn [dict_keys map fst forallb] in Hk. apply andb_true_iff in Hk as [Hk Hks].
  cbn [forallb snd] in Hd. apply andb_true_iff in Hd as [Hv Hvs].
  apply negb_true_iff in Hv.
  change [ord "}"] with (ord "}" :: []).
  etransitivity.
  - apply scan_members_encoded; try assumption.
    pose proof (length_iterencode false items).
    repeat first [rewrite length_app | progress cbn [length]]. lia.
  - unfold of_stock. cbn [app]. f_equal. f_equal.
    apply (@dict_of_pairs_unique pyval (map py_item ((k, v) :: items))).
    now rewrite unique_keys_py.
Qed.

Lemma json_dumps_head (s : stock) : skip_ws (json_dumps s) = json_dumps s.
Proof. destruct s; reflexivity. Qed.

Lemma room_succ `{Interpreter} : exists room, recursion_room = S room.
Proof.
  pose proof recursion_room_pos as Hp.
  destruct recursion_room as [|room]; [lia | now exists room].
Qed.

(** [json.loads(json.dumps(d))] gives back [d], for a dict [d] whose keys are
    valid strings without a high surrogate directly before a low one and
    whose quantities the interpreter converts. *)
Lemma loads_dumps `{Interpreter} (s : stock) :
  unique_keys s = true ->
  forallb plain_key (dict_keys s) = true ->
  all_convertible s = true ->
  json_loads (json_dumps s) = Return (of_stock s).
Proof.
  intros Hu Hk Hd. unfold json_loads. rewrite json_dumps_head.
  destruct room_succ as [room ->].
  now rewrite scan_dumps.
Qed.

(** ** The scanner never lacks fuel *)

Lemma skip_ws_length (s : str) : length (skip_ws s) <= length s.
Proof.
  induction s as [|c r IH]; simpl; [lia|]. destruct (is_ws c); simpl; lia.
Qed.

Lemma skip_ws_cons (s : str) (c : codepoint) (r : str) :
  skip_ws s = c :: r -> length r < length s.
Proof.
  intros H. pose proof (skip_ws_length s) as L. rewrite H in L. simpl in L. lia.
Qed.

Lemma cons_char_inv (c : codepoint) (o : outcome (str * str)) (k r : str) :
  cons_char c o = Return (k, r) -> exists k', o = Return (k', r).
Proof.
  destruct o as [[k' r']|e]; simpl; intros H; [|discriminate].
  injection H as _ <-. eauto.
Qed.

Lemma scanstring_length_upto (n : nat) : forall s k r,
  length s <= n -> scanstring s = Return (k, r) -> length r < length s.
Proof.
  induction n as [|n IH]; intros s k r Hn H.
  - destruct s; [discriminate | simpl in Hn; lia].
  - destruct s as [|c r0]; [discriminate|].
    cbn [scanstring] in H. cbn [length] in *.
    break_match H; try discriminate; subst; cbn [length] in *;
      try (injection H as <- <-; lia);
      apply cons_char_inv in H as [k' H]; apply IH in H; cbn [length] in *; lia.
Qed.

Lemma scanstring_length (s k r : str) :
  scanstring s = Return (k, r) -> length r < length s.
Proof. apply scanstring_length_upto with (length s). lia. Qed.

Lemma take_digits_length (s : str) : length (snd (take_digits s)) <= length s.
Proof.
  induction s as [|c r IH]; simpl; [lia|].
  destruct (is_digit c); [|simpl; lia].
  destruct (take_digits r); simpl in *; lia.
Qed.

Lemma match_integer_length (s l r : str) :
  match_integer s = Some (l, r) -> length r < length s.
Proof.
  unfold match_integer, match_sign. intros H.
  destruct s as [|c s]; [discriminate|].
  destruct (is_char c "-").
  - destruct s as [|d s]; [discriminate|].
    destruct (is_char d "0"); [injection H as _ <-; simpl; lia|].
    destruct (is_digit d); [|discriminate].
    pose proof (take_digits_length s) as L.
    destruct (take_digits s). injection H as _ <-. simpl in *. lia.
  - destruct (is_char c "0"); [injection H as _ <-; simpl; lia|].
    destruct (is_digit c); [|discriminate].
    pose proof (take_digits_length s) as L.
    destruct (take_digits s). injection H as _ <-. simpl in *. lia.
Qed.

Lemma match_frac_length (s : str) : length (snd (match_frac s)) <= length s.
Proof.
  unfold match_frac. destruct s as [|c r]; [simpl; lia|].
  destruct (is_char c "."); [|simpl; lia].
  pose proof (take_digits_length r) as L.
  destruct (take_digits r) as [[|d ds] rest]; simpl in *; lia.
Qed.

Lemma match_exp_length (s : str) : length (snd (match_exp s)) <= length s.
Proof.
  unfold match_exp. destruct s as [|c r]; [simpl; lia|].
  destruct (is_char c "e" || is_char c "E"); [|simpl; lia].
  destruct r as [|g r'].
  - simpl. lia.
  - destruct (is_char g "-" || is_char g "+").
    + pose proof (take_digits_length r') as L.
      destruct (take_digits r') as [[|d ds] rest]; simpl in *; lia.
    + pose proof (take_digits_length (g :: r')) as L.
      destruct (take_digits (g :: r')) as [[|d ds] rest]; simpl in *; lia.
Qed.

Lemma match_number_length (limit : nat) (s : str) (v : outcome pyval) (r : str) :
  match_number limit s = Some (v, r) -> length r < length s.
Proof.
  unfold match_number. intros H.
  destruct (match_integer s) as [[l s1]|] eqn:Hi; [|discriminate].
  apply match_integer_length in Hi.
  pose proof (match_frac_length s1) as Lf.
  destruct (match_frac s1) as [frac s2].
  pose proof (match_exp_length s2) as Le.
  destruct (match_exp s2) as [exp s3]. simpl in *.
  destruct frac, exp; injection H as _ <-; lia.
Qed.

Lemma strip_prefix_length (p s r : str) :
  strip_prefix p s = Some r -> length r + length p = length s.
Proof.
  revert s. induction p as [|a p IH]; intros s H; simpl in *.
  - injection H as <-. lia.
  - destruct s as [|b s]; [discriminate|].
    destruct (N.eqb a b); [|discriminate].
    apply IH in H. simpl. lia.
Qed.

Lemma scan_atom_length (limit : nat) (s : str) (v : pyval) (r : str) :
  scan_atom limit s = Scanned v r -> length r < length s.
Proof.
  unfold scan_atom. intros H.
  repeat match type of H with
         | context [strip_prefix ?p s] =>
             let E := fresh "E" in
             destruct (strip_prefix p s) eqn:E;
             [apply strip_prefix_length in E; injection H as _ <-;
              cbn [lit length] in E; lia|]
         | context [match_number limit s] =>
             let E := fresh "E" in
             destruct (match_number limit s) as [[[v'|e'] r']|] eqn:E;
             [apply match_number_length in E; injection H as _ <-; lia
             |discriminate|]
         end.
  discriminate.
Qed.

Lemma scan_atom_fuel (limit : nat) (s : str) : scan_atom limit s <> OutOfFuel.
Proof.
  unfold scan_atom.
  repeat match goal with
         | |- context [strip_prefix ?p s] => destruct (strip_prefix p s)
         | |- context [match_number limit s] =>
             destruct (match_number limit s) as [[[?|?] ?]|]
         end; discriminate.
Qed.

Lemma scan_once_sound (self : nat -> mode -> str -> scanned) (limit room n : nat)
    (s : str) :
  sound_upto self n -> fuel_needed Value s <= S n ->
  scan_once self limit room s <> OutOfFuel /\
  forall v r, scan_once self limit room s = Scanned v r -> length r < length s.
Proof.
  intros Hself Hn. unfold fuel_needed in Hn. unfold scan_once.
  destruct s as [|c r0]; [stopped|].
  cbn [length] in Hn.
  destruct (N.eqb c QUOTE).
  { destruct (scanstring r0) as [[k rest]|e] eqn:E.
    - apply scanstring_length in E. split; [discriminate|].
      intros v r H. injection H as _ <-. simpl. lia.
    - stopped. }
  destruct (is_char c "{").
  { destruct room as [|room]; [stopped|].
    destruct (skip_ws r0) as [|c1 r1] eqn:E; [stopped|].
    apply skip_ws_cons in E.
    destruct (is_char c1 "}").
    - split; [discriminate|]. intros v r H. injection H as _ <-. simpl. lia.
    - destruct (N.eqb c1 QUOTE); [|stopped].
      destruct (Hself room (Members []) r1) as [H1 H2]; [simpl; lia|].
      split; [assumption|]. intros v r H. apply H2 in H. simpl. lia. }
  destruct (is_char c "[").
  { destruct room as [|room]; [stopped|].
    destruct (skip_ws r0) as [|c1 r1] eqn:E; [stopped|].
    apply skip_ws_cons in E.
    destruct (is_char c1 "]").
    - split; [discriminate|]. intros v r H. injection H as _ <-. simpl. lia.
    - destruct (Hself room (Elements []) (c1 :: r1)) as [H1 H2]; [simpl; lia|].
      split; [assumption|]. intros v r H. apply H2 in H. simpl in *. lia. }
  split; [apply scan_atom_fuel | apply scan_atom_length].
Qed.

Lemma scan_elements_sound (self : nat -> mode -> str -> scanned) (room n : nat)
    (values : list pyval) (s : str) :
  sound_upto self n -> fuel_needed (Elements values) s <= S n ->
  scan_elements self room values s <> OutOfFuel /\
  forall v r, scan_elements self room values s = Scanned v r ->
              length r < length s.
Proof.
  intros Hself Hn. unfold fuel_needed in Hn. unfold scan_elements.
  destruct (Hself room Value s) as [H1 H2]; [simpl; lia|].
  destruct (self room Value s) as [value r0| | | |];
    [|stopped|stopped|stopped|contradiction].
  specialize (H2 _ _ eq_refl).
  destruct (skip_ws r0) as [|c r1] eqn:E; [stopped|].
  apply skip_ws_cons in E.
  destruct (is_char c "]").
  - split; [discriminate|]. intros v r H. injection H as _ <-. lia.
  - destruct (is_char c ","); [|stopped].
    pose proof (skip_ws_length r1) as L.
    destruct (Hself room (Elements (values ++ [value])) (skip_ws r1)) as [H3 H4];
      [simpl; lia|].
    split; [assumption|]. intros v r H. apply H4 in H. lia.
Qed.

Lemma scan_members_sound (self : nat -> mode -> str -> scanned) (room n : nat)
    (pairs : list (str * pyval)) (s : str) :
  sound_upto self n -> fuel_needed (Members pairs) s <= S n ->
  scan_members self room pairs s <> OutOfFuel /\
  forall v r, scan_members self room pairs s = Scanned v r ->
              length r < length s.
Proof.
  intros Hself Hn. unfold fuel_needed in Hn. unfold scan_members.
  destruct (scanstring s) as [[key r0]|e] eqn:Es; [|stopped].
  apply scanstring_length in Es.
  destruct (skip_ws r0) as [|c r1] eqn:E; [stopped|].
  apply skip_ws_cons in E.
  destruct (is_char c ":"); [|stopped].
  pose proof (skip_ws_length r1) as L.
  destruct (Hself room Value (skip_ws r1)) as [H1 H2]; [simpl; lia|].
  destruct (self room Value (skip_ws r1)) as [value r2| | | |];
    [|stopped|stopped|stopped|contradiction].
  specialize (H2 _ _ eq_refl).
  destruct (skip_ws r2) as [|c2 r3] eqn:E2; [stopped|].
  apply skip_ws_cons in E2.
  destruct (is_char c2 "}").
  - split; [discriminate|]. intros v r H. injection H as _ <-. lia.
  - destruct (is_char c2 ","); [|stopped].
    destruct (skip_ws r3) as [|c3 r4] eqn:E3; [stopped|].
    apply skip_ws_cons in E3.
    destruct (N.eqb c3 QUOTE); [|stopped].
    destruct (Hself room (Members (pairs ++ [(key, value)])) r4) as [H3 H4];
      [simpl; lia|].
    split; [assumption|]. intros v r H. apply H4 in H. lia.
Qed.

Lemma scan_sound (limit fuel : nat) : sound_upto (scan limit fuel) fuel.
Proof.
  induction fuel as [|fuel IH]; intros room m s Hn.
  - destruct m; simpl in Hn; lia.
  - cbn [scan]. destruct m as [|values|pairs].
    + now apply scan_once_sound with fuel.
    + now apply scan_elements_sound with fuel.
    + now apply scan_members_sound with fuel.
Qed.

(** The fuel that [json_loads] gives the scanner is enough: a text is
    rejected only for its contents. *)
Lemma scan_fuel_enough (limit room : nat) (s : str) :
  scan limit (scan_fuel s) room Value s <> OutOfFuel.
Proof.
  apply (@scan_sound limit (scan_fuel s) room Value s).
  unfold fuel_needed, scan_fuel. lia.
Qed.

(** ** The claims on the inventory methods *)

(** C1 (as the code has it): after [add("apple",10)], [add("banana",-2)],
    [remove("apple",3)], [remove("orange",1)] on an empty inventory, the
    quantity of "apple" is 7, "banana" is present with quantity -2 (adding
    never deletes), and the low-stock list for threshold 5 is ["banana"],
    hence holds no item whose quantity is 5 or more. *)
Theorem scenario_result (now : str) :
  run_calls (scenario now) init = [(apple, 7%Z); (banana, (-2)%Z)] /\
  get_qty apple (run_calls (scenario now) init)
    = (run_calls (scenario now) init, Return 7%Z) /\
  get_qty banana (run_calls (scenario now) init)
    = (run_calls (scenario now) init, Return (-2)%Z) /\
  check_low_items (Some 5%Z) (run_calls (scenario now) init)
    = (run_calls (scenario now) init, Return [banana]) /\
  (forall low item q,
     snd (check_low_items (Some 5%Z) (run_calls (scenario now) init)) = Return low ->
     In item low ->
     dict_lookup (run_calls (scenario now) init) item = Some q ->
     (q < 5)%Z).
Proof.
  assert (E : run_calls (scenario now) init = [(apple, 7%Z); (banana, (-2)%Z)])
    by reflexivity.
  rewrite E. repeat split.
  intros low item q Hlow Hin Hq.
  injection Hlow as <-.
  destruct Hin as [<-|[]].
  vm_compute in Hq. injection Hq as <-. lia.
Qed.

(** C1 (as the specification has it) fails: in the scenario "banana" is not
    absent, and asking for its quantity does not fail. *)
Lemma scenario_banana_present :
  ~ (dict_mem (run_calls (scenario []) init) banana = false /\
     snd (get_qty banana (run_calls (scenario []) init)) = Raise (KeyError banana)) /\
  dict_mem (run_calls (scenario []) init) banana = true /\
  snd (get_qty banana (run_calls (scenario []) init)) = Return (-2)%Z.
Proof.
  split; [|split]; try reflexivity.
  intros [H _]. vm_compute in H. discriminate.
Qed.

(** C2: on an item present with quantity [v], [remove(item, q)] returns
    normally, stores [v - q], and deletes the entry exactly when [v - q <= 0]
    (after which [quantity(item)] raises [KeyError]); when [v - q > 0] the
    entry stays with quantity [v - q].  No other entry changes. *)
Theorem remove_item_present (s : stock) (item : str) (v q : Z) :
  unique_keys s = true ->
  dict_lookup s item = Some v ->
  snd (remove_item item q s) = Return tt /\
  ((v - q <= 0)%Z ->
     fst (remove_item item q s) = dict_remove s item /\
     dict_mem (fst (remove_item item q s)) item = false /\
     snd (get_qty item (fst (remove_item item q s))) = Raise (KeyError item)) /\
  ((v - q > 0)%Z ->
     fst (remove_item item q s) = dict_setitem s item (v - q)%Z /\
     dict_mem (fst (remove_item item q s)) item = true /\
     snd (get_qty item (fst (remove_item item q s))) = Return (v - q)%Z) /\
  (forall k, k <> item ->
     dict_lookup (fst (remove_item item q s)) k = dict_lookup s k) /\
  unique_keys (fst (remove_item item q s)) = true.
Proof.
  intros Hu Hl. rewrite (remove_item_found _ _ _ Hl). cbn [fst snd].
  split; [reflexivity|]. repeat split.
  - destruct (Z.leb_spec (v - q) 0); [reflexivity | lia].
  - destruct (Z.leb_spec (v - q) 0); [|lia].
    rewrite dict_mem_lookup, lookup_remove_same by assumption. reflexivity.
  - destruct (Z.leb_spec (v - q) 0); [|lia].
    rewrite get_qty_eq. cbn [snd]. now rewrite lookup_remove_same.
  - destruct (Z.leb_spec (v - q) 0); [lia | reflexivity].
  - destruct (Z.leb_spec (v - q) 0); [lia|].
    now rewrite mem_setitem, str_eqb_refl.
  - destruct (Z.leb_spec (v - q) 0); [lia|].
    rewrite get_qty_eq. cbn [snd]. now rewrite lookup_setitem_same.
  - intros k Hk. destruct (v - q <=? 0)%Z.
    + now apply lookup_remove_other.
    + now apply lookup_setitem_other.
  - destruct (v - q <=? 0)%Z.
    + now apply unique_keys_remove.
    + now apply unique_keys_setitem.
Qed.

Lemma remove_item_present_witness :
  snd (remove_item apple 3 [(apple, 10%Z)]) = Return tt /\
  snd (get_qty apple (fst (remove_item apple 10 [(apple, 10%Z)])))
    = Raise (KeyError apple).
Proof.
  pose proof (@remove_item_present [(apple, 10%Z)] apple 10 3 eq_refl eq_refl)
    as [H _].
  pose proof (@remove_item_present [(apple, 10%Z)] apple 10 10 eq_refl eq_refl)
    as (_ & H' & _).
  split; [exact H|]. apply H'. lia.
Defined.

(** C3: on an item absent from the mapping, [remove(item, q)] returns
    normally and leaves the mapping as it was. *)
Theorem remove_item_absent (s : stock) (item : str) (q : Z) :
  dict_lookup s item = None ->
  remove_item item q s = (s, Return tt).
Proof. apply remove_item_missing. Qed.

Lemma remove_item_absent_witness :
  remove_item orange 1 [(apple, 7%Z)] = ([(apple, 7%Z)], Return tt).
Proof. apply (@remove_item_absent [(apple, 7%Z)] orange 1). reflexivity. Defined.

(** C4: [quantity(item)] returns the stored quantity of a present item and
    raises [KeyError] for an absent one, the mapping untouched either way; an
    item that no call has added is absent, whatever calls were made. *)
Theorem get_qty_spec (s : stock) (item : str) :
  (forall v, dict_lookup s item = Some v -> get_qty item s = (s, Return v)) /\
  (dict_lookup s item = None -> get_qty item s = (s, Raise (KeyError item))) /\
  (forall cs,
     forallb (fun c => negb (call_adds item c)) cs = true ->
     get_qty item (run_calls cs init) = (run_calls cs init, Raise (KeyError item))).
Proof.
  repeat split.
  - intros v H. rewrite get_qty_eq. now rewrite H.
  - intros H. rewrite get_qty_eq. now rewrite H.
  - intros cs H. rewrite get_qty_eq.
    now rewrite (run_calls_keep_absent cs item init H eq_refl).
Qed.

Lemma get_qty_spec_witness :
  get_qty apple [(apple, 7%Z)] = ([(apple, 7%Z)], Return 7%Z) /\
  get_qty orange [(apple, 7%Z)] = ([(apple, 7%Z)], Raise (KeyError orange)) /\
  snd (get_qty orange (run_calls (scenario []) init)) = Raise (KeyError orange).
Proof.
  destruct (get_qty_spec [(apple, 7%Z)] apple) as (H1 & _ & _).
  destruct (get_qty_spec [(apple, 7%Z)] orange) as (_ & H2 & H3).
  split; [apply H1; reflexivity|].
  split; [apply H2; reflexivity|].
  rewrite (H3 (scenario [])); reflexivity.
Defined.

(** C5: on a non-empty item name, [add(item, q)] sets the stored quantity
    to the previous one (0 for an absent item, whose entry it creates) plus
    [q], leaving the other entries alone; so after [add(item, q1)] and
    [add(item, q2)] on an absent item the stored quantity is [q1 + q2].  This
    holds for all integers.  The call then formats its log line: it returns
    normally when [q] has at most 4300 decimal digits, and raises
    [ValueError] otherwise, with the quantity already stored.  Run one after
    the other, the two additions and the query return [q1 + q2] when both
    quantities are within that limit. *)
Theorem add_item_accumulates (s : stock) (item : str) (q1 q2 : Z)
    (logs1 logs2 : option (list str)) (now1 now2 : str) :
  truthy item = true ->
  let s1 := fst (add_item item q1 logs1 now1 s) in
  let s2 := fst (add_item item q2 logs2 now2 s1) in
  snd (add_item item q1 logs1 now1 s)
    = (if convertible q1
       then Return (match logs1 with
                    | None => None
                    | Some l => Some (l ++ [log_line now1 q1 item])
                    end)
       else Raise ValueError) /\
  s1 = dict_setitem s item (dict_get s item 0 + q1)%Z /\
  get_qty item s1 = (s1, Return (dict_get s item 0 + q1)%Z) /\
  get_qty item s2 = (s2, Return (dict_get s item 0 + q1 + q2)%Z) /\
  (dict_lookup s item = None -> get_qty item s2 = (s2, Return (q1 + q2)%Z)) /\
  (forall k, k <> item -> dict_lookup s1 k = dict_lookup s k) /\
  (convertible q1 = true -> convertible q2 = true ->
   dict_lookup s item = None ->
   (add_item item q1 logs1 now1 ;;;
    add_item item q2 logs2 now2 ;;;
    get_qty item)%py s = (s2, Return (q1 + q2)%Z)).
Proof.
  intros Ht s1 s2. subst s2 s1. unfold bind.
  rewrite !add_item_truthy by assumption. cbn [fst snd].
  rewrite !get_qty_eq. cbn [fst snd].
  assert (E : dict_get (dict_setitem s item (dict_get s item 0 + q1)%Z) item 0%Z
              = (dict_get s item 0 + q1)%Z).
  { unfold dict_get at 1. now rewrite lookup_setitem_same. }
  rewrite E, !lookup_setitem_same.
  split; [reflexivity|]. split; [reflexivity|]. split; [reflexivity|].
  split; [reflexivity|]. split; [|split].
  - intros Hn. unfold dict_get. rewrite Hn. reflexivity.
  - intros k Hk. now apply lookup_setitem_other.
  - intros C1 C2 Hn. rewrite C1, C2. unfold dict_get. rewrite Hn. reflexivity.
Qed.

Lemma add_item_accumulates_witness :
  get_qty apple (fst (add_item apple 4 None [] (fst (add_item apple 3 None [] init))))
  = ([(apple, 7%Z)], Return 7%Z) /\
  snd (add_item apple 3 None [] init) = Return None.
Proof.
  destruct (@add_item_accumulates init apple 3 4 None None [] [] eq_refl)
    as (H0 & _ & _ & _ & H & _).
  split; [exact (H eq_refl) | exact H0].
Defined.

(** C7: [low_stock(threshold)] (threshold 5 when none is given) returns the
    keys of the mapping, in iteration order, whose stored quantity is
    strictly below the threshold: every such item and no other.  The mapping
    is left as it was. *)
Theorem check_low_items_exact (s : stock) (threshold : option Z) :
  unique_keys s = true ->
  let t := match threshold with Some t => t | None => 5%Z end in
  exists low,
    check_low_items threshold s = (s, Return low) /\
    low = filter (below s t) (dict_keys s) /\
    (forall item,
       In item low <-> exists q, dict_lookup s item = Some q /\ (q < t)%Z) /\
    (forall item q,
       dict_lookup s item = Some q -> (t <= q)%Z -> ~ In item low).
Proof.
  intros Hu t.
  exists (low_items s t).
  assert (Hf : low_items s t = filter (below s t) (dict_keys s))
    by now apply low_items_filter.
  assert (Hin : forall item,
             In item (low_items s t) <->
             exists q, dict_lookup s item = Some q /\ (q < t)%Z).
  { intros item. rewrite Hf. unfold below. split.
    - intros Hi. apply filter_In in Hi as [Hk Hb].
      apply In_keys_lookup in Hk as [q Hq].
      rewrite Hq in Hb. exists q. split; [assumption|].
      now apply Z.ltb_lt.
    - intros [q [Hq Hlt]]. apply filter_In. split.
      + apply In_keys_lookup. eauto.
      + rewrite Hq. now apply Z.ltb_lt. }
  split; [reflexivity|]. split; [exact Hf|]. split; [exact Hin|].
  intros item q Hq Hge Hi. apply Hin in Hi as [q' [Hq' Hlt]].
  rewrite Hq in Hq'. injection Hq' as <-. lia.
Qed.

Lemma check_low_items_exact_witness :
  exists low,
    check_low_items (Some 5%Z) [(apple, 2%Z); (banana, 10%Z)]
      = ([(apple, 2%Z); (banana, 10%Z)], Return low) /\
    low = [apple].
Proof.
  destruct (@check_low_items_exact [(apple, 2%Z); (banana, 10%Z)] (Some 5%Z) eq_refl)
    as (low & H1 & H2 & _).
  exists low. split; [exact H1|]. rewrite H2. reflexivity.
Defined.

(** C8: on the empty (falsy) item name, [add(item, quantity, log)] returns
    normally, leaves the mapping as it was and appends nothing to the log. *)
Theorem add_item_falsy (s : stock) (item : str) (qty : Z)
    (logs : option (list str)) (now : str) :
  truthy item = false ->
  add_item item qty logs now s = (s, Return logs).
Proof.
  intros Ht. unfold add_item. now rewrite Ht.
Qed.

Lemma add_item_falsy_witness :
  add_item [] 5 (Some [lit "earlier"]) (lit "noon") [(apple, 7%Z)]
  = ([(apple, 7%Z)], Return (Some [lit "earlier"])).
Proof.
  apply (@add_item_falsy [(apple, 7%Z)] [] 5 (Some [lit "earlier"]) (lit "noon")).
  reflexivity.
Defined.

(** C10: [add] never deletes.  After [add(item, q)] on a non-empty item name
    the item is present and [quantity(item)] returns the new quantity,
    whatever its sign; every entry present before is still present, and the
    mapping has not shrunk. *)
Theorem add_item_never_deletes (s : stock) (item : str) (q : Z)
    (logs : option (list str)) (now : str) :
  truthy item = true ->
  let s' := fst (add_item item q logs now s) in
  dict_mem s' item = true /\
  get_qty item s' = (s', Return (dict_get s item 0 + q)%Z) /\
  (forall k, dict_mem s k = true -> dict_mem s' k = true) /\
  length s <= length s'.
Proof.
  intros Ht s'. subst s'.
  rewrite add_item_truthy by assumption. cbn [fst].
  repeat split.
  - now rewrite mem_setitem, str_eqb_refl.
  - rewrite get_qty_eq. now rewrite lookup_setitem_same.
  - intros k Hk. rewrite mem_setitem, Hk. apply orb_true_r.
  - apply length_setitem.
Qed.

Lemma add_item_never_deletes_witness :
  dict_mem (fst (add_item banana (-2) None [] init)) banana = true /\
  get_qty banana (fst (add_item banana (-2) None [] init))
  = ([(banana, (-2)%Z)], Return (-2)%Z).
Proof.
  destruct (@add_item_never_deletes init banana (-2) None [] eq_refl)
    as (H1 & H2 & _).
  split; [exact H1 | exact H2].
Defined.

(** ** The decoder accepts texts of the grammar only *)

Lemma is_char_eq (c : codepoint) (a : ascii) : is_char c a = true -> c = ord a.
Proof. unfold is_char. apply N.eqb_eq. Qed.

Lemma is_ws_grammar (c : codepoint) :
  is_ws c = true -> (c = 32 \/ c = 9 \/ c = 10 \/ c = 13)%N.
Proof.
  unfold is_ws, is_char. change (ord " ") with 32%N. intros H.
  repeat (apply orb_true_iff in H as [H|H]); apply N.eqb_eq in H; tauto.
Qed.

Lemma skip_ws_split (s : str) : exists w, json_ws w /\ s = w ++ skip_ws s.
Proof.
  induction s as [|c s IH]; cbn [skip_ws].
  - exists []. split; [constructor | reflexivity].
  - destruct (is_ws c) eqn:E.
    + destruct IH as (w & Hw & Hs). exists (c :: w). split.
      * constructor; [now apply is_ws_grammar | assumption].
      * cbn [app]. now rewrite <- Hs.
    + exists []. split; [constructor | reflexivity].
Qed.

Lemma json_ws_app (a b : str) : json_ws a -> json_ws b -> json_ws (a ++ b).
Proof. intros Ha Hb. apply Forall_app. now split. Qed.

Lemma is_digit_grammar (c : codepoint) : is_digit c = true -> (48 <= c <= 57)%N.
Proof.
  unfold is_digit. intros H. apply andb_true_iff in H as [Ha Hb].
  apply N.leb_le in Ha, Hb. lia.
Qed.

Lemma take_digits_split (s : str) : forall ds r,
  take_digits s = (ds, r) -> s = ds ++ r /\ json_digits ds.
Proof.
  induction s as [|c s IH]; intros ds r H; cbn [take_digits] in H.
  - injection H as <- <-. split; [reflexivity | constructor].
  - destruct (is_digit c) eqn:E.
    + destruct (take_digits s) as [ds' r'] eqn:E'. injection H as <- <-.
      destruct (IH _ _ eq_refl) as [-> Hd]. split; [reflexivity|].
      constructor; [now apply is_digit_grammar | assumption].
    + injection H as <- <-. split; [reflexivity | constructor].
Qed.

Lemma match_integer_grammar (s l r : str) :
  match_integer s = Some (l, r) ->
  s = l ++ r /\
  exists sign int, l = sign ++ int /\ (sign = [] \/ sign = lit "-") /\ json_int int.
Proof.
  assert (Hint : forall d s' l' r',
            (if is_char d "0" then Some ([d], s')
             else if is_digit d
                  then let (ds, rest) := take_digits s' in Some (d :: ds, rest)
                  else None) = Some (l', r') ->
            d :: s' = l' ++ r' /\ json_int l').
  { intros d s' l' r' H. destruct (is_char d "0") eqn:E0.
    - injection H as <- <-. apply is_char_eq in E0. subst d.
      split; [reflexivity | constructor].
    - destruct (is_digit d) eqn:Ed; [|discriminate].
      destruct (take_digits s') as [ds rest] eqn:Et. injection H as <- <-.
      apply take_digits_split in Et as [-> Hd]. split; [reflexivity|].
      apply is_digit_grammar in Ed. unfold is_char in E0.
      apply N.eqb_neq in E0. change (ord "0") with 48%N in E0.
      constructor; [lia | assumption]. }
  unfold match_integer, match_sign. intros H.
  destruct s as [|c s]; [discriminate|].
  destruct (is_char c "-") eqn:Ec.
  - apply is_char_eq in Ec. subst c.
    destruct s as [|d s]; [discriminate|].
    destruct (Hint d s (tl l) r) as [E Hi].
    { cbn [app] in H. destruct (is_char d "0").
      - injection H as <- <-. reflexivity.
      - destruct (is_digit d); [|discriminate].
        destruct (take_digits s). injection H as <- <-. reflexivity. }
    assert (El : l = ord "-" :: tl l).
    { cbn [app] in H. destruct (is_char d "0"); [now injection H as <- <-|].
      destruct (is_digit d); [|discriminate].
      destruct (take_digits s). now injection H as <- <-. }
    split.
    + rewrite El. cbn [app]. now rewrite <- E.
    + exists (lit "-"), (tl l). split; [exact El|]. split; [now right | exact Hi].
  - destruct (Hint c s l r) as [E Hi].
    { cbn [app] in H. exact H. }
    split; [exact E|]. exists [], l. split; [reflexivity|]. split; [now left | exact Hi].
Qed.

Lemma match_frac_grammar (s frac r : str) :
  match_frac s = (frac, r) -> s = frac ++ r /\ json_frac frac.
Proof.
  unfold match_frac. intros H.
  destruct s as [|c s];
    [injection H as <- <-; split; [reflexivity | constructor]|].
  destruct (is_char c ".") eqn:E;
    [|injection H as <- <-; split; [reflexivity | constructor]].
  apply is_char_eq in E. subst c.
  destruct (take_digits s) as [[|d ds] rest] eqn:Et; injection H as <- <-.
  - split; [reflexivity | constructor].
  - apply take_digits_split in Et as [-> Hd].
    split; [reflexivity | now constructor].
Qed.

Lemma match_exp_grammar (s exp r : str) :
  match_exp s = (exp, r) -> s = exp ++ r /\ json_exp exp.
Proof.
  unfold match_exp. intros H.
  destruct s as [|c s];
    [injection H as <- <-; split; [reflexivity | constructor]|].
  destruct (is_char c "e" || is_char c "E") eqn:E;
    [|injection H as <- <-; split; [reflexivity | constructor]].
  assert (Hc : c = ord "e" \/ c = ord "E").
  { apply orb_true_iff in E as [E|E]; apply is_char_eq in E; auto. }
  destruct s as [|g s'].
  - cbn [take_digits] in H. injection H as <- <-.
    split; [reflexivity | constructor].
  - destruct (is_char g "-" || is_char g "+") eqn:Eg.
    + assert (Hg : [g] = lit "-" \/ [g] = lit "+").
      { apply orb_true_iff in Eg as [Eg|Eg]; apply is_char_eq in Eg; subst g; auto. }
      destruct (take_digits s') as [[|d ds] rest] eqn:Et; injection H as <- <-.
      * split; [reflexivity | constructor].
      * apply take_digits_split in Et as [-> Hd]. split; [reflexivity|].
        apply (@exp_some c [g] d ds); [assumption | tauto | assumption].
    + destruct (take_digits (g :: s')) as [[|d ds] rest] eqn:Et;
        injection H as <- <-.
      * split; [reflexivity | constructor].
      * apply take_digits_split in Et as [Es Hd]. rewrite Es.
        split; [reflexivity|].
        apply (@exp_some c [] d ds); [assumption | now left | assumption].
Qed.

Lemma match_number_grammar (limit : nat) (s : str) (o : outcome pyval) (r : str) :
  match_number limit s = Some (o, r) -> exists t, json_number t /\ s = t ++ r.
Proof.
  unfold match_number. intros H.
  destruct (match_integer s) as [[l s1]|] eqn:Hi; [|discriminate].
  apply match_integer_grammar in Hi as (-> & sign & int & -> & Hs & Hint).
  destruct (match_frac s1) as [frac s2] eqn:Hf.
  apply match_frac_grammar in Hf as [-> Hfrac].
  destruct (match_exp s2) as [exp s3] eqn:He.
  apply match_exp_grammar in He as [-> Hexp].
  assert (Hr : r = s3) by (destruct frac, exp; now injection H as _ <-).
  subst r. exists (sign ++ int ++ frac ++ exp). split; [now constructor|].
  now rewrite <- !app_assoc.
Qed.

Lemma strip_prefix_split (p s r : str) : strip_prefix p s = Some r -> s = p ++ r.
Proof.
  revert s. induction p as [|a p IH]; intros s H; cbn [strip_prefix] in H.
  - now injection H as <-.
  - destruct s as [|b s]; [discriminate|].
    destruct (N.eqb a b) eqn:E; [|discriminate].
    apply N.eqb_eq in E. subst b. cbn [app]. f_equal. now apply IH.
Qed.

Lemma scan_atom_grammar (limit : nat) (s : str) (v : pyval) (r : str) :
  scan_atom limit s = Scanned v r -> exists t, json_value t /\ s = t ++ r.
Proof.
  unfold scan_atom. intros H.
  destruct (strip_prefix (lit "null") s) eqn:E1.
  { injection H as _ <-. apply strip_prefix_split in E1.
    eexists. split; [apply value_null | exact E1]. }
  destruct (strip_prefix (lit "true") s) eqn:E2.
  { injection H as _ <-. apply strip_prefix_split in E2.
    eexists. split; [apply value_true | exact E2]. }
  destruct (strip_prefix (lit "false") s) eqn:E3.
  { injection H as _ <-. apply strip_prefix_split in E3.
    eexists. split; [apply value_false | exact E3]. }
  destruct (match_number limit s) as [[[v'|e'] r']|] eqn:E4; [|discriminate|].
  { injection H as _ <-. apply match_number_grammar in E4 as (t & Ht & ->).
    exists t. split; [now apply value_number | reflexivity]. }
  destruct (strip_prefix (lit "NaN") s) eqn:E5.
  { injection H as _ <-. apply strip_prefix_split in E5.
    eexists. split; [apply value_constant; left; reflexivity | exact E5]. }
  destruct (strip_prefix (lit "Infinity") s) eqn:E6.
  { injection H as _ <-. apply strip_prefix_split in E6.
    eexists. split; [apply value_constant; right; left; reflexivity | exact E6]. }
  destruct (strip_prefix (lit "-Infinity") s) eqn:E7; [|discriminate].
  injection H as _ <-. apply strip_prefix_split in E7.
  eexists. split; [apply value_constant; right; right; reflexivity | exact E7].
Qed.

Lemma hex_val_grammar (c : codepoint) (x : N) : hex_val c = Some x -> json_hex c.
Proof.
  unfold hex_val, json_hex. intros H.
  destruct ((48 <=? c)%N && (c <=? 57)%N) eqn:E1.
  { apply andb_true_iff in E1 as [A B]. apply N.leb_le in A, B. lia. }
  destruct ((97 <=? c)%N && (c <=? 102)%N) eqn:E2.
  { apply andb_true_iff in E2 as [A B]. apply N.leb_le in A, B. lia. }
  destruct ((65 <=? c)%N && (c <=? 70)%N) eqn:E3; [|discriminate].
  apply andb_true_iff in E3 as [A B]. apply N.leb_le in A, B. lia.
Qed.

Lemma hex4_val_grammar (h1 h2 h3 h4 : codepoint) (x : N) :
  hex4_val h1 h2 h3 h4 = Some x ->
  json_hex h1 /\ json_hex h2 /\ json_hex h3 /\ json_hex h4.
Proof.
  unfold hex4_val. intros H.
  destruct (hex_val h1) eqn:E1; [|discriminate].
  destruct (hex_val h2) eqn:E2; [|discriminate].
  destruct (hex_val h3) eqn:E3; [|discriminate].
  destruct (hex_val h4) eqn:E4; [|discriminate].
  repeat split; eapply hex_val_grammar; eassumption.
Qed.

Lemma backslash_grammar (e ch : codepoint) :
  backslash e = Some ch ->
  In e [QUOTE; BACKSLASH; ord "/"; ord "b"; ord "f"; ord "n"; ord "r"; ord "t"].
Proof.
  unfold backslash. intros H.
  repeat match type of H with
         | (if N.eqb e ?x then _ else _) = _ =>
             let E := fresh "E" in
             destruct (N.eqb e x) eqn:E;
             [apply N.eqb_eq in E; subst e; cbn [In]; tauto|]
         | (if is_char e ?x then _ else _) = _ =>
             let E := fresh "E" in
             destruct (is_char e x) eqn:E;
             [apply is_char_eq in E; subst e; cbn [In]; tauto|]
         end.
  discriminate.
Qed.

Lemma scanstring_grammar_upto (n : nat) : forall s k r,
  length s <= n -> scanstring s = Return (k, r) ->
  exists t, json_chars t /\ s = t ++ QUOTE :: r.
Proof.
  induction n as [|n IH]; intros s k r Hn H.
  { destruct s; [discriminate | cbn [length] in Hn; lia]. }
  assert (Hrest : forall c s' k', length s' <= n ->
            cons_char c (scanstring s') = Return (k', r) ->
            exists t, json_chars t /\ s' = t ++ QUOTE :: r).
  { intros c s' k' Hl Hc. apply cons_char_inv in Hc as [k'' Hc]. eauto. }
  destruct s as [|c r0]; [discriminate|].
  cbn [scanstring] in H. cbn [length] in Hn.
  destruct (N.eqb c QUOTE) eqn:Eq.
  { apply N.eqb_eq in Eq. subst c. injection H as <- <-.
    exists []. split; [constructor | reflexivity]. }
  destruct (N.eqb c BACKSLASH) eqn:Eb.
  - apply N.eqb_eq in Eb. subst c.
    destruct r0 as [|e r1]; [discriminate|].
    destruct (is_char e "u") eqn:Eu.
    + apply is_char_eq in Eu. subst e.
      destruct r1 as [|h1 [|h2 [|h3 [|h4 r2]]]]; try discriminate.
      destruct (hex4_val h1 h2 h3 h4) as [uni|] eqn:Eh; [|discriminate].
      apply hex4_val_grammar in Eh as (X1 & X2 & X3 & X4).
      cbn [length] in Hn.
      assert (Hone : forall c k', cons_char c (scanstring r2) = Return (k', r) ->
                exists t, json_chars t /\
                  BACKSLASH :: ord "u" :: h1 :: h2 :: h3 :: h4 :: r2 = t ++ QUOTE :: r).
      { intros c k' Hc. apply Hrest in Hc as (t & Ht & ->); [|lia].
        exists (BACKSLASH :: ord "u" :: h1 :: h2 :: h3 :: h4 :: t).
        split; [now apply chars_unicode | reflexivity]. }
      destruct (is_high_surrogate uni); [|now apply Hone in H].
      destruct r2 as [|b [|u [|g1 [|g2 [|g3 [|g4 r3]]]]]];
        try (now apply Hone in H).
      destruct (N.eqb b BACKSLASH && is_char u "u") eqn:Ebu;
        [|now apply Hone in H].
      destruct (hex4_val g1 g2 g3 g4) as [uni2|] eqn:Eg; [|discriminate].
      destruct (is_low_surrogate uni2); [|now apply Hone in H].
      apply andb_true_iff in Ebu as [Eb Eu].
      apply N.eqb_eq in Eb. apply is_char_eq in Eu. subst b u.
      apply hex4_val_grammar in Eg as (Y1 & Y2 & Y3 & Y4).
      cbn [length] in Hn.
      apply Hrest in H as (t & Ht & ->); [|lia].
      exists (BACKSLASH :: ord "u" :: h1 :: h2 :: h3 :: h4
              :: BACKSLASH :: ord "u" :: g1 :: g2 :: g3 :: g4 :: t).
      split; [|reflexivity].
      apply chars_unicode; try assumption. now apply chars_unicode.
    + destruct (backslash e) as [ch|] eqn:Ee; [|discriminate].
      apply backslash_grammar in Ee. cbn [length] in Hn.
      apply Hrest in H as (t & Ht & ->); [|lia].
      exists (BACKSLASH :: e :: t). split; [now apply chars_escape | reflexivity].
  - destruct (c <? 32)%N eqn:Ec; [discriminate|].
    apply N.ltb_ge in Ec. apply N.eqb_neq in Eq, Eb.
    apply Hrest in H as (t & Ht & ->); [|lia].
    exists (c :: t). split; [now apply chars_unescaped | reflexivity].
Qed.

Lemma scanstring_grammar (s k r : str) :
  scanstring s = Return (k, r) -> exists t, json_chars t /\ s = t ++ QUOTE :: r.
Proof. apply scanstring_grammar_upto with (length s). lia. Qed.

Lemma elements_ws (w t : str) :
  json_ws w -> json_elements t -> json_elements (w ++ t).
Proof.
  intros Hw Ht. destruct Ht as [w1 v w2 H1 Hv H2 | w1 v w2 t H1 Hv H2 Ht];
    rewrite app_assoc.
  - apply elements_last; [now apply json_ws_app | assumption | assumption].
  - apply elements_more; [now apply json_ws_app | assumption..].
Qed.

Lemma members_ws (w t : str) :
  json_ws w -> json_members t -> json_members (w ++ t).
Proof.
  intros Hw Ht.
  destruct Ht as [w1 k w2 w3 v w4 H1 Hk H2 H3 Hv H4
                 | w1 k w2 w3 v w4 t H1 Hk H2 H3 Hv H4 Ht];
    rewrite app_assoc.
  - apply members_last; [now apply json_ws_app | assumption..].
  - apply members_more; [now apply json_ws_app | assumption..].
Qed.

Lemma scan_once_grammar (self : nat -> mode -> str -> scanned) (limit room : nat)
    (s : str) (v : pyval) (r : str) :
  grammatical self ->
  scan_once self limit room s = Scanned v r -> accepted Value s r.
Proof.
  intros Hself H. unfold scan_once in H. cbn [accepted].
  destruct s as [|c r0]; [discriminate|].
  destruct (N.eqb c QUOTE) eqn:Eq.
  { apply N.eqb_eq in Eq. subst c.
    destruct (scanstring r0) as [[k rest]|e] eqn:Es; [|discriminate].
    injection H as _ <-. apply scanstring_grammar in Es as (t & Ht & ->).
    exists (QUOTE :: t ++ [QUOTE]). split; [now constructor | same_text]. }
  destruct (is_char c "{") eqn:Ec.
  { apply is_char_eq in Ec. subst c.
    destruct room as [|room]; [discriminate|].
    destruct (skip_ws_split r0) as (w & Hw & Hr0).
    destruct (skip_ws r0) as [|c1 r1]; [discriminate|]. rewrite Hr0.
    destruct (is_char c1 "}") eqn:E1.
    - apply is_char_eq in E1. subst c1. injection H as _ <-.
      exists (ord "{" :: w ++ lit "}").
      split; [now apply value_empty_object | same_text].
    - destruct (N.eqb c1 QUOTE) eqn:Eq1; [|discriminate].
      apply N.eqb_eq in Eq1. subst c1.
      apply Hself in H as (t & Ht & E). cbn [accepted] in E. rewrite E.
      exists (ord "{" :: (w ++ t) ++ lit "}").
      split; [apply value_object; now apply members_ws | same_text]. }
  destruct (is_char c "[") eqn:Ek.
  { apply is_char_eq in Ek. subst c.
    destruct room as [|room]; [discriminate|].
    destruct (skip_ws_split r0) as (w & Hw & Hr0).
    destruct (skip_ws r0) as [|c1 r1]; [discriminate|]. rewrite Hr0.
    destruct (is_char c1 "]") eqn:E1.
    - apply is_char_eq in E1. subst c1. injection H as _ <-.
      exists (ord "[" :: w ++ lit "]").
      split; [now apply value_empty_array | same_text].
    - apply Hself in H as (t & Ht & E). rewrite E.
      exists (ord "[" :: (w ++ t) ++ lit "]").
      split; [apply value_array; now apply elements_ws | same_text]. }
  now apply scan_atom_grammar in H.
Qed.

Lemma scan_elements_grammar (self : nat -> mode -> str -> scanned) (room : nat)
    (values : list pyval) (s : str) (v : pyval) (r : str) :
  grammatical self ->
  scan_elements self room values s = Scanned v r -> accepted (Elements values) s r.
Proof.
  intros Hself H. unfold scan_elements in H. cbn [accepted].
  destruct (self room Value s) as [value r0| | | |] eqn:E0; try discriminate.
  apply Hself in E0 as (tv & Hv & ->).
  destruct (skip_ws_split r0) as (w & Hw & Hr0).
  destruct (skip_ws r0) as [|c r1]; [discriminate|]. rewrite Hr0.
  destruct (is_char c "]") eqn:E1.
  - apply is_char_eq in E1. subst c. injection H as _ <-.
    exists ([] ++ tv ++ w).
    split; [apply elements_last; (assumption || constructor) | same_text].
  - destruct (is_char c ",") eqn:E2; [|discriminate].
    apply is_char_eq in E2. subst c.
    destruct (skip_ws_split r1) as (w' & Hw' & Hr1).
    apply Hself in H as (t & Ht & E). rewrite Hr1, E.
    exists ([] ++ tv ++ w ++ ord "," :: (w' ++ t)). split; [|same_text].
    apply elements_more; try assumption; [constructor|].
    now apply elements_ws.
Qed.

Lemma scan_members_grammar (self : nat -> mode -> str -> scanned) (room : nat)
    (pairs : list (str * pyval)) (s : str) (v : pyval) (r : str) :
  grammatical self ->
  scan_members self room pairs s = Scanned v r -> accepted (Members pairs) s r.
Proof.
  intros Hself H. unfold scan_members in H. cbn [accepted].
  destruct (scanstring s) as [[key r0]|e] eqn:Es; [|discriminate].
  apply scanstring_grammar in Es as (tk & Hk & ->).
  destruct (skip_ws_split r0) as (w2 & Hw2 & Hr0).
  destruct (skip_ws r0) as [|c r1]; [discriminate|]. rewrite Hr0.
  destruct (is_char c ":") eqn:Ec; [|discriminate].
  apply is_char_eq in Ec. subst c.
  destruct (skip_ws_split r1) as (w3 & Hw3 & Hr1). rewrite Hr1.
  destruct (self room Value (skip_ws r1)) as [value r2| | | |] eqn:E0;
    try discriminate.
  apply Hself in E0 as (tv & Hv & ->).
  destruct (skip_ws_split r2) as (w4 & Hw4 & Hr2).
  destruct (skip_ws r2) as [|c2 r3]; [discriminate|]. rewrite Hr2.
  destruct (is_char c2 "}") eqn:E1.
  - apply is_char_eq in E1. subst c2. injection H as _ <-.
    exists ([] ++ QUOTE :: tk ++ QUOTE :: w2 ++ ord ":" :: w3 ++ tv ++ w4).
    split; [apply members_last; (assumption || constructor) | same_text].
  - destruct (is_char c2 ",") eqn:E2; [|discriminate].
    apply is_char_eq in E2. subst c2.
    destruct (skip_ws_split r3) as (w5 & Hw5 & Hr3).
    destruct (skip_ws r3) as [|c3 r4]; [discriminate|]. rewrite Hr3.
    destruct (N.eqb c3 QUOTE) eqn:E3; [|discriminate].
    apply N.eqb_eq in E3. subst c3.
    apply Hself in H as (t & Ht & E). cbn [accepted] in E. rewrite E.
    exists ([] ++ QUOTE :: tk ++ QUOTE :: w2 ++ ord ":" :: w3 ++ tv ++ w4
            ++ ord "," :: (w5 ++ t)).
    split; [|same_text].
    apply members_more; try assumption; [constructor|].
    now apply members_ws.
Qed.

Lemma scan_grammar (limit fuel : nat) : grammatical (scan limit fuel).
Proof.
  induction fuel as [|fuel IH]; intros room m s v r H; [discriminate|].
  cbn [scan] in H. destruct m as [|values|pairs].
  - now apply scan_once_grammar in H.
  - now apply scan_elements_grammar in H.
  - now apply scan_members_grammar in H.
Qed.

(** What [json.loads] returns a value for is a text of the grammar. *)
Lemma json_loads_grammar `{Interpreter} (s : str) (obj : pyval) :
  json_loads s = Return obj -> json_text s.
Proof.
  unfold json_loads. intros Hl.
  destruct (skip_ws_split s) as (w1 & Hw1 & Hs).
  destruct (scan _ _ _ _ _) as [v rest| | | |] eqn:E; try discriminate.
  apply scan_grammar in E as (t & Ht & E).
  destruct (skip_ws_split rest) as (w2 & Hw2 & Hrest).
  destruct (skip_ws rest); [|discriminate].
  exists w1, t, w2. repeat split; try assumption.
  rewrite Hs, E, Hrest. now rewrite app_nil_r.
Qed.

Lemma json_loads_raises `{Interpreter} (s : str) (e : exn) :
  json_loads s = Raise e ->
  e = JSONDecodeError \/ e = ValueError \/ e = RecursionError.
Proof.
  unfold json_loads. intros Hl.
  destruct (scan _ _ _ _ _) as [v rest| | | |];
    [destruct (skip_ws rest)|..]; try discriminate; injection Hl as <-; tauto.
Qed.

Lemma json_value_nonempty (t : str) : json_value t -> t <> [].
Proof.
  intros H E. subst t. inversion H as [| | |t Hn| | | | | |t Hc]; subst.
  - inversion Hn as [sign int frac exp Hs Hi Hf He E].
    apply app_eq_nil in E as [_ E]. apply app_eq_nil in E as [E _].
    subst int. inversion Hi.
  - destruct Hc as [Hc|[Hc|Hc]]; discriminate.
Qed.

Lemma json_text_nonempty (t : str) : json_text t -> t <> [].
Proof.
  intros (w1 & v & w2 & _ & Hv & _ & ->) E.
  apply app_eq_nil in E as [_ E]. apply app_eq_nil in E as [E _].
  now apply json_value_nonempty in Hv.
Qed.

(** ** When the decoder raises [ValueError] and [RecursionError] *)

Lemma brackets_app (a b : str) : brackets (a ++ b) = brackets a + brackets b.
Proof. unfold brackets. now rewrite filter_app, length_app. Qed.

Lemma blamed_suffix (limit room : nat) (t r : str) (x : scanned) :
  blamed limit room r x -> blamed limit room (t ++ r) x.
Proof.
  destruct x; cbn [blamed]; auto.
  - intros (a & ds & b & -> & Hd & Hl). exists (t ++ a), ds, b.
    split; [now rewrite <- app_assoc | auto].
  - intros Hb. rewrite brackets_app. lia.
Qed.

Lemma blamed_enter (limit room : nat) (c : codepoint) (t r : str) (x : scanned) :
  is_opening c = true ->
  blamed limit room r x -> blamed limit (S room) (c :: t ++ r) x.
Proof.
  intros Hc. destruct x; cbn [blamed]; auto.
  - intros Hb. apply (@blamed_suffix limit room (c :: t) r TooLong Hb).
  - intros Hb. change (c :: t ++ r) with ([c] ++ t ++ r).
    rewrite !brackets_app.
    assert (Hone : brackets [c] = 1)
      by (unfold brackets; cbn [filter]; now rewrite Hc).
    lia.
Qed.

Lemma json_int_digits (int : str) : json_int int -> json_digits int.
Proof.
  intros [|d ds Hd Hds].
  - constructor; [cbn; lia | constructor].
  - constructor; [lia | assumption].
Qed.

Lemma json_int_literal (sign int : str) :
  sign = [] \/ sign = lit "-" -> json_int int ->
  literal_digits (sign ++ int) = length int.
Proof.
  intros [-> | ->] Hi; [|reflexivity].
  destruct Hi as [|d ds Hd Hds]; [reflexivity|].
  cbn [app literal_digits]. unfold is_char.
  replace (N.eqb d (ord "-")) with false; [reflexivity|].
  symmetry. apply N.eqb_neq. change (ord "-") with 45%N. lia.
Qed.

Lemma match_number_long (limit : nat) (s : str) (e : exn) (r : str) :
  match_number limit s = Some (Raise e, r) -> has_long_number limit s.
Proof.
  unfold match_number. intros Hm.
  destruct (match_integer s) as [[l s1]|] eqn:Hi; [|discriminate].
  apply match_integer_grammar in Hi as (-> & sign & int & -> & Hs & Hint).
  destruct (match_frac s1) as [frac s2].
  destruct (match_exp s2) as [exp s3].
  destruct frac; [|discriminate]. destruct exp; [|discriminate].
  unfold int_of_str in Hm. rewrite json_int_literal in Hm by assumption.
  destruct (too_many_digits limit (length int)) eqn:Ht; [|discriminate].
  unfold too_many_digits in Ht. apply andb_true_iff in Ht as [_ Ht].
  apply Nat.ltb_lt in Ht.
  exists sign, int, s1. split; [now rewrite <- app_assoc|].
  split; [now apply json_int_digits | assumption].
Qed.

Lemma scan_atom_blamed (limit room : nat) (s : str) :
  blamed limit room s (scan_atom limit s).
Proof.
  unfold scan_atom.
  destruct (match_number limit s) as [[[v|e] r]|] eqn:E;
    repeat match goal with
           | |- context [strip_prefix ?p s] => destruct (strip_prefix p s)
           end;
    try exact I.
  cbn [blamed]. eapply match_number_long. eassumption.
Qed.

Lemma scan_once_blamed (self : nat -> mode -> str -> scanned) (limit room : nat)
    (s : str) :
  limited limit self -> blamed limit room s (scan_once self limit room s).
Proof.
  intros Hlim. unfold scan_once.
  destruct s as [|c r0]; [exact I|].
  destruct (N.eqb c QUOTE).
  { destruct (scanstring r0) as [[k rest]|e]; exact I. }
  destruct (is_char c "{") eqn:Ec.
  { assert (Ho : is_opening c = true) by (unfold is_opening; now rewrite Ec, orb_true_r).
    destruct room as [|room].
    - cbn [blamed]. unfold brackets. cbn [filter]. rewrite Ho. cbn [length]. lia.
    - destruct (skip_ws_split r0) as (w & Hw & Hr0).
      destruct (skip_ws r0) as [|c1 r1]; [exact I|]. rewrite Hr0.
      destruct (is_char c1 "}"); [exact I|].
      destruct (N.eqb c1 QUOTE); [|exact I].
      replace (w ++ c1 :: r1) with ((w ++ [c1]) ++ r1) by now rewrite <- app_assoc.
      apply blamed_enter; [assumption | apply Hlim]. }
  destruct (is_char c "[") eqn:Ek.
  { assert (Ho : is_opening c = true) by (unfold is_opening; now rewrite Ek).
    destruct room as [|room].
    - cbn [blamed]. unfold brackets. cbn [filter]. rewrite Ho. cbn [length]. lia.
    - destruct (skip_ws_split r0) as (w & Hw & Hr0).
      destruct (skip_ws r0) as [|c1 r1]; [exact I|]. rewrite Hr0.
      destruct (is_char c1 "]"); [exact I|].
      apply blamed_enter; [assumption | apply Hlim]. }
  apply scan_atom_blamed.
Qed.

Lemma scan_elements_blamed (self : nat -> mode -> str -> scanned)
    (limit room : nat) (values : list pyval) (s : str) :
  grammatical self -> limited limit self ->
  blamed limit room s (scan_elements self room values s).
Proof.
  intros Hself Hlim. unfold scan_elements.
  pose proof (Hlim room Value s) as H0.
  destruct (self room Value s) as [value r0| | | |] eqn:E0; try assumption.
  apply Hself in E0 as (tv & Hv & ->).
  destruct (skip_ws_split r0) as (w & Hw & Hr0).
  destruct (skip_ws r0) as [|c r1]; [exact I|]. rewrite Hr0.
  destruct (is_char c "]"); [exact I|].
  destruct (is_char c ","); [|exact I].
  destruct (skip_ws_split r1) as (w' & Hw' & Hr1). rewrite Hr1 at 1.
  replace (tv ++ w ++ c :: w' ++ skip_ws r1)
    with ((tv ++ w ++ c :: w') ++ skip_ws r1) by same_text.
  apply blamed_suffix, Hlim.
Qed.

Lemma scan_members_blamed (self : nat -> mode -> str -> scanned)
    (limit room : nat) (pairs : list (str * pyval)) (s : str) :
  grammatical self -> limited limit self ->
  blamed limit room s (scan_members self room pairs s).
Proof.
  intros Hself Hlim. unfold scan_members.
  destruct (scanstring s) as [[key r0]|e] eqn:Es; [|exact I].
  apply scanstring_grammar in Es as (tk & Hk & ->).
  destruct (skip_ws_split r0) as (w2 & Hw2 & Hr0).
  destruct (skip_ws r0) as [|c r1]; [exact I|]. rewrite Hr0.
  destruct (is_char c ":"); [|exact I].
  destruct (skip_ws_split r1) as (w3 & Hw3 & Hr1). rewrite Hr1 at 1.
  pose proof (Hlim room Value (skip_ws r1)) as H0.
  assert (Hpre : forall x, blamed limit room (skip_ws r1) x ->
            blamed limit room (tk ++ QUOTE :: w2 ++ c :: w3 ++ skip_ws r1) x).
  { intros x Hx.
    replace (tk ++ QUOTE :: w2 ++ c :: w3 ++ skip_ws r1)
      with ((tk ++ QUOTE :: w2 ++ c :: w3) ++ skip_ws r1) by same_text.
    now apply blamed_suffix. }
  destruct (self room Value (skip_ws r1)) as [value r2| | | |] eqn:E0;
    try (now apply Hpre).
  apply Hself in E0 as (tv & Hv & E0).
  destruct (skip_ws_split r2) as (w4 & Hw4 & Hr2).
  destruct (skip_ws r2) as [|c2 r3]; [exact I|].
  destruct (is_char c2 "}"); [exact I|].
  destruct (is_char c2 ","); [|exact I].
  destruct (skip_ws_split r3) as (w5 & Hw5 & Hr3).
  destruct (skip_ws r3) as [|c3 r4]; [exact I|].
  destruct (N.eqb c3 QUOTE); [|exact I].
  apply Hpre. rewrite E0, Hr2, Hr3.
  replace (tv ++ w4 ++ c2 :: w5 ++ c3 :: r4)
    with ((tv ++ w4 ++ c2 :: w5 ++ [c3]) ++ r4) by same_text.
  apply blamed_suffix, Hlim.
Qed.

Lemma scan_limited (limit fuel : nat) : limited limit (scan limit fuel).
Proof.
  induction fuel as [|fuel IH]; intros room m s; [exact I|].
  cbn [scan]. destruct m as [|values|pairs].
  - now apply scan_once_blamed.
  - apply scan_elements_blamed; [apply scan_grammar | assumption].
  - apply scan_members_blamed; [apply scan_grammar | assumption].
Qed.

(** [json.loads] raises [ValueError] only on a text with a run of more than
    4300 digits, and [RecursionError] only on a text with more opening
    brackets and braces than the interpreter has room for. *)
Lemma json_loads_limits `{Interpreter} (s : str) :
  (json_loads s = Raise ValueError -> has_long_number int_max_str_digits s) /\
  (json_loads s = Raise RecursionError -> recursion_room < brackets s).
Proof.
  unfold json_loads.
  destruct (skip_ws_split s) as (w & Hw & Hs).
  pose proof (scan_limited int_max_str_digits (scan_fuel (skip_ws s))
                recursion_room Value (skip_ws s)) as Hb.
  apply (@blamed_suffix _ _ w) in Hb. rewrite <- Hs in Hb.
  destruct (scan _ _ _ _ _) as [v rest| | | |];
    [destruct (skip_ws rest)|..]; split; intros Hr; try discriminate; exact Hb.
Qed.

(** ** Text files *)

Lemma hex_digit_printable (x : N) :
  (x < 16)%N -> printable_ascii (hex_digit x) = true.
Proof.
  intros Hx. unfold printable_ascii, hex_digit.
  destruct (N.ltb_spec x 10); apply andb_true_iff; split; apply N.leb_le; lia.
Qed.

Lemma u_escape_printable (n : N) : forallb printable_ascii (u_escape n) = true.
Proof.
  unfold u_escape, hex4. cbn [forallb].
  rewrite !hex_digit_printable by (apply N.mod_upper_bound; discriminate).
  reflexivity.
Qed.

Lemma escape_char_printable (c : codepoint) :
  forallb printable_ascii (escape_char c) = true.
Proof.
  unfold escape_char.
  repeat match goal with
         | |- context [if N.eqb c ?x then _ else _] =>
             destruct (N.eqb c x); [reflexivity|]
         end.
  destruct ((32 <=? c)%N && (c <=? 126)%N) eqn:Hp.
  - cbn [forallb]. unfold printable_ascii. now rewrite Hp.
  - destruct (c <? 65536)%N.
    + apply u_escape_printable.
    + rewrite forallb_app. now rewrite !u_escape_printable.
Qed.

Lemma int_repr_printable (z : Z) : forallb printable_ascii (int_repr z) = true.
Proof.
  assert (Hd : forall ds, forallb is_digit ds = true ->
                          forallb printable_ascii ds = true).
  { induction ds as [|d ds IH]; [reflexivity|]. cbn [forallb]. intros H.
    apply andb_true_iff in H as [H1 H2]. rewrite IH by assumption.
    unfold is_digit in H1. apply andb_true_iff in H1 as [Ha Hb].
    apply N.leb_le in Ha, Hb. unfold printable_ascii.
    rewrite andb_true_r. apply andb_true_iff. split; apply N.leb_le; lia. }
  assert (Hn : forall n, forallb printable_ascii (nat_digits n) = true).
  { intros n.
    destruct (nat_digits_shape n) as [[E _]|(d & ds & E & Hr & Hds)]; rewrite E;
      [reflexivity|].
    cbn [forallb]. rewrite Hd by assumption. rewrite andb_true_r.
    unfold printable_ascii. apply andb_true_iff. split; apply N.leb_le; lia. }
  unfold int_repr. destruct (z <? 0)%Z; [cbn [forallb]|]; now rewrite Hn.
Qed.

Lemma iterencode_printable (first : bool) (items : list (str * Z)) :
  forallb printable_ascii (iterencode_items first items) = true.
Proof.
  revert first. induction items as [|[k v] items IH]; intros first;
    [reflexivity|].
  cbn [iterencode_items]. unfold encode_basestring_ascii.
  rewrite !forallb_app. cbn [forallb].
  rewrite int_repr_printable, IH, !forallb_app.
  assert (Hk : forallb printable_ascii (flat_map escape_char k) = true).
  { induction k as [|c k IHk]; [reflexivity|]. cbn [flat_map].
    now rewrite forallb_app, escape_char_printable, IHk. }
  rewrite Hk. destruct first; reflexivity.
Qed.

Lemma json_dumps_printable (s : stock) :
  forallb printable_ascii (json_dumps s) = true.
Proof.
  unfold json_dumps. destruct s as [|kv items]; [reflexivity|].
  rewrite !forallb_app. unfold dict_items.
  now rewrite iterencode_printable.
Qed.

(** Printable ASCII goes through the codec and the newline translation
    unchanged, both ways. *)
Lemma printable_codec `{Interpreter} (t : str) :
  forallb printable_ascii t = true ->
  platform_newlines t = t /\ utf8_encode t = Return t /\
  utf8_decode t = Return t /\ universal_newlines t = t.
Proof.
  induction t as [|c t IH]; intros Hp; [repeat split|].
  cbn [forallb] in Hp. apply andb_true_iff in Hp as [Hc Hp].
  destruct (IH Hp) as (I1 & I2 & I3 & I4).
  unfold printable_ascii in Hc. apply andb_true_iff in Hc as [Ha Hb].
  apply N.leb_le in Ha, Hb.
  assert (L : (c <? 128)%N = true) by (apply N.ltb_lt; lia).
  assert (N10 : N.eqb c 10 = false) by (apply N.eqb_neq; lia).
  assert (N13 : N.eqb c 13 = false) by (apply N.eqb_neq; lia).
  repeat split.
  - unfold platform_newlines in *. cbn [flat_map]. rewrite N10, I1. reflexivity.
  - cbn [utf8_encode]. unfold utf8_encode_char. rewrite L. cbn [and_then].
    rewrite I2. reflexivity.
  - cbn [utf8_decode]. rewrite L, I3. reflexivity.
  - cbn [universal_newlines]. rewrite N13, I4. reflexivity.
Qed.

Lemma utf8_decode_raises_upto (n : nat) : forall bs e,
  length bs <= n -> utf8_decode bs = Raise e -> e = UnicodeDecodeError.
Proof.
  induction n as [|n IH]; intros bs e Hn Hd.
  { destruct bs; [discriminate | cbn [length] in Hn; lia]. }
  assert (Hm : forall c r', length r' <= n ->
            map_return (cons c) (utf8_decode r') = Raise e ->
            e = UnicodeDecodeError).
  { intros c r' Hl Hr. destruct (utf8_decode r') eqn:E; [discriminate|].
    injection Hr as <-. eauto. }
  destruct bs as [|b r]; [discriminate|].
  cbn [utf8_decode] in Hd. cbn [length] in Hn.
  break_match Hd; subst; cbn [length] in *;
    try (injection Hd as <-; reflexivity);
    (eapply Hm; [|eassumption]; lia).
Qed.

Lemma utf8_decode_raises (bs : bytes) (e : exn) :
  utf8_decode bs = Raise e -> e = UnicodeDecodeError.
Proof. apply utf8_decode_raises_upto with (length bs). lia. Qed.

(** ** Files *)

Lemma fs_node_update_same (fs : filesystem) (p : str) (n : node) :
  fs_node (fs_update fs p n) p = n.
Proof. unfold fs_node, fs_update. cbn. now rewrite N.eqb_refl. Qed.

Lemma fs_node_update_other (fs : filesystem) (p q : str) (n : node) :
  place_of fs q <> place_of fs p ->
  fs_node (fs_update fs p n) q = fs_node fs q.
Proof.
  intros Hp. apply N.eqb_neq in Hp. unfold fs_node, fs_update. cbn.
  now rewrite Hp.
Qed.

Lemma check_path_valid `{Interpreter} (p : str) :
  check_path p =
    if valid_path p then Return tt
    else if forallb path_encodable p then Raise ValueError
         else Raise UnicodeEncodeError.
Proof.
  unfold check_path, valid_path.
  destruct (forallb path_encodable p); [|reflexivity].
  destruct (existsb (N.eqb 0) p); reflexivity.
Qed.

Lemma check_path_invalid `{Interpreter} (p : str) :
  valid_path p = false ->
  exists e, (e = ValueError \/ e = UnicodeEncodeError) /\ check_path p = Raise e.
Proof.
  intros Hv. rewrite check_path_valid, Hv.
  destruct (forallb path_encodable p); eauto.
Qed.

(** The three ways [save_data] can go on a path that [open] accepts, and
    the one on a path that it refuses. *)
Lemma save_data_cases `{Interpreter} (s : stock) (file : option str)
    (fs : filesystem) :
  (valid_path (path_of file) = false /\
   exists e, (e = ValueError \/ e = UnicodeEncodeError) /\
             save_data s file fs = (fs, Raise e)) \/
  (valid_path (path_of file) = true /\ writable fs (path_of file) = false /\
   save_data s file fs = (fs, Raise OSError)) \/
  (valid_path (path_of file) = true /\ writable fs (path_of file) = true /\
   exists r,
     save_data s file fs
     = if all_convertible s
       then (fs_update (fs_update fs (path_of file) (File r true []))
                       (path_of file) (File r true (json_dumps s)), Return tt)
       else (fs_update fs (path_of file) (File r true []), Raise ValueError)).
Proof.
  assert (Hopen : forall r,
    (text <- lift (json_dumps_call s) ;; write (path_of file) text)%py
      (fs_update fs (path_of file) (File r true []))
    = if all_convertible s
      then (fs_update (fs_update fs (path_of file) (File r true []))
                      (path_of file) (File r true (json_dumps s)), Return tt)
      else (fs_update fs (path_of file) (File r true []), Raise ValueError)).
  { intros r. unfold bind, lift, json_dumps_call.
    destruct (all_convertible s); [|reflexivity].
    unfold write. rewrite fs_node_update_same.
    destruct (printable_codec (json_dumps s) (json_dumps_printable s))
      as (-> & -> & _).
    reflexivity. }
  assert (Hsave : save_data s file fs =
            match open_w (path_of file) fs with
            | (fs1, Return _) =>
                (text <- lift (json_dumps_call s) ;; write (path_of file) text)%py fs1
            | (fs1, Raise e) => (fs1, Raise e)
            end) by reflexivity.
  assert (Hop : open_w (path_of file) fs =
            match check_path (path_of file) with
            | Return _ =>
                match fs_node fs (path_of file) with
                | File r true _ =>
                    (fs_update fs (path_of file) (File r true []), Return tt)
                | Missing true r =>
                    (fs_update fs (path_of file) (File r true []), Return tt)
                | _ => (fs, Raise OSError)
                end
            | Raise e => (fs, Raise e)
            end).
  { unfold open_w, bind, lift. destruct (check_path (path_of file)); reflexivity. }
  rewrite Hsave, Hop. clear Hsave Hop.
  destruct (valid_path (path_of file)) eqn:Hv.
  - right. rewrite check_path_valid, Hv. unfold writable.
    destruct (fs_node fs (path_of file)) as [[|] r0|r0 [|] data] eqn:E.
    + right. repeat split. exists r0. apply Hopen.
    + left. repeat split.
    + right. repeat split. exists r0. apply Hopen.
    + left. repeat split.
  - left. split; [reflexivity|].
    destruct (check_path_invalid _ Hv) as (e & He & ->). now exists e.
Qed.

(** What a file holds after a successful [save_data]. *)
Lemma save_data_written `{Interpreter} (s : stock) (file : option str)
    (fs fs' : filesystem) :
  save_data s file fs = (fs', Return tt) ->
  valid_path (path_of file) = true /\ all_convertible s = true /\
  exists r,
    fs' = fs_update (fs_update fs (path_of file) (File r true []))
                    (path_of file) (File r true (json_dumps s)).
Proof.
  intros Hs.
  destruct (save_data_cases s file fs)
    as [(Hv & e & He & E) | [(Hv & Hw & E) | (Hv & Hw & r & E)]];
    rewrite E in Hs; try discriminate.
  destruct (all_convertible s); [|discriminate].
  injection Hs as <-. eauto.
Qed.

Lemma read_saved `{Interpreter} (s : stock) (file : option str)
    (fs fs' : filesystem) :
  save_data s file fs = (fs', Return tt) ->
  readable fs' (path_of file) = true ->
  read_file fs' (path_of file) = Return (json_dumps s) /\
  all_convertible s = true.
Proof.
  intros Hs Hr. apply save_data_written in Hs as (Hv & Hc & r & ->).
  split; [|assumption].
  unfold readable in Hr. unfold read_file.
  rewrite fs_node_update_same in *. rewrite check_path_valid, Hv. cbn [and_then].
  destruct r; [|discriminate].
  destruct (printable_codec (json_dumps s) (json_dumps_printable s))
    as (_ & _ & -> & E).
  cbn [map_return]. now rewrite E.
Qed.

Lemma load_data_eq `{Interpreter} (fs : filesystem) (file : option str)
    (old : pyval) :
  load_data fs file old =
    match read_file fs (path_of file) with
    | Raise e => (old, Raise e)
    | Return text =>
        match json_loads text with
        | Raise e => (old, Raise e)
        | Return obj => (obj, Return tt)
        end
    end.
Proof.
  unfold load_data, bind, lift, put_state. fold (path_of file).
  destruct (read_file fs (path_of file)) as [text|e]; [|reflexivity].
  destruct (json_loads text); reflexivity.
Qed.

Lemma read_file_raises `{Interpreter} (fs : filesystem) (p : str) (e : exn) :
  read_file fs p = Raise e ->
  e = ValueError \/ e = UnicodeEncodeError \/ e = OSError \/ e = UnicodeDecodeError.
Proof.
  unfold read_file. rewrite check_path_valid.
  destruct (valid_path p); cbn [and_then].
  - destruct (fs_node fs p) as [c r|[|] w data]; intros Hr;
      try (injection Hr as <-; tauto).
    destruct (utf8_decode data) eqn:E; [discriminate|].
    injection Hr as <-. apply utf8_decode_raises in E. tauto.
  - destruct (forallb path_encodable p); intros Hr; injection Hr as <-; tauto.
Qed.

(** ** The claims on persistence *)

(** C6 (as the code has it): for a mapping from string keys to integers,
    the empty one included, in which no key holds a high surrogate directly
    followed by a low surrogate: when [save(path)] succeeds and the file can
    be read back, [load(path)] on the same path returns normally and leaves a
    mapping equal to the one saved, whatever was in memory before. *)
Theorem save_load_roundtrip `{Interpreter} (s : stock) (file : option str)
    (fs fs' : filesystem) (old : pyval) :
  unique_keys s = true ->
  forallb plain_key (dict_keys s) = true ->
  save_data s file fs = (fs', Return tt) ->
  readable fs' (path_of file) = true ->
  load_data fs' file old = (of_stock s, Return tt).
Proof.
  intros Hu Hk Hsave Hr.
  destruct (read_saved _ _ _ Hsave Hr) as [Hread Hc].
  rewrite load_data_eq, Hread. now rewrite loads_dumps.
Qed.

Lemma save_load_roundtrip_witness :
  load_data (fst (save_data [(apple, 7%Z); (banana, (-2)%Z)] None empty_disk))
            None PNone
  = (of_stock [(apple, 7%Z); (banana, (-2)%Z)], Return tt) /\
  load_data (fst (save_data [] None empty_disk)) None PNone
  = (of_stock [], Return tt).
Proof.
  split.
  - apply (@save_load_roundtrip cpython [(apple, 7%Z); (banana, (-2)%Z)] None
             empty_disk
             (fst (save_data [(apple, 7%Z); (banana, (-2)%Z)] None empty_disk))
             PNone); reflexivity.
  - apply (@save_load_roundtrip cpython [] None empty_disk
             (fst (save_data [] None empty_disk)) PNone); reflexivity.
Defined.

(** C6 (as the specification has it) fails: a mapping whose only key is the
    two-character string U+D83D U+DE00 is saved and loaded without error,
    and comes back with the one-character key U+1F600. *)
Lemma surrogate_key_not_restored :
  unique_keys surrogate_stock = true /\
  forallb valid_str (dict_keys surrogate_stock) = true /\
  snd (save_data surrogate_stock None empty_disk) = Return tt /\
  load_data (fst (save_data surrogate_stock None empty_disk)) None PNone
  = (PDict [([128512%N], PInt 1)], Return tt) /\
  PDict [([128512%N], PInt 1)] <> of_stock surrogate_stock.
Proof.
  repeat split. discriminate.
Qed.




Lemma nested_value (n : nat) : json_value (nested n).
Proof.
  induction n as [|n IH]; cbn [nested].
  - apply (value_empty_array (w := [])). constructor.
  - apply value_array.
    rewrite <- (app_nil_r (nested n)). change (nested n ++ []) with ([] ++ nested n ++ []).
    apply elements_last; (assumption || constructor).
Qed.

(** Texts of the grammar that [load] refuses all the same: an integer
    literal of 4301 digits, with [ValueError], and 2000 arrays one inside
    the other, with [RecursionError]. *)
Lemma load_data_limits :
  json_text (repeat (ord "1") 4301) /\
  load_data long_number_disk None PNone = (PNone, Raise ValueError) /\
  json_text (nested 1999) /\
  load_data deep_disk None PNone = (PNone, Raise RecursionError).
Proof.
  split; [|split; [|split]].
  - exists [], (repeat (ord "1") 4301), []. rewrite app_nil_r.
    split; [constructor|]. split; [|split; [constructor | reflexivity]].
    apply value_number. rewrite <- (app_nil_r (repeat (ord "1") 4301)).
    apply (@number_of [] (repeat (ord "1") 4301) [] []);
      [now left | | apply frac_none | apply exp_none].
    apply (@int_nonzero (ord "1") (repeat (ord "1") 4300)).
    + change (ord "1") with 49%N. lia.
    + apply Forall_forall. intros c Hc. apply repeat_spec in Hc. subst c.
      change (ord "1") with 49%N. lia.
  - vm_compute. reflexivity.
  - exists [], (nested 1999), []. rewrite app_nil_r.
    split; [constructor|]. split; [apply nested_value|].
    split; [constructor | reflexivity].
  - vm_compute. reflexivity.
Qed.

(** * Further properties *)

(** ** More on dicts *)


Section MoreDictFacts.
Variable V : Type.
Implicit Types (d : dict V) (k : str) (v : V).

Lemma setitem_setitem d k v v' :
  dict_setitem (dict_setitem d k v) k v' = dict_setitem d k v'.
Proof.
  induction d as [|[k0 v0] r IH]; simpl.
  - now rewrite str_eqb_refl.
  - destruct (str_eqb k k0) eqn:E; simpl; rewrite E; [reflexivity|].
    now rewrite IH.
Qed.

Lemma setitem_same_value d k v :
  dict_lookup d k = Some v -> dict_setitem d k v = d.
Proof.
  induction d as [|[k0 v0] r IH]; simpl; [discriminate|].
  destruct (str_eqb k k0) eqn:E.
  - intros H. injection H as ->. reflexivity.
  - intros H. now rewrite IH.
Qed.

Lemma remove_app_absent d k v :
  dict_lookup d k = None -> dict_remove (d ++ [(k, v)]) k = d.
Proof.
  induction d as [|[k0 v0] r IH]; simpl.
  - now rewrite str_eqb_refl.
  - destruct (str_eqb k k0) eqn:E; [discriminate|].
    intros H. now rewrite IH.
Qed.

Lemma mem_remove_incl d k k' :
  dict_mem (dict_remove d k) k' = true -> dict_mem d k' = true.
Proof.
  induction d as [|[k0 v0] r IH]; simpl; [discriminate|].
  destruct (str_eqb k k0); simpl.
  - intros H. rewrite H. apply orb_true_r.
  - destruct (str_eqb k' k0); simpl; auto.
Qed.

Lemma length_remove d k : length (dict_remove d k) <= length d.
Proof.
  induction d as [|[k0 v0] r IH]; simpl; [lia|].
  destruct (str_eqb k k0); simpl; lia.
Qed.

Lemma length_setitem_present d k v v0 :
  dict_lookup d k = Some v0 -> length (dict_setitem d k v) = length d.
Proof.
  induction d as [|[k0 v1] r IH]; simpl; [discriminate|].
  destruct (str_eqb k k0); simpl; [reflexivity|].
  intros H. now rewrite IH.
Qed.

Lemma length_setitem_le d k v : length (dict_setitem d k v) <= S (length d).
Proof.
  induction d as [|[k0 v0] r IH]; simpl; [lia|].
  destruct (str_eqb k k0); simpl; lia.
Qed.

Lemma unique_keys_NoDup d : unique_keys d = true -> NoDup (dict_keys d).
Proof.
  induction d as [|[k0 v0] r IH]; simpl; [constructor|].
  intros H. apply andb_true_iff in H as [Hk Hr].
  apply negb_true_iff in Hk. constructor; [|auto].
  intros Hin. clear - Hk Hin.
  induction r as [|[k1 v1] r IH]; simpl in *; [assumption|].
  apply orb_false_iff in Hk as [H0 Hk].
  destruct Hin as [->|Hin]; [now rewrite str_eqb_refl in H0 | auto].
Qed.
End MoreDictFacts.

Lemma forallb_setitem (P : str * Z -> bool) (s : stock) (k : str) (v : Z) :
  (forall k', P (k', v) = true) ->
  forallb P s = true -> forallb P (dict_setitem s k v) = true.
Proof.
  intros Hv. induction s as [|[k0 v0] r IH]; simpl.
  - now rewrite Hv.
  - intros H. apply andb_true_iff in H as [H0 Hr].
    destruct (str_eqb k k0); simpl.
    + now rewrite Hv, Hr.
    + now rewrite H0, IH.
Qed.

Lemma forallb_remove (P : str * Z -> bool) (s : stock) (k : str) :
  forallb P s = true -> forallb P (dict_remove s k) = true.
Proof.
  induction s as [|[k0 v0] r IH]; simpl; [reflexivity|].
  intros H. apply andb_true_iff in H as [H0 Hr].
  destruct (str_eqb k k0); simpl; [assumption|].
  now rewrite H0, IH.
Qed.

Lemma forallb_lookup (P : str * Z -> bool) (s : stock) (k : str) (v : Z) :
  forallb P s = true -> dict_lookup s k = Some v -> exists k', P (k', v) = true.
Proof.
  induction s as [|[k0 v0] r IH]; simpl; [discriminate|].
  intros H Hl. apply andb_true_iff in H as [H0 Hr].
  destruct (str_eqb k k0).
  - injection Hl as <-. eauto.
  - auto.
Qed.

Lemma low_items_keys (s : stock) (t : Z) (item : str) :
  In item (low_items s t) -> In item (dict_keys s).
Proof.
  induction s as [|[k q] r IH]; simpl; [tauto|].
  destruct (q <? t)%Z; simpl; intuition.
Qed.

Lemma low_items_length (s : stock) (t : Z) : length (low_items s t) <= length s.
Proof.
  induction s as [|[k q] r IH]; simpl; [lia|].
  destruct (q <? t)%Z; simpl; lia.
Qed.

(** ** Sequences of additions and removals *)

Lemma remove_item_effect (s : stock) (item : str) (q : Z) :
  snd (remove_item item q s) = Return tt /\
  (forall k, dict_mem (fst (remove_item item q s)) k = true -> dict_mem s k = true) /\
  length (fst (remove_item item q s)) <= length s.
Proof.
  destruct (dict_lookup s item) as [v|] eqn:Hl.
  - rewrite (remove_item_found _ _ _ Hl). cbn [fst snd].
    split; [reflexivity|]. destruct (v - q <=? 0)%Z.
    + split; [intros k; apply mem_remove_incl | apply length_remove].
    + split.
      * intros k. rewrite mem_setitem. intros H.
        apply orb_true_iff in H as [H|H]; [|assumption].
        apply str_eqb_eq in H. subst k.
        rewrite dict_mem_lookup. now rewrite Hl.
      * now rewrite (length_setitem_present _ _ _ Hl).
  - rewrite remove_item_missing by assumption. cbn [fst snd]. auto.
Qed.

(** X1: [remove_item] never raises, whatever the item and the quantity; it
    never adds a key and never makes the mapping longer. *)
Theorem remove_item_never_raises (s : stock) (item : str) (q : Z) :
  snd (remove_item item q s) = Return tt /\
  (forall k, dict_mem (fst (remove_item item q s)) k = true -> dict_mem s k = true) /\
  length (fst (remove_item item q s)) <= length s.
Proof. apply remove_item_effect. Qed.

(** X2: after [remove_item(item, q)] the item is either absent or stored
    with a positive quantity. *)
Theorem remove_item_leaves_positive (s : stock) (item : str) (q v : Z) :
  unique_keys s = true ->
  dict_lookup (fst (remove_item item q s)) item = Some v ->
  (0 < v)%Z.
Proof.
  intros Hu. destruct (dict_lookup s item) as [v0|] eqn:Hl.
  - rewrite (remove_item_found _ _ _ Hl). cbn [fst].
    destruct (Z.leb_spec (v0 - q) 0).
    + now rewrite lookup_remove_same.
    + rewrite lookup_setitem_same. intros H'. injection H' as H'. lia.
  - rewrite remove_item_missing by assumption. cbn [fst]. congruence.
Qed.

Lemma remove_item_leaves_positive_witness : (0 < 7)%Z.
Proof.
  apply (@remove_item_leaves_positive [(apple, 10%Z)] apple 3 7); reflexivity.
Defined.

Lemma run_call_keeps_positive (c : call) (s : stock) :
  all_positive s = true -> adds_positive c = true ->
  all_positive (run_call c s) = true.
Proof.
  unfold all_positive. intros Hs Hc.
  destruct c as [item qty logs now | item qty]; simpl in *.
  - destruct (truthy item) eqn:Ht.
    + rewrite add_item_truthy by assumption. cbn [fst].
      apply forallb_setitem; [|assumption].
      intros k0. cbn [snd]. apply Z.ltb_lt. apply Z.ltb_lt in Hc.
      unfold dict_get. destruct (dict_lookup s item) as [v|] eqn:Hl; [|lia].
      destruct (forallb_lookup _ _ _ Hs Hl) as [k' Hv].
      cbn [snd] in Hv. apply Z.ltb_lt in Hv. lia.
    + unfold add_item. now rewrite Ht.
  - destruct (dict_lookup s item) as [v|] eqn:Hl.
    + rewrite (remove_item_found _ _ _ Hl). cbn [fst].
      destruct (Z.leb_spec (v - qty) 0).
      * now apply forallb_remove.
      * apply forallb_setitem; [|assumption].
        intros k0. cbn [snd]. apply Z.ltb_lt. lia.
    + now rewrite remove_item_missing.
Qed.

(** X3: positive stock stays positive.  From a mapping whose quantities are
    all positive, calls of [remove_item] with any quantity and of [add_item]
    with positive quantities lead to a mapping whose quantities are all
    positive. *)
Theorem run_calls_keep_positive (cs : list call) (s : stock) :
  all_positive s = true ->
  forallb adds_positive cs = true ->
  all_positive (run_calls cs s) = true.
Proof.
  revert s. induction cs as [|c cs IH]; intros s Hs Hcs; [assumption|].
  cbn [forallb] in Hcs. apply andb_true_iff in Hcs as [Hc Hcs].
  unfold run_calls. cbn [fold_left]. apply IH; [|assumption].
  now apply run_call_keeps_positive.
Qed.

Lemma run_calls_keep_positive_witness :
  all_positive (run_calls [AddItem apple 10 None []; RemoveItem apple 3;
                           AddItem banana 2 None []; RemoveItem banana 5] init)
  = true.
Proof.
  apply (@run_calls_keep_positive
           [AddItem apple 10 None []; RemoveItem apple 3;
            AddItem banana 2 None []; RemoveItem banana 5] init); reflexivity.
Defined.

Lemma run_call_keeps_unique (c : call) (s : stock) :
  unique_keys s = true -> unique_keys (run_call c s) = true.
Proof.
  intros Hu. destruct c as [item qty logs now | item qty]; simpl.
  - destruct (truthy item) eqn:Ht.
    + rewrite add_item_truthy by assumption. now apply unique_keys_setitem.
    + unfold add_item. now rewrite Ht.
  - destruct (dict_lookup s item) as [v|] eqn:Hl.
    + rewrite (remove_item_found _ _ _ Hl). cbn [fst].
      destruct (v - qty <=? 0)%Z;
        [now apply unique_keys_remove | now apply unique_keys_setitem].
    + now rewrite remove_item_missing.
Qed.

(** X4: no sequence of [add_item] and [remove_item] calls makes an item
    occur twice in the mapping: the keys met when iterating over it stay
    pairwise different. *)
Theorem run_calls_keep_unique (cs : list call) (s : stock) :
  unique_keys s = true ->
  unique_keys (run_calls cs s) = true /\ NoDup (dict_keys (run_calls cs s)).
Proof.
  intros Hu.
  assert (H : unique_keys (run_calls cs s) = true).
  { revert s Hu. induction cs as [|c cs IH]; intros s Hu; [assumption|].
    unfold run_calls. cbn [fold_left]. apply IH.
    now apply run_call_keeps_unique. }
  split; [assumption | now apply unique_keys_NoDup].
Qed.

Lemma run_calls_keep_unique_witness :
  NoDup (dict_keys (run_calls (scenario []) init)).
Proof.
  apply (@run_calls_keep_unique (scenario []) init). reflexivity.
Defined.

(** X5: the mapping never holds more items than [add_item] was called:
    after a sequence of calls its length is at most its length before plus
    the number of additions in the sequence. *)
Theorem run_calls_length (cs : list call) (s : stock) :
  length (run_calls cs s) <= length s + length (filter is_add cs).
Proof.
  revert s. induction cs as [|c cs IH]; intros s; [simpl; lia|].
  change (run_calls (c :: cs) s) with (run_calls cs (run_call c s)).
  specialize (IH (run_call c s)).
  assert (H : length (run_call c s)
              <= length s + (if is_add c then 1 else 0)).
  { destruct c as [item qty logs now | item qty]; cbn [run_call is_add].
    - destruct (truthy item) eqn:Ht.
      + rewrite add_item_truthy by assumption. cbn [fst].
        pose proof (length_setitem_le s item (dict_get s item 0 + qty)%Z). lia.
      + unfold add_item. rewrite Ht. cbn. lia.
    - pose proof (remove_item_effect s item qty) as (_ & _ & H). lia. }
  cbn [filter]. destruct (is_add c); cbn [length]; lia.
Qed.

(** X6: removing what was just added.  On a non-empty item name that is
    absent or stored with a positive quantity, [add_item(item, q)] followed
    by [remove_item(item, q)] gives back the mapping as it was, order
    included; on an item stored with a quantity of zero or less the pair of
    calls deletes the entry instead. *)
Theorem add_then_remove (s : stock) (item : str) (q : Z)
    (logs : option (list str)) (now : str) :
  truthy item = true ->
  (dict_lookup s item = None ->
     fst (remove_item item q (fst (add_item item q logs now s))) = s) /\
  (forall v, dict_lookup s item = Some v -> (0 < v)%Z ->
     fst (remove_item item q (fst (add_item item q logs now s))) = s) /\
  (forall v, dict_lookup s item = Some v -> (v <= 0)%Z ->
     fst (remove_item item q (fst (add_item item q logs now s)))
     = dict_remove s item).
Proof.
  intros Ht. rewrite add_item_truthy by assumption. cbn [fst].
  set (s1 := dict_setitem s item (dict_get s item 0 + q)%Z).
  assert (H1 : dict_lookup s1 item = Some (dict_get s item 0 + q)%Z)
    by apply lookup_setitem_same.
  rewrite (remove_item_found _ _ _ H1). cbn [fst].
  unfold dict_get in *. subst s1. split; [|split].
  - intros Hn. rewrite Hn in *.
    replace (0 + q - q <=? 0)%Z with true by (symmetry; apply Z.leb_le; lia).
    rewrite setitem_absent by (rewrite dict_mem_lookup; now rewrite Hn).
    now apply remove_app_absent.
  - intros v Hv Hpos. rewrite Hv in *.
    replace (v + q - q <=? 0)%Z with false by (symmetry; apply Z.leb_gt; lia).
    rewrite setitem_setitem. replace (v + q - q)%Z with v by lia.
    now apply setitem_same_value.
  - intros v Hv Hneg. rewrite Hv in *.
    replace (v + q - q <=? 0)%Z with true by (symmetry; apply Z.leb_le; lia).
    now rewrite (remove_setitem _ _ _ Hv).
Qed.

Lemma add_then_remove_witness :
  fst (remove_item banana 4 (fst (add_item banana 4 None [] [(apple, 7%Z)])))
  = [(apple, 7%Z)] /\
  fst (remove_item apple 4 (fst (add_item apple 4 None [] [(apple, 7%Z)])))
  = [(apple, 7%Z)].
Proof.
  destruct (@add_then_remove [(apple, 7%Z)] banana 4 None [] eq_refl) as (H1 & _).
  destruct (@add_then_remove [(apple, 7%Z)] apple 4 None [] eq_refl) as (_ & H2 & _).
  split; [apply H1; reflexivity | apply (H2 7%Z); [reflexivity | lia]].
Defined.

(** X7: [remove_item(item, 0)] is not always a no-op: on a present item it
    leaves the mapping as it was when the stored quantity is positive, and
    deletes the entry when the stored quantity is zero or less. *)
Theorem remove_item_zero (s : stock) (item : str) (v : Z) :
  dict_lookup s item = Some v ->
  fst (remove_item item 0 s) = if (v <=? 0)%Z then dict_remove s item else s.
Proof.
  intros Hl. rewrite (remove_item_found _ _ _ Hl). cbn [fst].
  rewrite Z.sub_0_r. destruct (v <=? 0)%Z; [reflexivity|].
  now apply setitem_same_value.
Qed.

Lemma remove_item_zero_witness :
  fst (remove_item banana 0 [(apple, 7%Z); (banana, (-2)%Z)]) = [(apple, 7%Z)] /\
  fst (remove_item apple 0 [(apple, 7%Z); (banana, (-2)%Z)])
  = [(apple, 7%Z); (banana, (-2)%Z)].
Proof.
  split.
  - apply (@remove_item_zero [(apple, 7%Z); (banana, (-2)%Z)] banana (-2)).
    reflexivity.
  - apply (@remove_item_zero [(apple, 7%Z); (banana, (-2)%Z)] apple 7).
    reflexivity.
Defined.

(** X8: removing a negative quantity adds.  On a present item with a
    non-empty name, [remove_item(item, -q)] leaves the same mapping as
    [add_item(item, q)] whenever the new quantity is positive. *)
Theorem remove_negative_adds (s : stock) (item : str) (v q : Z)
    (logs : option (list str)) (now : str) :
  truthy item = true ->
  dict_lookup s item = Some v ->
  (0 < v + q)%Z ->
  fst (remove_item item (- q) s) = fst (add_item item q logs now s).
Proof.
  intros Ht Hl Hpos.
  rewrite (remove_item_found _ _ _ Hl), add_item_truthy by assumption.
  cbn [fst]. unfold dict_get. rewrite Hl.
  replace (v - - q)%Z with (v + q)%Z by lia.
  replace (v + q <=? 0)%Z with false by (symmetry; apply Z.leb_gt; lia).
  reflexivity.
Qed.

Lemma remove_negative_adds_witness :
  fst (remove_item apple (-3) [(apple, 7%Z)]) = [(apple, 10%Z)].
Proof.
  assert (Hpos : (0 < 7 + 3)%Z) by lia.
  exact (@remove_negative_adds [(apple, 7%Z)] apple 7 3 None []
           eq_refl eq_refl Hpos).
Defined.

(** X9: two additions to one item amount to one.  On a non-empty item name,
    [add_item(item, q1)] followed by [add_item(item, q2)] leaves the same
    mapping as [add_item(item, q1 + q2)]. *)
Theorem add_item_twice (s : stock) (item : str) (q1 q2 : Z)
    (logs1 logs2 logs : option (list str)) (now1 now2 now : str) :
  truthy item = true ->
  fst (add_item item q2 logs2 now2 (fst (add_item item q1 logs1 now1 s)))
  = fst (add_item item (q1 + q2) logs now s).
Proof.
  intros Ht. rewrite !add_item_truthy by assumption. cbn [fst].
  rewrite setitem_setitem. f_equal.
  unfold dict_get at 1. rewrite lookup_setitem_same. lia.
Qed.

Lemma add_item_twice_witness :
  fst (add_item apple 4 None [] (fst (add_item apple 3 None [] init)))
  = [(apple, 7%Z)].
Proof.
  rewrite (@add_item_twice init apple 3 4 None None None [] [] []); reflexivity.
Defined.

(** X10: additions to different items do not disturb each other: in either
    order they leave every item with the same quantity. *)
Theorem add_item_commutes (s : stock) (a b : str) (qa qb : Z)
    (la lb : option (list str)) (na nb : str) :
  a <> b ->
  forall k,
    dict_lookup (fst (add_item b qb lb nb (fst (add_item a qa la na s)))) k
    = dict_lookup (fst (add_item a qa la na (fst (add_item b qb lb nb s)))) k.
Proof.
  intros Hab k.
  assert (Hstep : forall (item : str) q l n (s0 : stock),
             fst (add_item item q l n s0)
             = if truthy item
               then dict_setitem s0 item (dict_get s0 item 0 + q)%Z else s0).
  { intros item q l n s0. destruct (truthy item) eqn:Ht.
    - now rewrite add_item_truthy.
    - unfold add_item. now rewrite Ht. }
  rewrite !Hstep.
  destruct (truthy a), (truthy b); try reflexivity.
  assert (Hget : forall (x y : str) (v : Z), y <> x ->
             dict_get (dict_setitem s x v) y 0%Z = dict_get s y 0%Z).
  { intros x y v Hxy. unfold dict_get. now rewrite lookup_setitem_other. }
  rewrite !Hget by congruence.
  destruct (str_eqb k a) eqn:Ea; [apply str_eqb_eq in Ea; subst k|].
  - rewrite lookup_setitem_same.
    rewrite lookup_setitem_other by congruence. now rewrite lookup_setitem_same.
  - apply str_eqb_neq in Ea.
    destruct (str_eqb k b) eqn:Eb; [apply str_eqb_eq in Eb; subst k|].
    + rewrite lookup_setitem_same.
      rewrite lookup_setitem_other by congruence. now rewrite lookup_setitem_same.
    + apply str_eqb_neq in Eb.
      now rewrite !lookup_setitem_other by congruence.
Qed.

Lemma add_item_commutes_witness :
  dict_lookup (fst (add_item banana 2 None [] (fst (add_item apple 1 None [] init))))
              apple
  = dict_lookup (fst (add_item apple 1 None [] (fst (add_item banana 2 None [] init))))
                apple.
Proof.
  apply (@add_item_commutes init apple banana 1 2 None None [] []). discriminate.
Defined.

(** X11: the log and the clock never influence the stock, and [add_item]
    only ever appends to a supplied log: the mapping after the call is the
    same whatever log and clock reading are passed; when the call returns, a
    supplied log comes back with its earlier lines in place and one line
    after them (none for an empty item name); and the call raises, a
    [ValueError], only on a non-empty item name with a quantity of more than
    4300 digits. *)
Theorem add_item_log_separate (s : stock) (item : str) (q : Z)
    (l : list str) (logs' : option (list str)) (now now' : str) :
  fst (add_item item q (Some l) now s) = fst (add_item item q logs' now' s) /\
  ((exists tail,
      snd (add_item item q (Some l) now s) = Return (Some (l ++ tail)) /\
      length tail = (if truthy item then 1 else 0) /\
      (truthy item = false \/ convertible q = true)) \/
   (snd (add_item item q (Some l) now s) = Raise ValueError /\
    truthy item = true /\ convertible q = false)).
Proof.
  destruct (truthy item) eqn:Ht.
  - rewrite !add_item_truthy by assumption. cbn [fst snd].
    split; [reflexivity|]. destruct (convertible q).
    + left. exists [log_line now q item]. auto.
    + right. auto.
  - unfold add_item. rewrite Ht. cbn. split; [reflexivity|].
    left. exists []. rewrite app_nil_r. auto.
Qed.

(** ** The low-stock list *)

Lemma low_items_mono (s : stock) (t1 t2 : Z) (item : str) :
  (t1 <= t2)%Z -> In item (low_items s t1) -> In item (low_items s t2).
Proof.
  intros Ht. induction s as [|[k q] r IH]; simpl; [tauto|].
  destruct (Z.ltb_spec q t1), (Z.ltb_spec q t2); simpl; try lia; intuition.
Qed.

(** X12: raising the threshold never drops an item from the low-stock list:
    every item reported for a threshold is reported for any larger one. *)
Theorem check_low_items_monotone (s : stock) (t1 t2 : Z) (low1 low2 : list str) :
  (t1 <= t2)%Z ->
  snd (check_low_items (Some t1) s) = Return low1 ->
  snd (check_low_items (Some t2) s) = Return low2 ->
  forall item, In item low1 -> In item low2.
Proof.
  intros Ht H1 H2 item. injection H1 as <-. injection H2 as <-.
  now apply low_items_mono.
Qed.

Lemma check_low_items_monotone_witness :
  In apple [apple; banana].
Proof.
  assert (Ht : (5 <= 11)%Z) by lia.
  exact (@check_low_items_monotone [(apple, 2%Z); (banana, 10%Z)] 5 11
           [apple] [apple; banana] Ht eq_refl eq_refl apple (or_introl eq_refl)).
Defined.

(** X13: the low-stock list names only items of the mapping, each at most
    once, so it is never longer than the mapping. *)
Theorem check_low_items_no_repeat (s : stock) (threshold : option Z)
    (low : list str) :
  unique_keys s = true ->
  snd (check_low_items threshold s) = Return low ->
  NoDup low /\
  (forall item, In item low -> dict_mem s item = true) /\
  length low <= length s.
Proof.
  intros Hu H. injection H as <-. unfold dict_items.
  split; [|split].
  - rewrite low_items_filter by assumption.
    apply NoDup_filter. now apply unique_keys_NoDup.
  - intros item Hin. apply low_items_keys in Hin.
    apply In_keys_lookup in Hin as [q Hq].
    rewrite dict_mem_lookup. now rewrite Hq.
  - apply low_items_length.
Qed.

Lemma check_low_items_no_repeat_witness : NoDup [apple].
Proof.
  exact (proj1 (@check_low_items_no_repeat [(apple, 2%Z); (banana, 10%Z)]
                  None [apple] eq_refl eq_refl)).
Defined.

(** X14: an item that a removal has brought to zero or below is gone from
    the low-stock list: whatever the threshold, [check_low_items] does not
    name it. *)
Theorem sold_out_not_low (s : stock) (item : str) (v q : Z)
    (threshold : option Z) (low : list str) :
  unique_keys s = true ->
  dict_lookup s item = Some v ->
  (v - q <= 0)%Z ->
  snd (check_low_items threshold (fst (remove_item item q s))) = Return low ->
  ~ In item low.
Proof.
  intros Hu Hl Hle H Hin. injection H as <-.
  rewrite (remove_item_found _ _ _ Hl) in Hin. cbn [fst] in Hin.
  replace (v - q <=? 0)%Z with true in Hin by (symmetry; apply Z.leb_le; lia).
  cbv beta iota in Hin. unfold dict_items in Hin. apply low_items_keys in Hin. apply In_keys_lookup in Hin as [q' Hq'].
  now rewrite lookup_remove_same in Hq'.
Qed.

Lemma sold_out_not_low_witness : ~ In apple [banana].
Proof.
  assert (Hle : (7 - 7 <= 0)%Z) by lia.
  exact (@sold_out_not_low [(apple, 7%Z); (banana, 1%Z)] apple 7 7 None [banana]
           eq_refl eq_refl Hle eq_refl).
Defined.

(** X15: when every stored quantity is positive, no item is below a
    threshold of 1 or less: the low-stock list is empty. *)
Theorem positive_stock_not_low (s : stock) (t : Z) :
  all_positive s = true ->
  (t <= 1)%Z ->
  check_low_items (Some t) s = (s, Return []).
Proof.
  intros Hp Ht. unfold check_low_items, bind, get_state, ret, dict_items.
  f_equal. f_equal. unfold all_positive in Hp.
  induction s as [|[k q] r IH]; [reflexivity|].
  cbn [forallb snd] in Hp. apply andb_true_iff in Hp as [Hq Hr].
  apply Z.ltb_lt in Hq. cbn [low_items].
  replace (q <? t)%Z with false by (symmetry; apply Z.ltb_ge; lia).
  auto.
Qed.

Lemma positive_stock_not_low_witness :
  check_low_items (Some 1%Z) [(apple, 7%Z); (banana, 1%Z)]
  = ([(apple, 7%Z); (banana, 1%Z)], Return []).
Proof.
  apply (@positive_stock_not_low [(apple, 7%Z); (banana, 1%Z)] 1);
    [reflexivity | lia].
Defined.

(** ** The report *)

Lemma print_eq `{Interpreter} (text out : str) :
  print text out =
    if forallb stdout_encodable text
    then if stdout_encodable 10%N
         then (out ++ text ++ [10%N], Return tt)
         else (out ++ text, Raise UnicodeEncodeError)
    else (out, Raise UnicodeEncodeError).
Proof.
  unfold print, bind, write_stdout.
  destruct (forallb stdout_encodable text); [|reflexivity].
  cbn [forallb]. rewrite andb_true_r.
  destruct (stdout_encodable 10%N); [|reflexivity].
  now rewrite <- app_assoc.
Qed.

Lemma print_items_cons `{Interpreter} (item : str) (qty : Z)
    (rest : list (str * Z)) (out : str) :
  print_items ((item, qty) :: rest) out =
    if convertible qty
    then match print (item ++ lit " -> " ++ int_repr qty) out with
         | (out', Return _) => print_items rest out'
         | (out', Raise e) => (out', Raise e)
         end
    else (out, Raise ValueError).
Proof.
  cbn [print_items]. unfold bind at 1, lift, format_report_line, str_of_int.
  destruct (convertible qty); reflexivity.
Qed.

Lemma items_text_cons (item : str) (qty : Z) (rest : list (str * Z)) :
  items_text ((item, qty) :: rest)
  = (item ++ lit " -> " ++ int_repr qty) ++ 10%N :: items_text rest.
Proof.
  unfold items_text. cbn [flat_map fst snd]. now rewrite <- !app_assoc.
Qed.

Lemma all_convertible_cons (item : str) (qty : Z) (rest : list (str * Z)) :
  all_convertible ((item, qty) :: rest) = convertible qty && all_convertible rest.
Proof. reflexivity. Qed.

Lemma print_items_cases `{Interpreter} (items : list (str * Z)) : forall out,
  (exists written, fst (print_items items out) = out ++ written) /\
  match snd (print_items items out) with
  | Return _ =>
      fst (print_items items out) = out ++ items_text items /\
      all_convertible items = true /\
      forallb stdout_encodable (items_text items) = true
  | Raise e =>
      (e = ValueError \/ e = UnicodeEncodeError) /\
      all_convertible items && forallb stdout_encodable (items_text items) = false
  end.
Proof.
  induction items as [|[item qty] rest IH]; intros out.
  { cbn. rewrite app_nil_r.
    split; [exists []; symmetry; apply app_nil_r | auto]. }
  rewrite print_items_cons, print_eq, items_text_cons, all_convertible_cons.
  set (line := item ++ lit " -> " ++ int_repr qty).
  rewrite forallb_app. cbn [forallb].
  destruct (convertible qty); cbn [andb fst snd];
    [|split; [exists []; now rewrite app_nil_r | auto]].
  destruct (forallb stdout_encodable line); cbn [andb fst snd];
    [|rewrite ?andb_false_r; split; [exists []; now rewrite app_nil_r | auto]].
  destruct (stdout_encodable 10%N); cbn [andb fst snd];
    [|rewrite ?andb_false_r; split; [eauto | auto]].
  destruct (IH (out ++ line ++ [10%N])) as [[written Hw] Hrest].
  split.
  - exists ((line ++ [10%N]) ++ written).
    rewrite Hw. now rewrite <- !app_assoc.
  - destruct (snd (print_items rest _)) as [u|e].
    + destruct Hrest as (Hf & Hc & He).
      repeat split; try assumption. rewrite Hf. now rewrite <- !app_assoc.
    + exact Hrest.
Qed.

Lemma print_data_cases `{Interpreter} (s : stock) (out : str) :
  (exists written, fst (print_data s out) = out ++ written) /\
  match snd (print_data s out) with
  | Return _ =>
      fst (print_data s out) = out ++ report_text s /\
      all_convertible s = true /\
      forallb stdout_encodable (report_text s) = true
  | Raise e =>
      (e = ValueError \/ e = UnicodeEncodeError) /\
      all_convertible s && forallb stdout_encodable (report_text s) = false
  end.
Proof.
  assert (Hp : print_data s out =
            match print (lit "Items Report") out with
            | (out', Return _) => print_items s out'
            | (out', Raise e) => (out', Raise e)
            end) by reflexivity.
  rewrite Hp, print_eq. clear Hp.
  unfold report_text, dict_items. set (header := lit "Items Report").
  rewrite !forallb_app. cbn [forallb].
  destruct (forallb stdout_encodable header); cbn [andb fst snd];
    [|rewrite ?andb_false_r; split; [exists []; now rewrite app_nil_r | auto]].
  destruct (stdout_encodable 10%N); cbn [andb fst snd];
    [|rewrite ?andb_false_r; split; [eauto | auto]].
  destruct (print_items_cases s (out ++ header ++ [10%N]))
    as [[written Hw] Hrest].
  split.
  - exists ((header ++ [10%N]) ++ written).
    rewrite Hw. now rewrite <- !app_assoc.
  - destruct (snd (print_items s _)) as [u|e].
    + destruct Hrest as (Hf & Hc & He).
      repeat split; try assumption. rewrite Hf. now rewrite <- !app_assoc.
    + exact Hrest.
Qed.



Lemma int_repr_inj (z1 z2 : Z) : int_repr z1 = int_repr z2 -> z1 = z2.
Proof.
  intros Hr.
  assert (Hv : forall z, int_of_literal (int_repr z) = z).
  { intros z. unfold int_repr.
    destruct (int_of_literal_digits (Z.abs_N z)) as [Hp Hn].
    destruct (Z.ltb_spec z 0); [rewrite Hn | rewrite Hp]; lia. }
  rewrite <- (Hv z1), <- (Hv z2). now rewrite Hr.
Qed.

Lemma first_line_feed (a b r r' : str) :
  forallb printable_ascii a = true -> forallb printable_ascii b = true ->
  a ++ 10%N :: r = b ++ 10%N :: r' -> a = b /\ r = r'.
Proof.
  revert b. induction a as [|x a IH]; intros [|y b] Ha Hb E; cbn [app] in E.
  - injection E as <-. auto.
  - injection E as <- _. discriminate.
  - injection E as -> _. discriminate.
  - injection E as <- E. cbn [forallb] in Ha, Hb.
    apply andb_true_iff in Ha as [_ Ha]. apply andb_true_iff in Hb as [_ Hb].
    destruct (IH b Ha Hb E) as [-> ->]. auto.
Qed.

Lemma items_text_inj (s1 : stock) : forall s2 : stock,
  dict_keys s1 = dict_keys s2 -> items_text s1 = items_text s2 -> s1 = s2.
Proof.
  induction s1 as [|[k q1] s1 IH]; intros [|[k' q2] s2] Hk Ht;
    try discriminate; [reflexivity|].
  cbn [dict_keys map fst] in Hk. injection Hk as <- Hk.
  cbn [items_text flat_map fst snd] in Ht.
  rewrite <- !app_assoc in Ht. apply app_inv_head in Ht.
  cbn [lit app] in Ht. injection Ht as Ht.
  apply first_line_feed in Ht as [Hq Ht]; try apply int_repr_printable.
  apply int_repr_inj in Hq. subst q2. f_equal. now apply IH.
Qed.

(** X17: the quantities can be read back from the report.  Two mappings
    with the same item names in the same order, for which [print_data]
    returns having written the same text, hold the same quantities. *)
Theorem printed_quantity_unambiguous `{Interpreter} (s1 s2 : stock) (out : str) :
  dict_keys s1 = dict_keys s2 ->
  snd (print_data s1 out) = Return tt ->
  print_data s2 out = print_data s1 out ->
  s1 = s2.
Proof.
  intros Hk Hr He.
  pose proof (print_data_cases s1 out) as [_ C1].
  pose proof (print_data_cases s2 out) as [_ C2].
  rewrite He in C2. rewrite Hr in C1, C2.
  destruct C1 as (F1 & _). destruct C2 as (F2 & _).
  rewrite F1 in F2. apply app_inv_head in F2.
  unfold report_text in F2. apply app_inv_head in F2. apply app_inv_head in F2.
  now apply items_text_inj.
Qed.

Lemma printed_quantity_unambiguous_witness : [(apple, 7%Z)] = [(apple, 7%Z)].
Proof.
  exact (@printed_quantity_unambiguous cpython [(apple, 7%Z)] [(apple, 7%Z)] []
           eq_refl eq_refl eq_refl).
Defined.

(** ** What is saved *)

(** X18: what [save_data] writes is printable ASCII whatever the item names
    are: every character of the text is between the space and the tilde, so
    the text has a single line and no character that the UTF-8 codec could
    refuse. *)
Theorem saved_text_is_ascii (s : stock) :
  forallb printable_ascii (json_dumps s) = true.
Proof. apply json_dumps_printable. Qed.

(** X19: a successful [save_data] replaces the bytes of the file by the
    encoding of the mapping, whatever the file held before; every path that
    names the same file shows the new bytes, the files at other places are
    as they were, and no path has come to name another place. *)
Theorem save_data_overwrites `{Interpreter} (s : stock) (file : option str)
    (fs fs' : filesystem) :
  save_data s file fs = (fs', Return tt) ->
  (exists r, fs_node fs' (path_of file) = File r true (json_dumps s)) /\
  (forall path, place_of fs path = place_of fs (path_of file) ->
                fs_node fs' path = fs_node fs' (path_of file)) /\
  (forall path, place_of fs path <> place_of fs (path_of file) ->
                fs_node fs' path = fs_node fs path) /\
  (forall path, place_of fs' path = place_of fs path).
Proof.
  intros Hs. apply save_data_written in Hs as (_ & _ & r & ->).
  split; [|split; [|split]].
  - exists r. apply fs_node_update_same.
  - intros path Hp. unfold fs_node, fs_update. cbn. now rewrite Hp.
  - intros path Hp. now rewrite !fs_node_update_other.
  - reflexivity.
Qed.

Lemma save_data_overwrites_witness :
  exists r,
    fs_node (fst (save_data [(apple, 7%Z)] None stale_disk)) default_file
    = File r true (lit "{" ++ [QUOTE] ++ lit "apple" ++ [QUOTE] ++ lit ": 7}").
Proof.
  exact (proj1 (@save_data_overwrites cpython [(apple, 7%Z)] None stale_disk
                  (fst (save_data [(apple, 7%Z)] None stale_disk))
                  eq_refl)).
Defined.




(** X22: saving to one file does not change what loading from another file
    does: [load_data] on a path that names another place than the path
    saved to behaves after the save as it did before. *)
Theorem save_data_other_path `{Interpreter} (s : stock) (file other : option str)
    (fs fs' : filesystem) (old : pyval) :
  place_of fs (path_of other) <> place_of fs (path_of file) ->
  save_data s file fs = (fs', Return tt) ->
  load_data fs' other old = load_data fs other old.
Proof.
  intros Hp Hs. apply save_data_written in Hs as (_ & _ & r & ->).
  rewrite !load_data_eq. unfold read_file.
  now rewrite !fs_node_update_other.
Qed.

Lemma save_data_other_path_witness :
  load_data (fst (save_data [(apple, 7%Z)] None two_files))
            (Some (lit "other.json")) PNone
  = (PList [], Return tt).
Proof.
  assert (Hp : place_of two_files (path_of (Some (lit "other.json")))
               <> place_of two_files (path_of None)) by discriminate.
  exact (@save_data_other_path cpython [(apple, 7%Z)] None
           (Some (lit "other.json")) two_files
           (fst (save_data [(apple, 7%Z)] None two_files)) PNone
           Hp eq_refl).
Defined.

Lemma of_stock_inj (s1 s2 : stock) : of_stock s1 = of_stock s2 -> s1 = s2.
Proof.
  unfold of_stock. intros H. injection H as H.
  revert s2 H. induction s1 as [|[k v] s1 IH]; intros [|[k' v'] s2] H;
    try discriminate; [reflexivity|].
  cbn [map] in H. injection H as -> -> H. f_equal. auto.
Qed.

(** X23: different mappings are saved as different texts: two mappings whose
    keys hold no high surrogate directly before a low one and that
    [json.dumps] encodes alike are equal, order of the items included. *)
Theorem json_dumps_injective (s1 s2 : stock) :
  unique_keys s1 = true -> forallb plain_key (dict_keys s1) = true ->
  unique_keys s2 = true -> forallb plain_key (dict_keys s2) = true ->
  json_dumps s1 = json_dumps s2 ->
  s1 = s2.
Proof.
  intros U1 K1 U2 K2 Hd. apply of_stock_inj.
  assert (L : forall s : stock,
            unique_keys s = true -> forallb plain_key (dict_keys s) = true ->
            scan 0 (scan_fuel (json_dumps s)) 1 Value (json_dumps s)
            = Scanned (of_stock s) []).
  { intros s U K. apply scan_dumps; try assumption.
    apply forallb_forall. intros kv _. reflexivity. }
  pose proof (L s1 U1 K1) as L1. pose proof (L s2 U2 K2) as L2.
  rewrite Hd in L1. congruence.
Qed.

Lemma json_dumps_injective_witness : [(apple, 7%Z)] = [(apple, 7%Z)].
Proof.
  exact (@json_dumps_injective [(apple, 7%Z)] [(apple, 7%Z)]
           eq_refl eq_refl eq_refl eq_refl eq_refl).
Defined.

(** ** Any key through the encoder and the decoder *)

Lemma surrogate_escape (c : codepoint) :
  is_high_surrogate c = true \/ is_low_surrogate c = true ->
  escape_char c = u_escape c /\ hex4_val (hex_digit (c / 4096 mod 16))
    (hex_digit (c / 256 mod 16)) (hex_digit (c / 16 mod 16))
    (hex_digit (c mod 16)) = Some c.
Proof.
  intros H.
  assert (Hc : (55296 <= c <= 57343)%N).
  { unfold is_high_surrogate, is_low_surrogate in H.
    destruct H as [H|H]; apply andb_true_iff in H as [Ha Hb];
      apply N.leb_le in Ha, Hb; lia. }
  split; [|apply hex4_val_hex4; lia].
  unfold escape_char.
  repeat match goal with
         | |- context [if N.eqb c ?x then _ else _] =>
             replace (N.eqb c x) with false
               by (symmetry; apply N.eqb_neq; intros ->; cbv in Hc;
                   destruct Hc as [Hc _]; now apply Hc)
         end.
  replace ((32 <=? c)%N && (c <=? 126)%N) with false
    by (symmetry; apply andb_false_iff; right; apply N.leb_gt; lia).
  replace (c <? 65536)%N with true by (symmetry; apply N.ltb_lt; lia).
  reflexivity.
Qed.

Lemma scanstring_encoded_upto (n : nat) : forall (k rest : str),
  length k <= n -> valid_str k = true ->
  scanstring (flat_map escape_char k ++ QUOTE :: rest) = Return (join_pairs k, rest).
Proof.
  induction n as [|n IH]; intros k rest Hn Hv.
  - destruct k; [|cbn [length] in Hn; lia].
    cbn [flat_map app scanstring]. change (N.eqb QUOTE QUOTE) with true.
    reflexivity.
  - destruct k as [|c r].
    { cbn [flat_map app scanstring]. change (N.eqb QUOTE QUOTE) with true.
      reflexivity. }
    cbn [valid_str forallb] in Hv. apply andb_true_iff in Hv as [Hc Hv].
    cbn [length] in Hn.
    destruct r as [|d r'].
    { cbn [flat_map join_pairs]. rewrite app_nil_r.
      rewrite scanstring_escape_char;
        [|assumption | intros _; apply quote_no_low].
      cbn [scanstring]. change (N.eqb QUOTE QUOTE) with true. reflexivity. }
    cbn [forallb] in Hv. apply andb_true_iff in Hv as [Hd Hv'].
    cbn [join_pairs].
    destruct (is_high_surrogate c && is_low_surrogate d) eqn:Hp.
    + apply andb_true_iff in Hp as [Hh Hl].
      destruct (surrogate_escape c (or_introl Hh)) as [Ec Xc].
      destruct (surrogate_escape d (or_intror Hl)) as [Ed Xd].
      cbn [flat_map]. rewrite Ec, Ed. unfold u_escape, hex4.
      cbn [app].
      rewrite (scanstring_u_pair _ _ _ _ _ _ _ _ _ Xc Hh Xd Hl).
      rewrite IH; [reflexivity | cbn [length] in Hn; lia | assumption].
    + change (flat_map escape_char (c :: d :: r'))
        with (escape_char c ++ flat_map escape_char (d :: r')).
      rewrite <- app_assoc.
      rewrite scanstring_escape_char; [|assumption|].
      * rewrite IH; [reflexivity | cbn [length] in *; lia |].
        cbn [valid_str forallb]. now rewrite Hd, Hv'.
      * intros Hh. rewrite Hh in Hp. cbn [andb] in Hp.
        cbn [flat_map]. rewrite <- app_assoc. now apply escape_no_low.
Qed.

Lemma scanstring_encoded (k rest : str) :
  valid_str k = true ->
  scanstring (flat_map escape_char k ++ QUOTE :: rest) = Return (join_pairs k, rest).
Proof. apply scanstring_encoded_upto with (length k). lia. Qed.

Lemma scan_members_reloaded (limit room : nat) (items : list (str * Z)) :
  forall (k : str) (v : Z) (pairs : list (str * pyval)) (fuel : nat) (tail : str),
    length items + 2 <= fuel ->
    valid_str k = true ->
    forallb valid_str (dict_keys items) = true ->
    too_many_digits limit (digits_of v) = false ->
    forallb (fun kv => negb (too_many_digits limit (digits_of (snd kv)))) items = true ->
    scan limit fuel room (Members pairs)
         (flat_map escape_char k ++ QUOTE :: lit ": " ++ int_repr v
          ++ iterencode_items false items ++ ord "}" :: tail)
    = Scanned (PDict (dict_of_pairs (pairs ++ map reloaded_item ((k, v) :: items))))
              tail.
Proof.
  induction items as [|[k2 v2] items IH];
    intros k v pairs fuel tail Hf Hk Hks Hv Hvs;
    cbn [length] in Hf; (destruct fuel as [|fuel]; [lia|]);
    cbn [scan]; unfold scan_members; rewrite scanstring_encoded by assumption;
    punct; rewrite skip_ws_int_repr.
  - rewrite scan_value_int by (lia || assumption || now right). punct. reflexivity.
  - rewrite scan_value_int by (lia || assumption || now left). punct.
    unfold encode_basestring_ascii.
    cbn [dict_keys map fst forallb] in Hks.
    apply andb_true_iff in Hks as [Hk2 Hks].
    cbn [forallb snd] in Hvs. apply andb_true_iff in Hvs as [Hv2 Hvs].
    apply negb_true_iff in Hv2.
    repeat first [progress punct | rewrite <- app_assoc].
    etransitivity; [apply IH; (assumption || lia)|].
    cbn [map]. now rewrite <- app_assoc.
Qed.

Lemma loads_dumps_any `{Interpreter} (s : stock) :
  forallb valid_str (dict_keys s) = true ->
  all_convertible s = true ->
  json_loads (json_dumps s) = Return (PDict (dict_of_pairs (map reloaded_item s))).
Proof.
  intros Hk Hd. unfold json_loads. rewrite json_dumps_head.
  destruct room_succ as [room ->].
  destruct s as [|[k v] items]; [reflexivity|].
  unfold json_dumps, dict_items.
  cbn [iterencode_items]. unfold encode_basestring_ascii.
  repeat first [progress punct | rewrite <- app_assoc].
  unfold scan_fuel. rewrite Nat.add_1_r. cbn [scan]. unfold scan_once.
  change (N.eqb (ord "{") QUOTE) with false.
  change (is_char (ord "{") "{") with true. punct.
  change (is_char QUOTE "}") with false. punct.
  cbn [dict_keys map fst forallb] in Hk. apply andb_true_iff in Hk as [Hk Hks].
  unfold all_convertible, dict_items, convertible in Hd.
  cbn [forallb snd] in Hd. apply andb_true_iff in Hd as [Hv Hvs].
  apply negb_true_iff in Hv.
  change [ord "}"] with (ord "}" :: []).
  match goal with
  | |- match ?x with _ => _ end = _ =>
      replace x with
        (Scanned (PDict (dict_of_pairs (map reloaded_item ((k, v) :: items)))) [])
  end; [reflexivity|].
  symmetry.
  apply (@scan_members_reloaded int_max_str_digits room items k v []);
    try assumption.
  pose proof (length_iterencode false items).
  repeat first [rewrite length_app | progress cbn [length]]. lia.
Qed.

(** X24: what comes back from a saved file, for any item names.  When
    [save_data] succeeds and the file can be read back, [load_data] on the
    same path returns normally, and leaves the dict built, item after item,
    from the saved items with every high surrogate directly followed by a low
    one in a key joined into the code point of the pair; the quantities come
    back unchanged. *)
Theorem save_then_load_any `{Interpreter} (s : stock) (file : option str)
    (fs fs' : filesystem) (old : pyval) :
  forallb valid_str (dict_keys s) = true ->
  save_data s file fs = (fs', Return tt) ->
  readable fs' (path_of file) = true ->
  load_data fs' file old
  = (PDict (dict_of_pairs (map reloaded_item s)), Return tt).
Proof.
  intros Hk Hsave Hr.
  destruct (read_saved _ _ _ Hsave Hr) as [Hread Hc].
  rewrite load_data_eq, Hread. now rewrite loads_dumps_any.
Qed.

Lemma save_then_load_any_witness :
  load_data
    (fst (save_data [([55357; 56832]%N, 1%Z); ([128512]%N, 2%Z)] None empty_disk))
    None PNone
  = (PDict [([128512]%N, PInt 2)], Return tt).
Proof.
  exact (@save_then_load_any cpython
           [([55357; 56832]%N, 1%Z); ([128512]%N, 2%Z)] None
           empty_disk
           (fst (save_data [([55357; 56832]%N, 1%Z); ([128512]%N, 2%Z)]
                   None empty_disk))
           PNone eq_refl eq_refl eq_refl).
Defined.
